(** * Asset-Risk-Footprint: equal-weight risk math, Monte Carlo sampling
      and historical VaR of [src/main.py], embedded and verified.

    The numeric code of [main.py] is written once over an interface of
    float operations ([Arith], and [Scalar] where missing values, order
    and rounding to an index matter) and read at three instances:
    - [binary64]: IEEE 754 double precision, the arithmetic numpy runs,
      given by the Standard Library's executable [spec_float];
    - [R]: exact real arithmetic, in which the algebraic identities hold;
    - [xreal]: exact reals with a missing-value marker, which is also
      the value of a division by zero and of the root of a negative
      number.

    Tables (pandas frames) are label lists over row-major cells, numpy
    arrays are lists, exceptions are the left summand of [result], and the
    random generator is a mutable object in a store of generators. *)

From Stdlib Require Import String List Bool Arith ZArith Lia.
From Stdlib Require Import Permutation Sorted.
From Stdlib Require Import Reals Lra.
From Stdlib Require Import SpecFloat.
Import ListNotations.

Set Implicit Arguments.

(* ================================================================== *)
(** * Exceptions *)

(** The exceptions the Python code can raise on the paths modelled here. *)
Inductive exn : Type :=
| KeyError      (* a label absent from a frame's axis ([.loc]) *)
| ValueError    (* numpy argument checks, [list.index] of an absent item *)
| IndexError.   (* array index out of range *)

Definition result (A : Type) : Type := (exn + A)%type.

Definition rbind {A B} (m : result A) (f : A -> result B) : result B :=
  match m with
  | inl e => inl e
  | inr a => f a
  end.

Declare Scope result_scope.
Delimit Scope result_scope with result.
Notation "x <- m ;; k" := (rbind m (fun x => k))
  (at level 61, m at next level, right associativity) : result_scope.

(** [mapM] for [result]: the first failure wins. *)
Fixpoint rmap {A B} (f : A -> result B) (xs : list A) : result (list B) :=
  match xs with
  | [] => inr []
  | x :: xs' =>
      (y <- f x ;; ys <- rmap f xs' ;; inr (y :: ys))%result
  end.

(* ================================================================== *)
(** * Scalars *)

(** The arithmetic [main.py] does on floats, through numpy or Python. *)
Class Arith (F : Type) : Type := {
  f_zero  : F;
  f_one   : F;
  f_add   : F -> F -> F;
  f_sub   : F -> F -> F;
  f_mul   : F -> F -> F;
  f_div   : F -> F -> F;
  f_neg   : F -> F;
  f_sqrt  : F -> F;
  f_of_Z  : Z -> F           (* int -> float conversion *)
}.

(** Floats with the missing-value marker, comparisons and the cast of a
    float to an index. *)
Class Scalar (F : Type) : Type := {
  scalar_arith :: Arith F;
  f_nan   : F;               (* [np.nan], the missing-value marker *)
  f_isnan : F -> bool;
  f_leb   : F -> F -> bool;  (* [<=] *)
  f_ltb   : F -> F -> bool;  (* [<] *)
  f_floor : F -> Z           (* [np.floor(x).astype(intp)] *)
}.

(** ** IEEE 754 binary64 *)

Module B64.

Definition prec : Z := 53.
Definition emax : Z := 1024.

Definition t : Type := spec_float.

Definition nan  : t := S754_nan.
Definition pinf : t := S754_infinity false.
Definition ninf : t := S754_infinity true.
Definition zero : t := S754_zero false.

(** [mk m e] is the double nearest to [m * 2^e]. *)
Definition mk (m e : Z) : t := binary_normalize prec emax m e false.

Definition of_Z (z : Z) : t := mk z 0.
Definition one : t := of_Z 1.

Definition add  : t -> t -> t := SFadd prec emax.
Definition sub  : t -> t -> t := SFsub prec emax.
Definition mul  : t -> t -> t := SFmul prec emax.
Definition div  : t -> t -> t := SFdiv prec emax.
Definition sqrt : t -> t := SFsqrt prec emax.
Definition neg  : t -> t := SFopp.

Definition isnan (x : t) : bool :=
  match x with
  | S754_nan => true
  | _ => false
  end.

Definition is_zero (x : t) : bool :=
  match x with
  | S754_zero _ => true
  | _ => false
  end.

Definition is_inf (x : t) : bool :=
  match x with
  | S754_infinity _ => true
  | _ => false
  end.

Definition is_finite (x : t) : bool :=
  match x with
  | S754_zero _ | S754_finite _ _ _ => true
  | _ => false
  end.

(** Largest integer not above a finite double; the cast of a NaN or an
    infinity to an integer is not defined by numpy and is 0 here. *)
Definition floor (x : t) : Z :=
  match x with
  | S754_finite s m e =>
      let v := if s then Z.neg m else Z.pos m in
      if (0 <=? e)%Z then (v * 2 ^ e)%Z else (v / 2 ^ (- e))%Z
  | _ => 0%Z
  end.

End B64.

#[export] Instance binary64_arith : Arith B64.t := {|
  f_zero  := B64.zero;
  f_one   := B64.one;
  f_add   := B64.add;
  f_sub   := B64.sub;
  f_mul   := B64.mul;
  f_div   := B64.div;
  f_neg   := B64.neg;
  f_sqrt  := B64.sqrt;
  f_of_Z  := B64.of_Z
|}.

#[export] Instance binary64 : Scalar B64.t := {|
  scalar_arith := binary64_arith;
  f_nan   := B64.nan;
  f_isnan := B64.isnan;
  f_leb   := SFleb;
  f_ltb   := SFltb;
  f_floor := B64.floor
|}.

(** ** Exact reals *)

#[export] Instance exact_real : Arith R := {|
  f_zero  := 0%R;
  f_one   := 1%R;
  f_add   := Rplus;
  f_sub   := Rminus;
  f_mul   := Rmult;
  f_div   := Rdiv;
  f_neg   := Ropp;
  f_sqrt  := sqrt;
  f_of_Z  := IZR
|}.

(** ** Exact reals with a missing-value marker

    [None] is NaN. The model has no infinities and no rounding: what
    IEEE 754 answers with an infinity (a quotient by zero) is undefined
    here too, as is the root of a negative number. *)

Module XR.

Definition t : Type := option R.

Definition lift2 (f : R -> R -> R) (a b : t) : t :=
  match a, b with
  | Some x, Some y => Some (f x y)
  | _, _ => None
  end.

Definition div (a b : t) : t :=
  match a, b with
  | Some x, Some y => if Req_dec_T y 0 then None else Some (x / y)%R
  | _, _ => None
  end.

Definition sqrt (a : t) : t :=
  match a with
  | Some x => if Rlt_dec x 0 then None else Some (R_sqrt.sqrt x)
  | None => None
  end.

Definition isnan (a : t) : bool :=
  match a with
  | Some _ => false
  | None => true
  end.

Definition leb (a b : t) : bool :=
  match a, b with
  | Some x, Some y => if Rle_dec x y then true else false
  | _, _ => false
  end.

Definition ltb (a b : t) : bool :=
  match a, b with
  | Some x, Some y => if Rlt_dec x y then true else false
  | _, _ => false
  end.

Definition floor (a : t) : Z :=
  match a with
  | Some x => Int_part x
  | None => 0%Z
  end.

End XR.

#[export] Instance xreal_arith : Arith XR.t := {|
  f_zero  := Some 0%R;
  f_one   := Some 1%R;
  f_add   := XR.lift2 Rplus;
  f_sub   := XR.lift2 Rminus;
  f_mul   := XR.lift2 Rmult;
  f_div   := XR.div;
  f_neg   := option_map Ropp;
  f_sqrt  := XR.sqrt;
  f_of_Z  := fun z => Some (IZR z)
|}.

#[export] Instance xreal : Scalar XR.t := {|
  scalar_arith := xreal_arith;
  f_nan   := None;
  f_isnan := XR.isnan;
  f_leb   := XR.leb;
  f_ltb   := XR.ltb;
  f_floor := XR.floor
|}.

(* ================================================================== *)
(** * Arrays

    numpy arrays are lists. The products are written for operands whose
    shapes agree; numpy raises [ValueError] on a mismatch, which the
    functions that form a product check where they can raise. Sums run
    from the left, which fixes one rounding order among those numpy may
    take. *)

Fixpoint zip_with {A B C} (f : A -> B -> C) (xs : list A) (ys : list B)
  : list C :=
  match xs, ys with
  | x :: xs', y :: ys' => f x y :: zip_with f xs' ys'
  | _, _ => []
  end.

Section Arrays.

Context {F : Type} `{Arith F}.

(** A one-dimensional [ndarray] of floats. *)
Definition vec : Type := list F.
(** A two-dimensional [ndarray], row-major. *)
Definition mat : Type := list (list F).

(** [m.shape[1]]. *)
Definition ncols (m : mat) : nat :=
  match m with
  | [] => 0
  | r :: _ => length r
  end.

(** Whether [m.shape[1] == m.shape[0]]: every row is as long as the
    matrix has rows. *)
Definition is_square (m : mat) : bool :=
  forallb (fun r => Nat.eqb (length r) (length m)) m.

(** [np.ones(k) / k]: the equal-weight vector. *)
Definition equal_weights (k : nat) : vec :=
  map (fun x => f_div x (f_of_Z (Z.of_nat k))) (repeat f_one k).

(** [u @ v] of two vectors, accumulated from the left. *)
Definition dot (u v : vec) : F :=
  fold_left (fun acc p => f_add acc (f_mul (fst p) (snd p)))
            (combine u v) f_zero.

(** [m @ w]: each row against [w]. *)
Definition matvec (m : mat) (w : vec) : vec :=
  map (fun row => dot row w) m.

(** [w @ m]: the rows of [m] scaled by the entries of [w] and summed. *)
Definition vecmat (w : vec) (m : mat) : vec :=
  fold_left (fun acc p => zip_with f_add acc (map (f_mul (fst p)) (snd p)))
            (combine w m) (repeat f_zero (ncols m)).

(** [a.sum()]. *)
Definition vsum (a : vec) : F := fold_left f_add a f_zero.

(** [a.mean()]. *)
Definition mean (a : vec) : F :=
  f_div (vsum a) (f_of_Z (Z.of_nat (length a))).

(** [a.std(ddof=d)]: root of the summed squared deviations over
    [max (n - d) 0]. *)
Definition std (ddof : nat) (a : vec) : F :=
  let m := mean a in
  let dev := map (fun x => f_sub x m) a in
  let sq := map (fun x => f_mul x x) dev in
  f_sqrt (f_div (vsum sq) (f_of_Z (Z.of_nat (length a - ddof)))).

End Arrays.

(* ================================================================== *)
(** * Frames *)

(** A pandas [DataFrame]: row labels, column labels and row-major cells. *)
Record DataFrame (F L : Type) : Type := {
  index   : list L;
  columns : list string;
  values  : list (list F)
}.

(** The positions of [key] on an axis, all of them when the label is
    repeated, counted from [i]. *)
Fixpoint positions {L} (eqb : L -> L -> bool) (labels : list L) (key : L)
  (i : nat) : list nat :=
  match labels with
  | [] => []
  | l :: ls =>
      if eqb l key then i :: positions eqb ls key (S i)
      else positions eqb ls key (S i)
  end.

(** The positions [.loc] resolves a list of labels to, in the order of
    the keys; [KeyError] when a key is on no label. *)
Fixpoint get_indexer {L} (eqb : L -> L -> bool) (labels : list L)
  (keys : list L) : result (list nat) :=
  match keys with
  | [] => inr []
  | k :: ks =>
      match positions eqb labels k 0 with
      | [] => inl KeyError
      | ps => (rest <- get_indexer eqb labels ks ;; inr (ps ++ rest))%result
      end
  end.

(** The items at the given positions. *)
Definition take {X} (items : list X) (idx : list nat) : list X :=
  flat_map (fun i => match nth_error items i with
                     | Some x => [x]
                     | None => []
                     end) idx.

(** [tickers.index(asset)]. *)
Fixpoint list_index (l : list string) (x : string) : result nat :=
  match l with
  | [] => inl ValueError
  | y :: l' =>
      if String.eqb y x then inr 0
      else (i <- list_index l' x ;; inr (S i))%result
  end.

(* ================================================================== *)
(** * Risk math *)

Section RiskMath.

Context {F : Type} `{Arith F}.

(** [subcov(cov, tickers)]: [cov.loc[P, P].to_numpy()]. *)
Definition subcov (cov : DataFrame F string) (tickers : list string)
  : result mat :=
  let P := tickers in
  (ridx <- get_indexer String.eqb (index cov) P ;;
   cidx <- get_indexer String.eqb (columns cov) P ;;
   inr (map (fun row => take row cidx) (take (values cov) ridx)))%result.

(** [portfolio_sigma(cov_P)], the float it returns for a [k] by [k]
    matrix, which is what [subcov] builds from a covariance matrix. On a
    matrix of another shape numpy's product raises; the statements that
    give the value of this function take the matrix to be [k] by [k]. *)
Definition portfolio_sigma (cov_P : mat) : F :=
  let k := length cov_P in
  let w := equal_weights k in
  f_sqrt (dot (vecmat w cov_P) w).

(** [mrc_for_asset(cov_P, tickers, asset)]. The products [w @ cov_P @ w]
    and [cov_P @ w] raise [ValueError] unless [cov_P] is [k] by [k], before
    the asset is looked up. The division of the array by [sigma_p] is
    numpy's: it raises nothing. *)
Definition mrc_for_asset (cov_P : mat) (tickers : list string)
  (asset : string) : result F :=
  let k := length cov_P in
  let w := equal_weights k in
  if negb (is_square cov_P) then inl ValueError
  else
    let sigma_p := f_sqrt (dot (vecmat w cov_P) w) in
    let mrc_vec := map (fun x => f_div x sigma_p) (matvec cov_P w) in
    (idx <- list_index tickers asset ;;
     match nth_error mrc_vec idx with
     | Some v => inr v
     | None => inl IndexError
     end)%result.

End RiskMath.

(* ================================================================== *)
(** * Random generators *)

(** numpy's bit generators: a state built from a seed, and a step that
    yields a raw word and the next state. *)
Class BitGenerator (G : Type) : Type := {
  from_seed   : Z -> G;
  next_uint64 : G -> Z * G
}.

(** Remove the item at position [i]. *)
Fixpoint remove_at {A} (i : nat) (l : list A) : option (A * list A) :=
  match l, i with
  | [], _ => None
  | x :: l', O => Some (x, l')
  | x :: l', S i' =>
      match remove_at i' l' with
      | Some (y, r) => Some (y, x :: r)
      | None => None
      end
  end.

Section Sampling.

Context {G : Type} `{BitGenerator G}.

(** A position below [n], from one raw word. *)
Definition integers (g : G) (n : nat) : nat * G :=
  let (r, g') := next_uint64 g in
  (Z.to_nat (r mod Z.of_nat n), g').

(** [n] items at distinct positions of [pool], each taken out of the pool
    when it is drawn. *)
Fixpoint draw {A} (n : nat) (pool : list A) (g : G) : list A * G :=
  match n with
  | O => ([], g)
  | S n' =>
      let (i, g1) := integers g (length pool) in
      match remove_at i pool with
      | None => ([], g1)
      | Some (x, rest) =>
          let (xs, g2) := draw n' rest g1 in
          (x :: xs, g2)
      end
  end.

(** numpy's [Generator.choice(a, size=size, replace=False)], after its
    documentation. The argument checks raise [ValueError]: an empty
    population with a non-zero size, a size above the population, a
    negative size. Otherwise [size] items at distinct positions of [a] are
    returned and the generator has advanced. *)
Definition choice {A} (g : G) (a : list A) (size : Z)
  : result (list A * G) :=
  if Nat.eqb (length a) 0 && negb (size =? 0)%Z then inl ValueError
  else if (Z.of_nat (length a) <? size)%Z then inl ValueError
  else if (size <? 0)%Z then inl ValueError
  else inr (draw (Z.to_nat size) a g).

(** ** The store of generator objects

    A [Generator] is a mutable Python object: [rng.choice] advances the
    state of the object [rng] names. Objects live in a store and are named
    by references; [default_rng] allocates. *)

Definition ref : Type := nat.

Record World : Type := {
  fresh  : ref;
  gen_at : ref -> G
}.

Definition upd (m : ref -> G) (r : ref) (g : G) : ref -> G :=
  fun r' => if Nat.eqb r' r then g else m r'.

(** Computations that may raise and that read and write the store. *)
Definition M (A : Type) : Type := World -> result A * World.

Definition ret {A} (a : A) : M A := fun w => (inr a, w).

Definition raise {A} (e : exn) : M A := fun w => (inl e, w).

Definition bind {A B} (m : M A) (f : A -> M B) : M B :=
  fun w =>
    match m w with
    | (inl e, w') => (inl e, w')
    | (inr a, w') => f a w'
    end.

Definition lift {A} (r : result A) : M A := fun w => (r, w).

(** [np.random.default_rng(seed)]: a new generator object, its state
    decided by [seed] alone; a negative seed is refused. *)
Definition default_rng (seed : Z) : M ref :=
  fun w =>
    if (seed <? 0)%Z then (inl ValueError, w)
    else
      (inr (fresh w),
       {| fresh := S (fresh w);
          gen_at := upd (gen_at w) (fresh w) (from_seed seed) |}).

(** [rng.choice(a, size=size, replace=False)] on the object [rng]. *)
Definition Generator_choice {A} (rng : ref) (a : list A) (size : Z)
  : M (list A) :=
  fun w =>
    match choice (gen_at w rng) a size with
    | inl e => (inl e, w)
    | inr (pick, g') =>
        (inr pick, {| fresh := fresh w; gen_at := upd (gen_at w) rng g' |})
    end.

End Sampling.

Declare Scope world_scope.
Delimit Scope world_scope with world.
Notation "x <- m ;; k" := (bind m (fun x => k))
  (at level 61, m at next level, right associativity) : world_scope.

(* ================================================================== *)
(** * Monte Carlo sampling *)

Section MonteCarlo.

Context {G : Type} `{BitGenerator G}.
Context {F : Type} `{Arith F}.

(** [sample_portfolio_with_asset(universe, asset, k, rng)]. *)
Definition sample_portfolio_with_asset (universe : list string)
  (asset : string) (k : Z) (rng : ref) : M (list string) :=
  let others := filter (fun u => negb (String.eqb u asset)) universe in
  (pick <- Generator_choice rng others (k - 1) ;;
   ret (pick ++ [asset]))%world.

(** The loop of [expected_sigma_and_se]: the array [sigmas] after
    [num_sims] trials. *)
Fixpoint sigma_trials (universe : list string) (cov : DataFrame F string)
  (asset : string) (k : Z) (rng : ref) (num_sims : nat) : M vec :=
  match num_sims with
  | O => ret []
  | S n =>
      (P <- sample_portfolio_with_asset universe asset k rng ;;
       cov_P <- lift (subcov cov P) ;;
       rest <- sigma_trials universe cov asset k rng n ;;
       ret (portfolio_sigma cov_P :: rest))%world
  end.

(** [expected_sigma_and_se(universe, cov, asset, k, num_sims, seed)]. *)
Definition expected_sigma_and_se (universe : list string)
  (cov : DataFrame F string) (asset : string) (k : Z) (num_sims : nat)
  (seed : Z) : M (F * F) :=
  (rng <- default_rng seed ;;
   sigmas <- sigma_trials universe cov asset k rng num_sims ;;
   let esig := mean sigmas in
   let se := f_div (std 1 sigmas) (f_sqrt (f_of_Z (Z.of_nat num_sims))) in
   ret (esig, se))%world.

(** The loop of [expected_mrc]: the array [vals] after [num_sims] trials. *)
Fixpoint mrc_trials (universe : list string) (cov : DataFrame F string)
  (asset : string) (k : Z) (rng : ref) (num_sims : nat) : M vec :=
  match num_sims with
  | O => ret []
  | S n =>
      (P <- sample_portfolio_with_asset universe asset k rng ;;
       cov_P <- lift (subcov cov P) ;;
       v <- lift (mrc_for_asset cov_P P asset) ;;
       rest <- mrc_trials universe cov asset k rng n ;;
       ret (v :: rest))%world
  end.

(** [expected_mrc(universe, cov, asset, k, num_sims, seed)]. *)
Definition expected_mrc (universe : list string)
  (cov : DataFrame F string) (asset : string) (k : Z) (num_sims : nat)
  (seed : Z) : M F :=
  (rng <- default_rng seed ;;
   vals <- mrc_trials universe cov asset k rng num_sims ;;
   ret (mean vals))%world.

End MonteCarlo.

(* ================================================================== *)
(** * Returns and historical VaR *)

(** [fill_method] of [DataFrame.pct_change]: pandas pads missing prices
    forward by default before version 3 and leaves them from it. *)
Inductive fill_method : Type := Pad | NoFill.

Section Panel.

Context {F : Type} `{Scalar F}.

(** Dates are day numbers. *)
Definition date : Type := Z.

(** [ffill]: each missing cell takes the last value above it. *)
Fixpoint ffill_from (prev : list F) (rows : list (list F))
  : list (list F) :=
  match rows with
  | [] => []
  | r :: rs =>
      let r' := zip_with (fun p x => if f_isnan x then p else x) prev r in
      r' :: ffill_from r' rs
  end.

Definition ffill (rows : list (list F)) : list (list F) :=
  match rows with
  | [] => []
  | r :: rs => r :: ffill_from r rs
  end.

(** [shift(1)]: every row moves down by one, the first is missing. *)
Definition shift1 (rows : list (list F)) : list (list F) :=
  match rows with
  | [] => []
  | r :: _ => map (fun _ => f_nan) r :: removelast rows
  end.

(** [prices.pct_change()]: [data / data.shift(1) - 1], cell by cell. *)
Definition pct_change (fill : fill_method) (prices : DataFrame F date)
  : DataFrame F date :=
  let data := match fill with
              | Pad => ffill (values prices)
              | NoFill => values prices
              end in
  {| index := index prices;
     columns := columns prices;
     values :=
       zip_with (zip_with (fun x p => f_sub (f_div x p) f_one))
                data (shift1 data) |}.

(** [dropna()]: the rows without a missing cell. Infinities are kept. *)
Definition dropna (df : DataFrame F date) : DataFrame F date :=
  let kept := filter (fun p => negb (existsb f_isnan (snd p)))
                     (combine (index df) (values df)) in
  {| index := map fst kept;
     columns := columns df;
     values := map snd kept |}.

(** [returns_from_prices(prices)]; [fill] is the default of the
    installed pandas. *)
Definition returns_from_prices (fill : fill_method)
  (prices : DataFrame F date) : DataFrame F date :=
  dropna (pct_change fill prices).

(** [portfolio_returns(returns, P, start, end)]: the series of dated
    equal-weight returns, for a panel whose dates ascend and whose column
    labels are unique: the label slice [start:end] is then the rows dated
    within the closed interval, and [sub] has one column for each symbol
    of [P]. The statements about the rows this function selects take the
    panel to be such a panel. *)
Definition portfolio_returns (returns : DataFrame F date)
  (P : list string) (start end_ : date) : result (list (date * F)) :=
  (cidx <- get_indexer String.eqb (columns returns) P ;;
   let sub := filter (fun p => (start <=? fst p)%Z && (fst p <=? end_)%Z)
                     (combine (index returns) (values returns)) in
   let w := equal_weights (length P) in
   inr (map (fun p => (fst p, dot (take (snd p) cidx) w)) sub))%result.

(** Insertion sort by [<=]. *)
Fixpoint insert_sorted (x : F) (l : list F) : list F :=
  match l with
  | [] => [x]
  | y :: l' => if f_leb x y then x :: l else y :: insert_sorted x l'
  end.

Definition sort (l : list F) : list F := fold_right insert_sorted [] l.

(** [arr[i]] with Python's negative indices. *)
Definition py_nth (arr : list F) (i : Z) : F :=
  if (i <? 0)%Z then nth (Z.to_nat (Z.of_nat (length arr) + i)) arr f_nan
  else nth (Z.to_nat i) arr f_nan.

(** numpy's [_lerp(a, b, t)]. *)
Definition lerp (a b t : F) : F :=
  let diff_b_a := f_sub b a in
  if f_leb (f_div f_one (f_of_Z 2)) t
  then f_sub b (f_mul diff_b_a (f_sub f_one t))
  else f_add a (f_mul diff_b_a t).

(** numpy's quantile of a sorted, non-empty array by its default method
    ([linear]): the virtual index [(n - 1) * q], the two order statistics
    around it, and [_lerp] between them. *)
Definition quantile_sorted (arr : list F) (q : F) : F :=
  let n := Z.of_nat (length arr) in
  let virtual_index := f_mul (f_of_Z (n - 1)) q in
  let previous_index :=
    if f_leb (f_of_Z (n - 1)) virtual_index then (-1)%Z
    else if f_ltb virtual_index f_zero then 0%Z
    else f_floor virtual_index in
  let next_index :=
    if f_leb (f_of_Z (n - 1)) virtual_index then (-1)%Z
    else if f_ltb virtual_index f_zero then 0%Z
    else (f_floor virtual_index + 1)%Z in
  let gamma := f_sub virtual_index (f_of_Z previous_index) in
  lerp (py_nth arr previous_index) (py_nth arr next_index) gamma.

(** [np.nanquantile(a, q)]: [ValueError] unless [0 <= q <= 1]; NaN when
    nothing is left after the missing values are removed. *)
Definition nanquantile (a : list F) (q : F) : result F :=
  if negb (f_leb f_zero q && f_leb q f_one) then inl ValueError
  else
    match filter (fun x => negb (f_isnan x)) a with
    | [] => inr f_nan
    | arr => inr (quantile_sorted (sort arr) q)
    end.

(** [historical_var(returns, P, start, end, confidence)]. *)
Definition historical_var (returns : DataFrame F date) (P : list string)
  (start end_ : date) (confidence : F) : result F :=
  let alpha := f_sub f_one confidence in
  (series <- portfolio_returns returns P start end_ ;;
   let rp := map snd series in
   q_alpha <- nanquantile rp alpha ;;
   inr (f_neg q_alpha))%result.

End Panel.

(* ================================================================== *)
(** * The universe of symbols with a full history *)

(** [==] on floats. *)
Class ScalarEq (F : Type) : Type := {
  f_eqb : F -> F -> bool
}.

#[export] Instance binary64_eq : ScalarEq B64.t := {|
  f_eqb := SFeqb
|}.

(** Equality of exact reals; a missing value equals nothing. *)
Definition xreal_eqb (a b : XR.t) : bool :=
  match a, b with
  | Some x, Some y => if Req_dec_T x y then true else false
  | _, _ => false
  end.

#[export] Instance xreal_eq : ScalarEq XR.t := {|
  f_eqb := xreal_eqb
|}.

Section Universe.

Context {F : Type} {SF : Scalar F} {EF : ScalarEq F}.

(** The cells of one column, top down. *)
Definition column (rows : list (list F)) (j : nat) : list F :=
  map (fun r => nth j r f_nan) rows.

(** One entry of [prices.notna().mean()]: the share of the cells of a
    column that are not missing. *)
Definition notna_mean (col : list F) : F :=
  mean (map (fun x => if f_isnan x then f_zero else f_one) col).

(** [full_history_universe(prices)]:
    [prices.columns[prices.notna().mean() == 1.0]], the column labels
    under the boolean mask, in column order. *)
Definition full_history_universe (prices : DataFrame F date)
  : list string :=
  map snd
    (filter (fun p => f_eqb (notna_mean (column (values prices) (fst p)))
                            f_one)
            (combine (seq 0 (length (columns prices))) (columns prices))).

End Universe.

(* ================================================================== *)
(** * Notions the statements use *)

(** A covariance matrix: symbol by symbol, each symbol once, the cells
    filling the frame. *)
Definition wf_cov {F} (cov : DataFrame F string) : Prop :=
  NoDup (index cov) /\
  columns cov = index cov /\
  length (values cov) = length (index cov) /\
  Forall (fun r => length r = length (columns cov)) (values cov).

(** The cell of a matrix at a row and a column position. *)
Definition cell {F} (m : list (list F)) (i j : nat) : option F :=
  match nth_error m i with
  | Some r => nth_error r j
  | None => None
  end.

(** [choice] passes its argument checks. *)
Definition choice_ok {A} (a : list A) (size : Z) : bool :=
  negb (Nat.eqb (length a) 0 && negb (size =? 0)%Z)
  && negb (Z.of_nat (length a) <? size)%Z
  && negb (size <? 0)%Z.

Section Trials.

Context {G : Type} `{BitGenerator G}.
Context {F : Type} `{Arith F}.

(** The state of a generator newly made from [seed]. *)
Definition seeded (seed : Z) : result G :=
  if (seed <? 0)%Z then inl ValueError else inr (from_seed seed).

(** The portfolios that [n] successive calls of
    [sample_portfolio_with_asset] draw from a generator in state [g]. *)
Fixpoint portfolios (universe : list string) (asset : string) (k : Z)
  (n : nat) (g : G) : result (list (list string)) :=
  match n with
  | O => inr []
  | S n' =>
      match choice g (filter (fun u => negb (String.eqb u asset)) universe)
                   (k - 1) with
      | inl e => inl e
      | inr (pick, g') =>
          (Ps <- portfolios universe asset k n' g' ;;
           inr ((pick ++ [asset]) :: Ps))%result
      end
  end.

(** The statistic of one trial of [expected_sigma_and_se]. *)
Definition sigma_of (cov : DataFrame F string) (P : list string)
  : result F :=
  (cov_P <- subcov cov P ;; inr (portfolio_sigma cov_P))%result.

(** The statistic of one trial of [expected_mrc]. *)
Definition mrc_of (cov : DataFrame F string) (asset : string)
  (P : list string) : result F :=
  (cov_P <- subcov cov P ;; mrc_for_asset cov_P P asset)%result.

End Trials.

(** The values of a series that are not missing, as reals. *)
Definition present (l : list XR.t) : list R :=
  flat_map (fun x => match x with
                     | Some r => [r]
                     | None => []
                     end) l.

Fixpoint Rinsert (x : R) (l : list R) : list R :=
  match l with
  | [] => [x]
  | y :: l' => if Rle_dec x y then x :: l else y :: Rinsert x l'
  end.

(** The values in ascending order. *)
Definition Rsort (l : list R) : list R := fold_right Rinsert [] l.

(** The [i]-th order statistic, counted from 0. *)
Definition order_stat (xs : list R) (i : nat) : R := nth i (Rsort xs) 0%R.

(** The [q]-quantile by linear interpolation between order statistics:
    with [h = (n - 1) q], the order statistic at the integer part of [h]
    moved towards the next one by the fractional part of [h]. *)
Definition quantile_linear (xs : list R) (q : R) : R :=
  let h := ((INR (length xs) - 1) * q)%R in
  let j := Z.to_nat (Int_part h) in
  let g := (h - IZR (Int_part h))%R in
  (order_stat xs j + g * (order_stat xs (S j) - order_stat xs j))%R.

(** A frame whose rows all have one cell for each column label. *)
Definition rectangular {F L} (df : DataFrame F L) : Prop :=
  Forall (fun r => length r = length (columns df)) (values df).

(** The sum of all the entries of a matrix. *)
Definition total (m : list (list R)) : R :=
  fold_right Rplus 0%R (map (fold_right Rplus 0%R) m).

(** The simple return [(price[t] - price[t-1]) / price[t-1]]. *)
Definition simple_return (p p_prev : R) : R := ((p - p_prev) / p_prev)%R.

(** A matrix equal to its transpose, cell by cell. *)
Definition symmetric {F} (m : list (list F)) : Prop :=
  forall i j, cell m i j = cell m j i.

(** A returns panel as the data model has it: the dates ascend without a
    repeat, every symbol labels one column, the rows are aligned with the
    dates and fill the columns. *)
Definition wf_panel {F} (df : DataFrame F date) : Prop :=
  StronglySorted Z.lt (index df) /\
  NoDup (columns df) /\
  length (index df) = length (values df) /\
  rectangular df.

(** The sum of a list of reals. *)
Definition Rsum (xs : list R) : R := fold_right Rplus 0%R xs.

(** The arithmetic mean [(x_1 + ... + x_n) / n]. *)
Definition sample_mean (xs : list R) : R := (Rsum xs / INR (length xs))%R.

(** The sample standard deviation
    [sqrt (((x_1 - m)^2 + ... + (x_n - m)^2) / (n - 1))], [m] the mean. *)
Definition sample_std (xs : list R) : R :=
  sqrt (Rsum (map (fun x => (x - sample_mean xs) * (x - sample_mean xs))%R xs)
        / (INR (length xs) - 1)).

(** The volatility of the equal-weight portfolio of a [k] by [k]
    covariance matrix: the root of the mean of its [k * k] entries. *)
Definition equal_weight_sigma (m : list (list R)) : R :=
  sqrt (total m / (INR (length m) * INR (length m))).

(** The marginal risk contribution of the [i]-th asset of that portfolio:
    the mean of the [i]-th row over the volatility. *)
Definition equal_weight_mrc (m : list (list R)) (i : nat) : R :=
  (Rsum (nth i m []) / INR (length m) / equal_weight_sigma m)%R.

(** A frame of exact reals, none missing, read in the arithmetic with a
    missing-value marker. *)
Definition exact_frame {L} (df : DataFrame R L) : DataFrame XR.t L :=
  {| index := index df;
     columns := columns df;
     values := map (map Some) (values df) |}.

(** The entries of every sub-matrix add up to a number that is not
    negative: the variance of an equal-weight portfolio, which a positive
    semi-definite matrix never makes negative. *)
Definition nonneg_totals (cov : DataFrame R string) : Prop :=
  forall P m, subcov cov P = inr m -> (0 <= total m)%R.

(** The same with a positive sum for every portfolio that holds a symbol:
    no equal-weight portfolio is riskless. *)
Definition pos_totals (cov : DataFrame R string) : Prop :=
  forall P m, P <> [] -> subcov cov P = inr m -> (0 < total m)%R.

(* ================================================================== *)
(** * Concrete inputs *)

Module Examples.

Open Scope string_scope.

(** A portfolio of one asset whose variance is zero. *)
Definition riskless_cov : list (list B64.t) := [[B64.zero]].

(** Prices [0.0] then [5.0] of one symbol, on days 1 and 2. *)
Definition zero_then_five : DataFrame B64.t date :=
  {| index := [1; 2]%Z;
     columns := ["A"];
     values := [[B64.zero]; [B64.of_Z 5]] |}.

(** Returns [-0.5] then [1.5] of one symbol, on days 1 and 2. *)
Definition loss_then_gain : DataFrame B64.t date :=
  {| index := [1; 2]%Z;
     columns := ["A"];
     values := [[B64.mk (-1) (-1)]; [B64.mk 3 (-1)]] |}.

(** A covariance matrix of two symbols, [[4, 1], [1, 9]]. *)
Definition cov_AB : DataFrame B64.t string :=
  {| index := ["A"; "B"];
     columns := ["A"; "B"];
     values := [[B64.of_Z 4; B64.of_Z 1]; [B64.of_Z 1; B64.of_Z 9]] |}.

(** The same numbers as exact reals. *)
Definition cov_AB_exact : list (list R) := [[4; 1]; [1; 9]]%R.

(** The covariance matrix of the two symbols in exact reals. *)
Definition cov_AB_frame : DataFrame R string :=
  {| index := ["A"; "B"];
     columns := ["A"; "B"];
     values := cov_AB_exact |}.


(** Returns [-1/128] then [1/2] of one symbol, on days 1 and 2. *)
Definition small_loss_then_gain : DataFrame B64.t date :=
  {| index := [1; 2]%Z;
     columns := ["A"];
     values := [[B64.mk (-1) (-7)]; [B64.mk 1 (-1)]] |}.

(** Daily returns of one symbol in percent over five days. *)
Definition five_returns : DataFrame B64.t date :=
  {| index := [1; 2; 3; 4; 5]%Z;
     columns := ["A"];
     values := map (fun p => [B64.div (B64.of_Z p) (B64.of_Z 100)])
                   [-5; -2; 1; 3; 4]%Z |}.

(** Returns [-1/2] then [-1/4] of one symbol, on days 1 and 2. *)
Definition two_losses : DataFrame XR.t date :=
  {| index := [1; 2]%Z;
     columns := ["A"];
     values := [[Some (- (1 / 2))%R]; [Some (- (1 / 4))%R]] |}.

(** A linear congruential generator on 64-bit states; the word it yields
    is the upper half of the new state. *)
Definition lcg_step (s : Z) : Z :=
  ((6364136223846793005 * s + 1442695040888963407) mod 2 ^ 64)%Z.

#[export] Instance lcg : BitGenerator Z := {|
  from_seed := fun seed => (seed mod 2 ^ 64)%Z;
  next_uint64 := fun s => (Z.shiftr (lcg_step s) 32, lcg_step s)
|}.

(** A store in which nothing has been allocated. *)
Definition empty_world : World (G := Z) :=
  {| fresh := 0; gen_at := fun _ => 0%Z |}.

End Examples.

Module MoreExamples.

Open Scope string_scope.

(** Prices of one symbol doubling over three days. *)
Definition doubling : list (list R) := [[1]; [2]; [4]]%R.

(** Prices of two symbols on two days; [B] has no price on day 1. *)
Definition late_listing : DataFrame B64.t date :=
  {| index := [1; 2]%Z;
     columns := ["A"; "B"];
     values := [[B64.of_Z 1; B64.nan]; [B64.of_Z 2; B64.of_Z 3]] |}.

(** The same shape in exact arithmetic. *)
Definition late_listing_exact : DataFrame XR.t date :=
  {| index := [1; 2]%Z;
     columns := ["A"; "B"];
     values := [[Some 1%R; None]; [Some 2%R; Some 3%R]] |}.

End MoreExamples.

(* ================================================================== *)
(** * The code at concrete inputs *)

Section Evaluation.

Import Examples.
Open Scope string_scope.

Example sample_two_of_three :
  fst (sample_portfolio_with_asset ["A"; "B"; "C"] "B" 2 0 empty_world)
  = inr ["A"; "B"].
Proof. vm_compute. reflexivity. Qed.

Example subcov_reorders :
  subcov cov_AB ["B"; "A"]
  = inr [[B64.of_Z 9; B64.of_Z 1]; [B64.of_Z 1; B64.of_Z 4]].
Proof. vm_compute. reflexivity. Qed.

(** [(4 + 1 + 1 + 9) / 4 = 3.75]. *)
Example portfolio_sigma_AB :
  portfolio_sigma (values cov_AB) = B64.sqrt (B64.mk 15 (-2)).
Proof. vm_compute. reflexivity. Qed.

Example negative_seed_refused :
  fst (expected_sigma_and_se ["A"; "B"] cov_AB "A" 2 3 (-1) empty_world)
  = inl ValueError.
Proof. vm_compute. reflexivity. Qed.

(** The 5% quantile of [-5%, -2%, 1%, 3%, 4%] lies a fifth of the way
    from [-5%] to [-2%]: the VaR at 95% is about 4.4%. *)
Example historical_var_five_returns :
  exists v,
    historical_var five_returns ["A"] 1%Z 5%Z
                   (B64.div (B64.of_Z 95) (B64.of_Z 100)) = inr v /\
    SFltb (B64.div (B64.of_Z 43) (B64.of_Z 1000)) v = true /\
    SFltb v (B64.div (B64.of_Z 45) (B64.of_Z 1000)) = true.
Proof. eexists. repeat split; vm_compute; reflexivity. Qed.

End Evaluation.

(* ================================================================== *)
(** * Lists, indexers *)

Lemma Forall2_nth_error_l {A B} (R : A -> B -> Prop) l1 l2 i a :
  Forall2 R l1 l2 -> nth_error l1 i = Some a ->
  exists b, nth_error l2 i = Some b /\ R a b.
Proof.
  intros HF. revert i. induction HF as [|x y l1 l2 Hxy _ IH]; intros [|i] Hn;
    simpl in *; try discriminate.
  - inversion Hn; subst. eauto.
  - eauto.
Qed.

Lemma Forall2_app_both {A B} (R : A -> B -> Prop) l1 l1' l2 l2' :
  Forall2 R l1 l2 -> Forall2 R l1' l2' -> Forall2 R (l1 ++ l1') (l2 ++ l2').
Proof.
  induction 1; simpl; auto.
Qed.

Lemma positions_absent labels key i :
  ~ In key labels -> positions String.eqb labels key i = [].
Proof.
  revert i. induction labels as [|l ls IH]; intros i Hn; simpl; auto.
  destruct (String.eqb_spec l key) as [->|Hne].
  - exfalso. apply Hn. now left.
  - apply IH. intros Hin. apply Hn. now right.
Qed.

Lemma positions_present labels key i :
  In key labels -> positions String.eqb labels key i <> [].
Proof.
  revert i. induction labels as [|l ls IH]; intros i Hin; simpl in *.
  - contradiction.
  - destruct (String.eqb_spec l key) as [->|Hne]; [discriminate|].
    destruct Hin as [->|Hin]; [congruence|]. now apply IH.
Qed.

(** On an axis of unique labels a label resolves to its one position. *)
Lemma positions_unique labels key i p :
  NoDup labels -> nth_error labels p = Some key ->
  positions String.eqb labels key i = [i + p].
Proof.
  revert i p. induction labels as [|l ls IH]; intros i p Hnd Hp.
  - destruct p; discriminate.
  - inversion Hnd as [|? ? Hnotin Hnd']; subst. destruct p as [|p]; simpl in *.
    + inversion Hp; subst. rewrite String.eqb_refl.
      rewrite positions_absent by assumption. f_equal. lia.
    + destruct (String.eqb_spec l key) as [->|Hne].
      * exfalso. apply Hnotin. eapply nth_error_In; eauto.
      * rewrite (IH (S i) p Hnd' Hp). f_equal. lia.
Qed.

Lemma get_indexer_present labels keys :
  NoDup labels -> (forall t, In t keys -> In t labels) ->
  exists idx, get_indexer String.eqb labels keys = inr idx /\
              Forall2 (fun key p => nth_error labels p = Some key) keys idx.
Proof.
  intros Hnd. induction keys as [|k ks IH]; intros Hin; simpl.
  - exists []. split; [reflexivity|constructor].
  - destruct (In_nth_error labels k (Hin k (or_introl eq_refl))) as [p Hp].
    rewrite (positions_unique 0 p Hnd Hp). simpl.
    destruct IH as [idx [Hidx HF]].
    { intros t Ht. apply Hin. now right. }
    rewrite Hidx. simpl. exists (p :: idx). split; [reflexivity|].
    constructor; assumption.
Qed.

Lemma get_indexer_absent labels keys t :
  In t keys -> ~ In t labels ->
  get_indexer String.eqb labels keys = inl KeyError.
Proof.
  induction keys as [|k ks IH]; intros Hin Hnot; simpl in *.
  - contradiction.
  - destruct (positions String.eqb labels k 0) eqn:Hpos; [reflexivity|].
    destruct Hin as [->|Hin].
    + rewrite positions_absent in Hpos by assumption. discriminate.
    + rewrite (IH Hin Hnot). reflexivity.
Qed.

Lemma take_nth_error {X} (items : list X) idx :
  Forall (fun p => p < length items) idx ->
  Forall2 (fun p x => nth_error items p = Some x) idx (take items idx).
Proof.
  induction 1 as [|p idx Hp _ IH]; simpl.
  - constructor.
  - destruct (nth_error items p) eqn:Hn.
    + simpl. constructor; assumption.
    + apply nth_error_None in Hn. lia.
Qed.

Lemma Forall2_length_eq {A B} (R : A -> B -> Prop) l1 l2 :
  Forall2 R l1 l2 -> length l1 = length l2.
Proof.
  induction 1; simpl; congruence.
Qed.

Lemma indexer_in_range {X} (labels : list string) (items : list X) keys idx :
  length items = length labels ->
  Forall2 (fun key p => nth_error labels p = Some key) keys idx ->
  Forall (fun p => p < length items) idx.
Proof.
  intros Hlen. induction 1 as [|k p ks idx Hk _ IH]; constructor; auto.
  rewrite Hlen. apply nth_error_Some. congruence.
Qed.

Lemma rmap_ext {A B} (f g : A -> result B) (xs : list A) :
  (forall x, f x = g x) -> rmap f xs = rmap g xs.
Proof.
  intros Hfg. induction xs as [|x xs IH]; simpl; [reflexivity|].
  now rewrite Hfg, IH.
Qed.

Lemma is_square_true {F} (k : nat) (m : list (list F)) :
  length m = k -> Forall (fun r => length r = k) m -> is_square m = true.
Proof.
  intros Hk Hrows. unfold is_square. apply forallb_forall.
  rewrite Forall_forall in Hrows. intros r Hr.
  apply Nat.eqb_eq. rewrite (Hrows r Hr). symmetry. exact Hk.
Qed.

Lemma is_square_rows {F} (m : list (list F)) :
  is_square m = true -> Forall (fun r => length r = length m) m.
Proof.
  unfold is_square. intros Hsq. apply Forall_forall. intros r Hr.
  apply Nat.eqb_eq. exact (proj1 (forallb_forall _ _) Hsq r Hr).
Qed.

(** On a [k] by [k] matrix [mrc_for_asset] goes on to the lookup. *)
Lemma mrc_for_asset_square {F} `{Arith F} (cov_P : list (list F))
  (tickers : list string) (asset : string) :
  is_square cov_P = true ->
  mrc_for_asset cov_P tickers asset =
  (idx <- list_index tickers asset ;;
   match nth_error
           (map (fun x => f_div x (portfolio_sigma cov_P))
                (matvec cov_P (equal_weights (length cov_P)))) idx with
   | Some v => inr v
   | None => inl IndexError
   end)%result.
Proof.
  intros Hsq. unfold mrc_for_asset. rewrite Hsq. reflexivity.
Qed.

(* ================================================================== *)
(** * The sub-covariance matrix *)

(** C8. [subcov(cov, tickers)] is the square matrix whose cell [(i, j)] is
    the cell of [cov] labelled by the [i]-th and the [j]-th ticker, rows
    and columns in the order of [tickers]; when a ticker is not on the
    index of [cov], the call raises [KeyError]. *)
Theorem subcov_restricts_in_order {F} `{Arith F}
  (cov : DataFrame F string) (tickers : list string) :
  wf_cov cov ->
  ((forall t, In t tickers -> In t (index cov)) ->
   exists m,
     subcov cov tickers = inr m /\
     length m = length tickers /\
     Forall (fun r => length r = length tickers) m /\
     forall i j a b ri ci,
       nth_error tickers i = Some a -> nth_error tickers j = Some b ->
       nth_error (index cov) ri = Some a ->
       nth_error (columns cov) ci = Some b ->
       exists v, cell m i j = Some v /\ cell (values cov) ri ci = Some v) /\
  ((exists t, In t tickers /\ ~ In t (index cov)) ->
   subcov cov tickers = inl KeyError).
Proof.
  intros (Hnd & Hcols & Hlen & Hrows). split.
  - intros Hin. unfold subcov.
    destruct (get_indexer_present tickers Hnd Hin) as [idx [Hidx HF]].
    rewrite Hcols, Hidx. simpl.
    pose proof (take_nth_error (values cov)
                  (indexer_in_range (index cov) (values cov) Hlen HF))
      as Hrowsel.
    assert (Hrowlen : forall r, In r (values cov) ->
              Forall2 (fun p x => nth_error r p = Some x) idx (take r idx)).
    { intros r Hr. apply take_nth_error.
      rewrite Forall_forall in Hrows. specialize (Hrows r Hr).
      apply (@indexer_in_range _ (index cov) r tickers idx);
        [congruence|assumption]. }
    assert (Hsel_in : forall r, In r (take (values cov) idx) ->
              In r (values cov)).
    { intros r Hr. destruct (In_nth_error _ _ Hr) as [n Hn].
      pose proof (Forall2_length_eq Hrowsel) as Hl.
      assert (Hex : exists p, nth_error idx n = Some p).
      { destruct (nth_error idx n) eqn:E; eauto.
        apply nth_error_None in E.
        assert (n < length (take (values cov) idx))
          by (apply nth_error_Some; congruence). lia. }
      destruct Hex as [p Hp].
      destruct (Forall2_nth_error_l _ Hrowsel Hp) as [r' [Hr' Hv]].
      rewrite Hn in Hr'. inversion Hr'; subst.
      eapply nth_error_In; eauto. }
    eexists. split; [reflexivity|]. split; [|split].
    + rewrite length_map, <- (Forall2_length_eq Hrowsel).
      symmetry. apply (Forall2_length_eq HF).
    + apply Forall_forall. intros r Hr. apply in_map_iff in Hr.
      destruct Hr as [r0 [<- Hr0]].
      rewrite <- (Forall2_length_eq (Hrowlen r0 (Hsel_in r0 Hr0))).
      symmetry. apply (Forall2_length_eq HF).
    + intros i j a b ri ci Hi Hj Hri Hci.
      destruct (Forall2_nth_error_l _ HF Hi) as [pi [Hpi Hlab_i]].
      destruct (Forall2_nth_error_l _ HF Hj) as [pj [Hpj Hlab_j]].
      assert (pi = ri) by (eapply (proj1 (NoDup_nth_error (index cov)) Hnd);
        [apply nth_error_Some; congruence|congruence]).
      assert (pj = ci) by (eapply (proj1 (NoDup_nth_error (index cov)) Hnd);
        [apply nth_error_Some; congruence|congruence]).
      subst pi pj.
      destruct (Forall2_nth_error_l _ Hrowsel Hpi) as [row [Hrow Hrow_src]].
      assert (Hrow_in : In row (values cov)) by (eapply nth_error_In; eauto).
      destruct (Forall2_nth_error_l _ (Hrowlen row Hrow_in) Hpj)
        as [v [Hv Hv_src]].
      exists v. unfold cell. rewrite nth_error_map, Hrow. simpl.
      rewrite Hv, Hrow_src. auto.
  - intros [t [Hin Hnot]]. unfold subcov.
    rewrite (@get_indexer_absent _ _ t Hin Hnot). reflexivity.
Qed.

(* ================================================================== *)
(** * Sampling without replacement *)

Section SamplingFacts.

Context {G : Type} `{BitGenerator G}.

Lemma integers_below (g : G) (n : nat) :
  0 < n -> fst (integers g n) < n.
Proof.
  intros Hn. unfold integers. destruct (next_uint64 g) as [r g']. simpl.
  assert (0 <= r mod Z.of_nat n < Z.of_nat n)%Z by (apply Z.mod_pos_bound; lia).
  lia.
Qed.

Lemma remove_at_perm {A} (l : list A) (i : nat) :
  i < length l ->
  exists x rest, remove_at i l = Some (x, rest) /\ Permutation l (x :: rest).
Proof.
  revert i. induction l as [|y l IH]; intros i Hi; simpl in *; [lia|].
  destruct i as [|i].
  - exists y, l. split; [reflexivity|apply Permutation_refl].
  - destruct (IH i) as [x [rest [Hr Hp]]]; [lia|].
    simpl. rewrite Hr. exists x, (y :: rest). split; [reflexivity|].
    eapply perm_trans; [apply perm_skip, Hp|apply perm_swap].
Qed.

(** [draw] takes [n] items out of the pool: with what it leaves they make
    up the pool again. *)
Lemma draw_perm {A} (n : nat) (pool : list A) (g : G) :
  n <= length pool ->
  length (fst (draw n pool g)) = n /\
  exists rest, Permutation pool (fst (draw n pool g) ++ rest).
Proof.
  revert pool g. induction n as [|n IH]; intros pool g Hn; simpl.
  - split; [reflexivity|]. exists pool. apply Permutation_refl.
  - pose proof (@integers_below g (length pool) ltac:(lia)) as Hlt.
    destruct (integers g (length pool)) as [i g1]. simpl in Hlt.
    destruct (remove_at_perm pool Hlt) as [x [rest [Hr Hp]]].
    rewrite Hr.
    assert (Hlen : n <= length rest).
    { apply Permutation_length in Hp. simpl in Hp. lia. }
    destruct (IH rest g1 Hlen) as [Hl [rest' Hp']].
    destruct (draw n rest g1) as [xs g2]. simpl in *.
    split; [congruence|]. exists rest'.
    eapply perm_trans; [exact Hp|]. now apply perm_skip.
Qed.

Lemma others_length (universe : list string) (asset : string) :
  NoDup universe -> In asset universe ->
  S (length (filter (fun u => negb (String.eqb u asset)) universe))
  = length universe.
Proof.
  induction 1 as [|u us Hnot Hnd IH]; intros Hin; simpl in *.
  - contradiction.
  - destruct (String.eqb_spec u asset) as [->|Hne]; simpl.
    + f_equal. clear IH Hin Hnd. induction us as [|v vs IHv]; simpl; auto.
      destruct (String.eqb_spec v asset) as [->|Hv]; simpl.
      * exfalso. apply Hnot. now left.
      * f_equal. apply IHv. intros Hin. apply Hnot. now right.
    + f_equal. apply IH. destruct Hin as [->|Hin]; [congruence|assumption].
Qed.

Lemma others_spec (universe : list string) (asset x : string) :
  In x (filter (fun u => negb (String.eqb u asset)) universe) <->
  In x universe /\ x <> asset.
Proof.
  rewrite filter_In. split; intros [Hin Hx]; split; auto.
  - intros ->. rewrite String.eqb_refl in Hx. discriminate.
  - destruct (String.eqb_spec x asset); [contradiction|reflexivity].
Qed.

(** C1. For a universe of distinct symbols holding [asset] and a size
    [k] with [1 <= k] and [k - 1 <= |universe| - 1], whatever the state of
    the generator, [sample_portfolio_with_asset] returns [k] distinct
    symbols: [k - 1] of them taken without replacement out of the universe
    less [asset], then [asset] as the last one. *)
Theorem sample_portfolio_with_asset_spec
  (universe : list string) (asset : string) (k : Z) (rng : ref)
  (w : World) :
  NoDup universe -> In asset universe ->
  (1 <= k)%Z -> (k - 1 <= Z.of_nat (length universe) - 1)%Z ->
  exists pick w',
    sample_portfolio_with_asset universe asset k rng w
      = (inr (pick ++ [asset]), w') /\
    Z.of_nat (length (pick ++ [asset])) = k /\
    NoDup (pick ++ [asset]) /\
    In asset (pick ++ [asset]) /\
    Z.of_nat (length pick) = (k - 1)%Z /\
    (forall x, In x pick -> In x universe /\ x <> asset) /\
    exists rest,
      Permutation (filter (fun u => negb (String.eqb u asset)) universe)
                  (pick ++ rest).
Proof.
  intros Hnd Hin Hk1 Hk2.
  set (others := filter (fun u => negb (String.eqb u asset)) universe).
  pose proof (others_length asset Hnd Hin) as Hlen. fold others in Hlen.
  assert (Hsize : Z.to_nat (k - 1) <= length others) by lia.
  destruct (@draw_perm _ (Z.to_nat (k - 1)) others (gen_at w rng) Hsize)
    as [Hl [rest Hp]].
  unfold sample_portfolio_with_asset, bind, Generator_choice, choice.
  fold others.
  assert (Hc1 : Nat.eqb (length others) 0 && negb (k - 1 =? 0)%Z = false).
  { destruct (length others) eqn:E; simpl; auto.
    assert (k - 1 = 0)%Z by lia. rewrite (proj2 (Z.eqb_eq _ _)); auto. }
  rewrite Hc1.
  rewrite (proj2 (Z.ltb_ge _ _)) by lia.
  rewrite (proj2 (Z.ltb_ge _ _)) by lia.
  destruct (draw (Z.to_nat (k - 1)) others (gen_at w rng)) as [pick g'].
  simpl in *.
  assert (Hpick_in : forall x, In x pick -> In x universe /\ x <> asset).
  { intros x Hx. apply others_spec.
    eapply Permutation_in; [apply Permutation_sym, Hp|].
    apply in_or_app. now left. }
  assert (Hnd_pick : NoDup pick).
  { assert (Hnd_o : NoDup others) by (apply NoDup_filter; assumption).
    eapply Permutation_NoDup in Hnd_o; [|exact Hp].
    eapply NoDup_app_remove_r; eauto. }
  eexists pick, _. split; [reflexivity|].
  split; [rewrite length_app; simpl; lia|].
  split.
  { apply NoDup_app; [assumption|repeat constructor; auto|].
    intros x Hx [Heq|[]]. destruct (Hpick_in x Hx); congruence. }
  split; [apply in_or_app; right; now left|].
  split; [lia|].
  split; [assumption|].
  exists rest. assumption.
Qed.

(** C5. When [k - 1] exceeds the number of symbols of the universe other
    than [asset], [sample_portfolio_with_asset] raises (numpy's
    [ValueError]: the sample is larger than the population) and returns no
    portfolio; the generator is left as it was. *)
Theorem sample_portfolio_with_asset_too_small
  (universe : list string) (asset : string) (k : Z) (rng : ref)
  (w : World) :
  (k - 1 > Z.of_nat
             (length (filter (fun u => negb (String.eqb u asset)) universe)))%Z ->
  sample_portfolio_with_asset universe asset k rng w = (inl ValueError, w).
Proof.
  intros Hk.
  unfold sample_portfolio_with_asset, bind, Generator_choice, choice.
  destruct (Nat.eqb _ 0 && negb (k - 1 =? 0)%Z); [reflexivity|].
  rewrite (proj2 (Z.ltb_lt _ _)) by lia. reflexivity.
Qed.

End SamplingFacts.

(* ================================================================== *)
(** * The Monte Carlo estimators *)

Section Estimators.

Context {G : Type} `{BitGenerator G}.
Context {F : Type} `{Arith F}.

Lemma choice_cases {A} (g : G) (a : list A) (size : Z) :
  choice g a size =
  if choice_ok a size then inr (draw (Z.to_nat size) a g) else inl ValueError.
Proof.
  unfold choice, choice_ok.
  destruct (Nat.eqb (length a) 0 && negb (size =? 0)%Z); simpl; auto.
  destruct (Z.of_nat (length a) <? size)%Z; simpl; auto.
  destruct (size <? 0)%Z; reflexivity.
Qed.

(** Whether sampling raises does not depend on the generator. *)
Lemma portfolios_defined universe asset k n (g : G) :
  choice_ok (filter (fun u => negb (String.eqb u asset)) universe) (k - 1)
    = true ->
  exists Ps, portfolios universe asset k n g = inr Ps /\ length Ps = n.
Proof.
  intros Hok. revert g. induction n as [|n IH]; intros g; simpl.
  - exists []. auto.
  - rewrite choice_cases, Hok.
    destruct (draw _ _ g) as [pick g'].
    destruct (IH g') as [Ps [HPs Hlen]]. rewrite HPs. simpl.
    eexists. split; [reflexivity|]. simpl. congruence.
Qed.

Lemma portfolios_raise universe asset k n (g : G) :
  choice_ok (filter (fun u => negb (String.eqb u asset)) universe) (k - 1)
    = false ->
  portfolios universe asset k (S n) g = inl ValueError.
Proof.
  intros Hok. simpl. rewrite choice_cases, Hok. reflexivity.
Qed.

Lemma upd_same (m : ref -> G) r g : upd m r g r = g.
Proof.
  unfold upd. now rewrite Nat.eqb_refl.
Qed.

(** One call of the sampler on the object [rng]: the draw is decided by
    the state of that object, which the call replaces. *)
Lemma sample_run universe asset k rng (w : World) :
  sample_portfolio_with_asset universe asset k rng w =
  match choice (gen_at w rng)
               (filter (fun u => negb (String.eqb u asset)) universe)
               (k - 1) with
  | inl e => (inl e, w)
  | inr (pick, g') =>
      (inr (pick ++ [asset]),
       {| fresh := fresh w; gen_at := upd (gen_at w) rng g' |})
  end.
Proof.
  unfold sample_portfolio_with_asset, bind, Generator_choice.
  destruct (choice _ _ _) as [e|[pick g']]; reflexivity.
Qed.

(** A loop of trials driven by the object [rng] computes the statistic
    [stat] on the portfolios drawn from the state of [rng], in order. *)
Lemma trials_run (stat : list string -> result F)
  (loop : nat -> M vec) universe asset k rng :
  (forall w, loop O w = ret [] w) ->
  (forall n w, loop (S n) w =
     (P <- sample_portfolio_with_asset universe asset k rng ;;
      v <- lift (stat P) ;;
      rest <- loop n ;;
      ret (v :: rest))%world w) ->
  forall n (w : World),
    fst (loop n w) =
    (Ps <- portfolios universe asset k n (gen_at w rng) ;;
     rmap stat Ps)%result.
Proof.
  intros Hl0 HlS. induction n as [|n IH]; intros w.
  - rewrite Hl0. reflexivity.
  - rewrite HlS. unfold bind at 1. rewrite sample_run. simpl portfolios.
    rewrite choice_cases.
    destruct (choice_ok _ (k - 1)) eqn:Hok; [|reflexivity].
    destruct (draw _ _ (gen_at w rng)) as [pick g'] eqn:Hdraw.
    unfold bind at 1, lift.
    destruct (stat (pick ++ [asset])) as [e|v] eqn:Hstat.
    + simpl.
      destruct (portfolios_defined universe asset k n g' Hok) as [Ps [HPs _]].
      rewrite HPs. simpl. rewrite Hstat. reflexivity.
    + unfold bind, ret.
      match goal with
      | |- context [loop n ?w0] =>
          specialize (IH w0); destruct (loop n w0) as [[e|rest] w2]
      end; simpl in IH; rewrite upd_same in IH;
      destruct (portfolios universe asset k n g') as [e'|Ps]; simpl in *.
      * congruence.
      * rewrite Hstat. simpl. rewrite <- IH. reflexivity.
      * congruence.
      * rewrite Hstat. simpl. rewrite <- IH. reflexivity.
Qed.

Lemma sigma_trials_run universe (cov : DataFrame F string) asset k rng n
  (w : World) :
  fst (sigma_trials universe cov asset k rng n w) =
  (Ps <- portfolios universe asset k n (gen_at w rng) ;;
   rmap (sigma_of cov) Ps)%result.
Proof.
  apply (trials_run (sigma_of cov)
           (sigma_trials universe cov asset k rng)); [reflexivity|].
  intros m w0. simpl. unfold bind, lift, sigma_of.
  destruct (sample_portfolio_with_asset universe asset k rng w0)
    as [[e|P] w1]; [reflexivity|].
  destruct (subcov cov P) as [e|cov_P]; reflexivity.
Qed.

Lemma mrc_trials_run universe (cov : DataFrame F string) asset k rng n
  (w : World) :
  fst (mrc_trials universe cov asset k rng n w) =
  (Ps <- portfolios universe asset k n (gen_at w rng) ;;
   rmap (mrc_of cov asset) Ps)%result.
Proof.
  apply (trials_run (mrc_of cov asset)
           (mrc_trials universe cov asset k rng)); [reflexivity|].
  intros m w0. simpl. unfold bind, lift, mrc_of.
  destruct (sample_portfolio_with_asset universe asset k rng w0)
    as [[e|P] w1]; [reflexivity|].
  destruct (subcov cov P) as [e|cov_P]; [reflexivity|]. simpl.
  destruct (mrc_for_asset cov_P P asset) as [e|v]; reflexivity.
Qed.

(** The estimate is a function of the arguments: the generator is
    allocated afresh and seeded, whatever the store holds. *)
Lemma expected_sigma_and_se_run universe (cov : DataFrame F string) asset
  k num_sims seed (w : World) :
  fst (expected_sigma_and_se universe cov asset k num_sims seed w) =
  (g <- seeded seed ;;
   Ps <- portfolios universe asset k num_sims g ;;
   sigmas <- rmap (sigma_of cov) Ps ;;
   inr (mean sigmas,
        f_div (std 1 sigmas) (f_sqrt (f_of_Z (Z.of_nat num_sims)))))%result.
Proof.
  unfold expected_sigma_and_se, bind at 1, default_rng, seeded.
  destruct (seed <? 0)%Z; [reflexivity|]. cbn [rbind]. unfold bind.
  match goal with
  | |- context [sigma_trials _ _ _ _ _ _ ?w0] =>
      pose proof (sigma_trials_run universe cov asset k (fresh w) num_sims w0)
        as Hrun;
      destruct (sigma_trials universe cov asset k (fresh w) num_sims w0)
        as [[e|sigmas] w2]
  end; simpl in Hrun; rewrite upd_same in Hrun;
    destruct (portfolios universe asset k num_sims (from_seed seed))
      as [e'|Ps]; simpl in *;
    try (destruct (rmap (sigma_of cov) Ps) as [e''|ss]; simpl in *);
    congruence.
Qed.

Lemma expected_mrc_run universe (cov : DataFrame F string) asset
  k num_sims seed (w : World) :
  fst (expected_mrc universe cov asset k num_sims seed w) =
  (g <- seeded seed ;;
   Ps <- portfolios universe asset k num_sims g ;;
   vals <- rmap (mrc_of cov asset) Ps ;;
   inr (mean vals))%result.
Proof.
  unfold expected_mrc, bind at 1, default_rng, seeded.
  destruct (seed <? 0)%Z; [reflexivity|]. cbn [rbind]. unfold bind.
  match goal with
  | |- context [mrc_trials _ _ _ _ _ _ ?w0] =>
      pose proof (mrc_trials_run universe cov asset k (fresh w) num_sims w0)
        as Hrun;
      destruct (mrc_trials universe cov asset k (fresh w) num_sims w0)
        as [[e|vals] w2]
  end; simpl in Hrun; rewrite upd_same in Hrun;
    destruct (portfolios universe asset k num_sims (from_seed seed))
      as [e'|Ps]; simpl in *;
    try (destruct (rmap (mrc_of cov asset) Ps) as [e''|vs]; simpl in *);
    congruence.
Qed.

(** C3. Two calls of [expected_sigma_and_se] with the same arguments
    return the same pair (or raise the same exception): the result does
    not depend on the store the call starts from, so the second of two
    calls in a row, which starts from the store the first one left, agrees
    with the first. Every call seeds a generator of its own. *)
Theorem expected_sigma_and_se_deterministic universe
  (cov : DataFrame F string) asset k num_sims seed :
  (forall w w' : World,
     fst (expected_sigma_and_se universe cov asset k num_sims seed w) =
     fst (expected_sigma_and_se universe cov asset k num_sims seed w')) /\
  (forall w : World,
     let first := expected_sigma_and_se universe cov asset k num_sims seed w in
     let second :=
       expected_sigma_and_se universe cov asset k num_sims seed (snd first) in
     fst second = fst first).
Proof.
  split.
  - intros w w'. now rewrite !expected_sigma_and_se_run.
  - intros w first second. subst second first.
    now rewrite !expected_sigma_and_se_run.
Qed.

(** C10. With the same arguments, [expected_sigma_and_se] and
    [expected_mrc] evaluate their statistics on the same portfolios: those
    that successive calls of [sample_portfolio_with_asset] draw from a
    generator newly seeded with [seed], the statistic of the [i]-th trial
    on the [i]-th of them; they raise together when the seed is refused
    or the sampling raises. *)
Theorem estimators_draw_same_portfolios universe
  (cov : DataFrame F string) asset k num_sims seed (w w' : World) :
  fst (expected_sigma_and_se universe cov asset k num_sims seed w) =
    (g <- seeded seed ;;
     Ps <- portfolios universe asset k num_sims g ;;
     sigmas <- rmap (sigma_of cov) Ps ;;
     inr (mean sigmas,
          f_div (std 1 sigmas) (f_sqrt (f_of_Z (Z.of_nat num_sims)))))%result
  /\
  fst (expected_mrc universe cov asset k num_sims seed w') =
    (g <- seeded seed ;;
     Ps <- portfolios universe asset k num_sims g ;;
     vals <- rmap (mrc_of cov asset) Ps ;;
     inr (mean vals))%result.
Proof.
  split; [apply expected_sigma_and_se_run|apply expected_mrc_run].
Qed.

Lemma choice_picks {A} (g g' : G) (a pick : list A) (size : Z) :
  choice g a size = inr (pick, g') ->
  Z.of_nat (length pick) = size /\
  exists rest, Permutation a (pick ++ rest).
Proof.
  rewrite choice_cases. destruct (choice_ok a size) eqn:Hok; [|discriminate].
  unfold choice_ok in Hok.
  apply andb_prop in Hok. destruct Hok as [Hok Hneg].
  apply andb_prop in Hok. destruct Hok as [_ Hbig].
  apply negb_true_iff in Hneg, Hbig.
  apply Z.ltb_ge in Hneg, Hbig.
  intros Heq.
  destruct (@draw_perm _ _ _ (Z.to_nat size) a g ltac:(lia)) as [Hl Hp].
  inversion Heq as [Hd]. rewrite Hd in Hl, Hp. simpl in *.
  split; [lia|assumption].
Qed.

Lemma portfolios_valid universe asset k n (g : G) Ps :
  portfolios universe asset k n g = inr Ps ->
  length Ps = n /\
  Forall (fun P => exists pick,
            P = pick ++ [asset] /\
            Z.of_nat (length pick) = (k - 1)%Z /\
            forall x, In x pick -> In x universe /\ x <> asset) Ps.
Proof.
  revert g Ps. induction n as [|n IH]; intros g Ps; simpl.
  - intros Heq. inversion Heq. split; [reflexivity|constructor].
  - destruct (choice g _ (k - 1)) as [e|[pick g']] eqn:Hc; [discriminate|].
    destruct (portfolios universe asset k n g') as [e|Ps'] eqn:HPs;
      [discriminate|].
    simpl. intros Heq. inversion Heq; subst.
    destruct (IH g' Ps' HPs) as [Hlen HF].
    destruct (choice_picks _ _ _ Hc) as [Hl [rest Hp]].
    split; [simpl; congruence|]. constructor; [|assumption].
    exists pick. split; [reflexivity|]. split; [assumption|].
    intros x Hx. apply others_spec.
    eapply Permutation_in; [apply Permutation_sym, Hp|].
    apply in_or_app. now left.
Qed.

Lemma subcov_defined (cov : DataFrame F string) (P : list string) :
  wf_cov cov -> (forall t, In t P -> In t (index cov)) ->
  exists cov_P, subcov cov P = inr cov_P.
Proof.
  intros (Hnd & Hcols & _) Hin. unfold subcov.
  destruct (get_indexer_present P Hnd Hin) as [idx [Hidx _]].
  rewrite Hcols, Hidx. simpl. eauto.
Qed.

Lemma rmap_defined {A B} (f : A -> result B) (xs : list A) :
  Forall (fun x => exists y, f x = inr y) xs ->
  exists ys, rmap f xs = inr ys /\ Forall2 (fun x y => f x = inr y) xs ys.
Proof.
  induction 1 as [|x xs [y Hy] _ [ys [Hys HF]]]; simpl.
  - exists []. split; [reflexivity|constructor].
  - rewrite Hy, Hys. simpl. exists (y :: ys). split; [reflexivity|].
    constructor; assumption.
Qed.

End Estimators.

(* ================================================================== *)
(** * Risk decomposition, in exact arithmetic *)

Section Decomposition.

Open Scope R_scope.

Ltac rsimp :=
  cbn [f_zero f_one f_add f_sub f_mul f_div f_neg f_sqrt f_of_Z exact_real]
    in *.

Lemma dot_fold (u v : list R) (a : R) :
  fold_left (fun acc p => f_add acc (f_mul (fst p) (snd p))) (combine u v) a
  = a + dot u v.
Proof.
  unfold dot. revert v a.
  induction u as [|x u IH]; intros [|y v] a; simpl; rsimp; try lra.
  rewrite IH, (IH v (0 + x * y)). rsimp. lra.
Qed.

Lemma dot_cons (x y : R) (u v : list R) :
  dot (x :: u) (y :: v) = x * y + dot u v.
Proof.
  unfold dot at 1. simpl. rewrite dot_fold. lra.
Qed.

Lemma dot_nil_l (v : list R) : dot [] v = 0.
Proof. reflexivity. Qed.

Lemma dot_nil_r (u : list R) : dot u [] = 0.
Proof. destruct u; reflexivity. Qed.

Lemma dot_zip_add (a b v : list R) :
  length a = length b ->
  dot (zip_with f_add a b) v = dot a v + dot b v.
Proof.
  revert b v. induction a as [|x a IH]; intros [|y b] v Hl; simpl in *;
    try discriminate.
  - rewrite !dot_nil_l. lra.
  - destruct v as [|z v].
    + rewrite !dot_nil_r. lra.
    + rewrite !dot_cons, IH by congruence. lra.
Qed.

Lemma dot_scale_l (c : R) (r v : list R) :
  dot (map (f_mul c) r) v = c * dot r v.
Proof.
  revert v. induction r as [|x r IH]; intros [|y v]; simpl;
    rewrite ?dot_nil_l, ?dot_nil_r, ?dot_cons, ?IH; simpl; lra.
Qed.

Lemma dot_div_r (s : R) (u v : list R) :
  dot u (map (fun x => f_div x s) v) = dot u v / s.
Proof.
  revert v. induction u as [|x u IH]; intros [|y v]; simpl;
    rewrite ?dot_nil_l, ?dot_nil_r, ?dot_cons, ?IH; simpl; unfold Rdiv; lra.
Qed.

Lemma dot_zeros (n : nat) (v : list R) : dot (repeat f_zero n) v = 0.
Proof.
  revert v. induction n as [|n IH]; intros [|y v]; simpl;
    rewrite ?dot_nil_l, ?dot_nil_r, ?dot_cons, ?IH; simpl; lra.
Qed.

Lemma zip_with_length {A B C} (f : A -> B -> C) (a : list A) (b : list B) :
  length a = length b -> length (zip_with f a b) = length a.
Proof.
  revert b. induction a as [|x a IH]; intros [|y b] Hl; simpl in *;
    try discriminate; auto.
Qed.

(** [(w @ m) @ v = w @ (m @ v)], from any accumulator. *)
Lemma vecmat_fold_dot (n : nat) (m : list (list R)) (w acc v : list R) :
  Forall (fun r => length r = n) m -> length acc = n ->
  dot (fold_left
         (fun acc p => zip_with f_add acc (map (f_mul (fst p)) (snd p)))
         (combine w m) acc) v
  = dot acc v + dot w (matvec m v).
Proof.
  intros Hm. revert w acc. induction Hm as [|r m Hr _ IH]; intros w acc Hacc.
  - destruct w; simpl; rewrite ?dot_nil_r, ?dot_nil_l; lra.
  - destruct w as [|x w]; simpl.
    + rewrite dot_nil_l. lra.
    + rewrite IH.
      * rewrite dot_zip_add by (rewrite length_map; congruence).
        rewrite dot_scale_l, dot_cons. lra.
      * rewrite zip_with_length; rewrite ?length_map; congruence.
Qed.

Lemma vecmat_dot (n : nat) (m : list (list R)) (w v : list R) :
  Forall (fun r => length r = n) m ->
  dot (vecmat w m) v = dot w (matvec m v).
Proof.
  intros Hm. unfold vecmat. destruct m as [|r m].
  - destruct w; simpl; rewrite ?dot_nil_r, ?dot_nil_l; reflexivity.
  - rewrite (vecmat_fold_dot (n := n)); auto.
    + rewrite dot_zeros. lra.
    + rewrite repeat_length. simpl. now inversion Hm.
Qed.

Lemma list_index_app (pre post : list string) (a : string) :
  ~ In a pre -> list_index (pre ++ a :: post) a = inr (length pre).
Proof.
  induction pre as [|b pre IH]; intros Hn; simpl.
  - now rewrite String.eqb_refl.
  - destruct (String.eqb_spec b a) as [->|Hne].
    + exfalso. apply Hn. now left.
    + rewrite IH; [reflexivity|]. intros Hin. apply Hn. now right.
Qed.

(** Looking every ticker up in turn reads the vector off in order. *)
Lemma lookup_each {F} (pre post : list string) (vpre vpost : list F) :
  NoDup (pre ++ post) ->
  length pre = length vpre -> length post = length vpost ->
  rmap (fun a =>
          (idx <- list_index (pre ++ post) a ;;
           match nth_error (vpre ++ vpost) idx with
           | Some v => inr v
           | None => inl IndexError
           end)%result) post
  = inr vpost.
Proof.
  revert pre vpre vpost.
  induction post as [|a post IH]; intros pre vpre [|v vpost] Hnd Hl1 Hl2;
    simpl in Hl2; try discriminate; [reflexivity|].
  cbn [rmap].
  rewrite list_index_app by (apply NoDup_remove_2 in Hnd; intros Hin;
    apply Hnd, in_or_app; now left).
  cbn [rbind]. rewrite Hl1, nth_error_app2, Nat.sub_diag by lia.
  cbn [nth_error rbind].
  specialize (IH (pre ++ [a]) (vpre ++ [v]) vpost).
  rewrite <- !app_assoc in IH. simpl in IH. rewrite IH.
  - reflexivity.
  - assumption.
  - rewrite !length_app. simpl. lia.
  - lia.
Qed.

(** C2. In exact arithmetic, for a [k] by [k] sub-covariance matrix of
    positive equal-weight volatility and a portfolio of [k] distinct
    tickers, the weighted marginal risk contributions of the assets add up
    to the volatility: [sum_i w_i * mrc_for_asset(cov_P, tickers,
    tickers[i]) = portfolio_sigma(cov_P)]. *)
Theorem risk_decomposition (cov_P : list (list R)) (tickers : list string)
  (k : nat) :
  length cov_P = k ->
  Forall (fun r => length r = k) cov_P ->
  length tickers = k ->
  NoDup tickers ->
  0 < portfolio_sigma cov_P ->
  exists mrcs,
    rmap (mrc_for_asset cov_P tickers) tickers = inr mrcs /\
    dot (@equal_weights R _ k) mrcs = portfolio_sigma cov_P.
Proof.
  intros Hk Hrows Htk Hnd Hpos.
  set (w := @equal_weights R _ (length cov_P)).
  set (sigma_p := portfolio_sigma cov_P).
  set (mrc_vec := map (fun x => f_div x sigma_p) (matvec cov_P w)).
  exists mrc_vec. split.
  - rewrite (rmap_ext _ _ tickers
               (fun a => @mrc_for_asset_square R _ cov_P tickers a
                           (is_square_true Hk Hrows))).
    apply (lookup_each [] tickers [] mrc_vec); simpl; auto.
    unfold mrc_vec, matvec. rewrite !length_map.
    transitivity k; [exact Htk|symmetry; exact Hk].
  - rewrite <- Hk. fold w. unfold mrc_vec.
    rewrite dot_div_r, <- (vecmat_dot (n := k)) by assumption.
    unfold sigma_p, portfolio_sigma in *. fold w in Hpos |- *. rsimp.
    set (q := dot (vecmat w cov_P) w) in *.
    assert (Hq : 0 <= q).
    { destruct (Rle_dec 0 q) as [Hq|Hq]; [assumption|].
      rewrite sqrt_neg_0 in Hpos by lra. lra. }
    rewrite <- (sqrt_sqrt q Hq) at 1. field. lra.
Qed.

End Decomposition.

(* ================================================================== *)
(** * Division by a zero volatility *)

Lemma b64_div_zero_not_finite (x y : B64.t) :
  B64.is_zero y = true -> B64.is_finite (B64.div x y) = false.
Proof.
  destruct y; try discriminate. intros _.
  destruct x; reflexivity.
Qed.

Lemma list_index_in (l : list string) (a : string) :
  In a l -> exists i, list_index l a = inr i /\ i < length l.
Proof.
  induction l as [|b l IH]; intros Hin; simpl in *; [contradiction|].
  destruct (String.eqb_spec b a) as [->|Hne].
  - exists 0. split; [reflexivity|lia].
  - destruct IH as [i [Hi Hlt]]; [destruct Hin; congruence|].
    rewrite Hi. exists (S i). split; [reflexivity|lia].
Qed.

Lemma b64_div_zero_cases (x y : B64.t) :
  B64.is_zero y = true ->
  B64.is_finite (B64.div x y) = false /\
  (B64.is_zero x = true \/ B64.isnan x = true -> B64.div x y = B64.nan) /\
  (B64.is_zero x = false -> B64.isnan x = false ->
   B64.is_inf (B64.div x y) = true).
Proof.
  destruct y; try discriminate. intros _.
  destruct x; simpl; repeat split; intros; try reflexivity;
    try discriminate; intuition discriminate.
Qed.

(** C4, as the code has it. [mrc_for_asset] does not guard the division:
    for a [k] by [k] sub-covariance matrix whose equal-weight volatility
    is zero and an asset among the [k] tickers it raises nothing and
    returns the asset's entry of [cov_P @ w] divided by [sigma_p], which is
    not a finite number: NaN when that entry is zero or NaN, an infinity
    otherwise. *)
Theorem mrc_for_asset_zero_sigma_returns (cov_P : list (list B64.t))
  (tickers : list string) (asset : string) (k : nat) :
  length cov_P = k ->
  Forall (fun r => length r = k) cov_P ->
  length tickers = k ->
  In asset tickers ->
  B64.is_zero (portfolio_sigma cov_P) = true ->
  exists idx x v,
    list_index tickers asset = inr idx /\
    nth_error (matvec cov_P (equal_weights k)) idx = Some x /\
    mrc_for_asset cov_P tickers asset = inr v /\
    v = B64.div x (portfolio_sigma cov_P) /\
    B64.is_finite v = false /\
    (B64.is_zero x = true \/ B64.isnan x = true -> v = B64.nan) /\
    (B64.is_zero x = false -> B64.isnan x = false -> B64.is_inf v = true).
Proof.
  intros Hk Hrows Hlen Hin Hzero.
  rewrite (@mrc_for_asset_square _ _ cov_P tickers asset
             (is_square_true Hk Hrows)).
  destruct (list_index_in _ _ Hin) as [i [Hi Hlt]]. rewrite Hi. cbn [rbind].
  rewrite Hk. set (w := equal_weights k).
  rewrite nth_error_map.
  destruct (nth_error (matvec cov_P w) i) as [x|] eqn:Hx.
  - cbn [option_map].
    destruct (b64_div_zero_cases x _ Hzero) as (Hfin & Hnan & Hinf).
    exists i, x, (B64.div x (portfolio_sigma cov_P)).
    repeat split; auto.
  - apply nth_error_None in Hx. unfold matvec in Hx.
    rewrite length_map in Hx. exfalso. apply (Nat.lt_irrefl i).
    eapply Nat.lt_le_trans; [exact Hlt|]. rewrite Hlen, <- Hk. exact Hx.
Qed.

(** C4, counterexample. A one-asset portfolio of zero variance: the
    volatility is [0.0] and [mrc_for_asset] returns NaN. *)
Lemma mrc_for_asset_zero_sigma_nan :
  portfolio_sigma Examples.riskless_cov = B64.zero /\
  mrc_for_asset Examples.riskless_cov ["A"%string] "A"%string = inr B64.nan.
Proof.
  split; vm_compute; reflexivity.
Qed.

(* ================================================================== *)
(** * Returns after a zero price *)

Lemma nth_error_zip_with {A B C} (f : A -> B -> C) (a : list A)
  (b : list B) (i : nat) :
  nth_error (zip_with f a b) i =
  match nth_error a i, nth_error b i with
  | Some x, Some y => Some (f x y)
  | _, _ => None
  end.
Proof.
  revert b i. induction a as [|x a IH]; intros [|y b] [|i]; simpl; auto.
  - destruct (nth_error a i); reflexivity.
Qed.

Lemma nth_error_removelast {A} (l : list A) (t : nat) :
  S t < length l -> nth_error (removelast l) t = nth_error l t.
Proof.
  revert t. induction l as [|x l IH]; intros t Hlt; simpl in *; [lia|].
  destruct l as [|y l]; simpl in *; [lia|].
  destruct t as [|t]; [reflexivity|]. simpl. apply IH. lia.
Qed.

Lemma combine_map_fst_snd {A B} (l : list (A * B)) :
  combine (map fst l) (map snd l) = l.
Proof.
  induction l as [|[a b] l IH]; simpl; congruence.
Qed.

Lemma nth_error_combine_in {A B} (la : list A) (lb : list B) i a b :
  nth_error la i = Some a -> nth_error lb i = Some b ->
  In (a, b) (combine la lb).
Proof.
  revert lb i. induction la as [|x la IH]; intros [|y lb] [|i] Ha Hb;
    simpl in *; try discriminate.
  - left. congruence.
  - right. eauto.
Qed.

Section Fill.

Context {F : Type} {SF : Scalar F}.

Lemma ffill_from_keeps (n : nat) (rows : list (list F)) (prev : list F)
  (t j : nat) (x : F) :
  length prev = n -> Forall (fun r => length r = n) rows ->
  cell rows t j = Some x -> f_isnan x = false ->
  cell (ffill_from prev rows) t j = Some x.
Proof.
  intros Hprev Hrows. revert prev t Hprev.
  induction Hrows as [|r rows Hr _ IH]; intros prev t Hprev Hc Hx.
  - destruct t; discriminate.
  - assert (Hlen : length (zip_with (fun p y => if f_isnan y then p else y)
                                    prev r) = n).
    { clear -Hprev Hr. revert r n Hprev Hr.
      induction prev as [|p prev IHp]; intros [|y r] n Hp Hrn; simpl in *;
        try congruence.
      destruct n; [discriminate|]. f_equal. apply IHp; congruence. }
    destruct t as [|t]; unfold cell in *; simpl in *.
    + rewrite nth_error_zip_with, Hc.
      destruct (nth_error prev j) eqn:Hp.
      * now rewrite Hx.
      * apply nth_error_None in Hp.
        assert (j < length r) by (apply nth_error_Some; congruence). lia.
    + apply IH; assumption.
Qed.

Lemma ffill_keeps (n : nat) (rows : list (list F)) (t j : nat) (x : F) :
  Forall (fun r => length r = n) rows ->
  cell rows t j = Some x -> f_isnan x = false ->
  cell (ffill rows) t j = Some x.
Proof.
  intros Hrows Hc Hx. destruct rows as [|r rows]; [assumption|].
  inversion Hrows; subst. destruct t as [|t]; [assumption|].
  unfold cell in *. simpl in *.
  now apply (ffill_from_keeps (n := length r)).
Qed.

(** The cell of [pct_change] below a pair of present prices. *)
Lemma pct_change_cell (fill : fill_method) (prices : DataFrame F date)
  (t j : nat) (p0 p1 : F) :
  Forall (fun r => length r = length (columns prices)) (values prices) ->
  cell (values prices) t j = Some p0 -> f_isnan p0 = false ->
  cell (values prices) (S t) j = Some p1 -> f_isnan p1 = false ->
  cell (values (pct_change fill prices)) (S t) j
  = Some (f_sub (f_div p1 p0) f_one).
Proof.
  intros Hrect H0 Hn0 H1 Hn1. unfold pct_change. simpl.
  set (data := match fill with
               | Pad => ffill (values prices)
               | NoFill => values prices
               end).
  assert (Hd0 : cell data t j = Some p0).
  { destruct fill; [eapply ffill_keeps; eauto|assumption]. }
  assert (Hd1 : cell data (S t) j = Some p1).
  { destruct fill; [eapply ffill_keeps; eauto|assumption]. }
  assert (Hlt : S t < length data).
  { apply nth_error_Some. unfold cell in Hd1.
    destruct (nth_error data (S t)); congruence. }
  unfold cell in *. rewrite nth_error_zip_with.
  destruct (nth_error data (S t)) as [r1|] eqn:Hr1; [|discriminate].
  assert (Hsh : nth_error (shift1 data) (S t) = nth_error data t).
  { destruct data as [|r data]; [simpl in Hlt; lia|].
    unfold shift1. cbn [nth_error]. now apply nth_error_removelast. }
  rewrite Hsh.
  destruct (nth_error data t) as [r0|]; [|discriminate].
  now rewrite nth_error_zip_with, Hd1, Hd0.
Qed.

End Fill.

Lemma b64_one_finite : B64.one = S754_finite false 4503599627370496 (-52).
Proof. vm_compute. reflexivity. Qed.

(** C6, as the code has it. Below a zero price, the return of a finite
    non-zero price is an infinity, which [dropna] does not take for a
    missing value: the row stays unless another of its cells is missing.
    Only when the price itself is zero too is the return missing (NaN),
    and the row dropped. *)
Theorem returns_after_zero_price (fill : fill_method)
  (prices : DataFrame B64.t date) (t j : nat) (p0 p1 : B64.t) (d : date) :
  Forall (fun r => length r = length (columns prices)) (values prices) ->
  cell (values prices) t j = Some p0 -> B64.is_zero p0 = true ->
  cell (values prices) (S t) j = Some p1 ->
  nth_error (index prices) (S t) = Some d ->
  let pct := pct_change fill prices in
  let out := returns_from_prices fill prices in
  (B64.is_finite p1 = true -> B64.is_zero p1 = false ->
   exists row,
     nth_error (values pct) (S t) = Some row /\
     (exists s, nth_error row j = Some (S754_infinity s)) /\
     (existsb B64.isnan row = false ->
      In (d, row) (combine (index out) (values out)))) /\
  (B64.is_zero p1 = true ->
   exists row,
     nth_error (values pct) (S t) = Some row /\
     nth_error row j = Some B64.nan /\
     ~ In (d, row) (combine (index out) (values out))).
Proof.
  intros Hrect H0 Hz0 H1 Hd pct out.
  assert (Hn0 : f_isnan p0 = false) by (destruct p0; auto; discriminate).
  assert (Hout : forall row,
            In (d, row) (combine (index out) (values out)) <->
            In (d, row) (combine (index pct) (values pct)) /\
            existsb B64.isnan row = false).
  { intros row. unfold out, returns_from_prices, dropna. simpl.
    rewrite combine_map_fst_snd, filter_In. simpl.
    rewrite negb_true_iff. reflexivity. }
  split.
  - intros Hfin Hnz.
    assert (Hn1 : f_isnan p1 = false) by (destruct p1; auto; discriminate).
    pose proof (pct_change_cell fill prices t j Hrect H0 Hn0 H1 Hn1) as Hc.
    fold pct in Hc. unfold cell in Hc.
    destruct (nth_error (values pct) (S t)) as [row|] eqn:Hrow;
      [|discriminate].
    exists row. split; [reflexivity|]. split.
    + rewrite Hc. simpl. rewrite b64_one_finite.
      destruct p0; try discriminate. destruct p1; try discriminate.
      simpl. eauto.
    + intros Hnan. apply Hout. split; [|assumption].
      eapply nth_error_combine_in; eauto.
  - intros Hz1.
    assert (Hn1 : f_isnan p1 = false) by (destruct p1; auto; discriminate).
    pose proof (pct_change_cell fill prices t j Hrect H0 Hn0 H1 Hn1) as Hc.
    fold pct in Hc. unfold cell in Hc.
    destruct (nth_error (values pct) (S t)) as [row|] eqn:Hrow;
      [|discriminate].
    assert (Hcell : nth_error row j = Some B64.nan).
    { rewrite Hc. destruct p0; try discriminate. destruct p1; try discriminate.
      reflexivity. }
    exists row. split; [reflexivity|]. split; [assumption|].
    intros Hin. apply Hout in Hin. destruct Hin as [_ Hnan].
    assert (Hex : existsb B64.isnan row = true).
    { apply existsb_exists. exists B64.nan. split; [|reflexivity].
      eapply nth_error_In; eauto. }
    congruence.
Qed.

(** C6, counterexample. A price of [5.0] after a price of [0.0]: the
    return is [+inf], not a missing value, and its row is in the returns
    panel, under either default of [fill_method]. *)
Lemma returns_after_zero_price_infinite :
  returns_from_prices NoFill Examples.zero_then_five
    = {| index := [2%Z]; columns := ["A"%string]; values := [[B64.pinf]] |} /\
  returns_from_prices Pad Examples.zero_then_five
    = {| index := [2%Z]; columns := ["A"%string]; values := [[B64.pinf]] |} /\
  B64.isnan B64.pinf = false.
Proof.
  repeat split; vm_compute; reflexivity.
Qed.

(* ================================================================== *)
(** * Historical VaR, in exact arithmetic *)

Section Quantile.

Open Scope R_scope.

Ltac xsimp :=
  cbn [f_zero f_one f_add f_sub f_mul f_div f_neg f_sqrt f_of_Z f_nan
       f_isnan f_leb f_ltb f_floor scalar_arith xreal xreal_arith
       XR.lift2 XR.leb XR.ltb XR.floor XR.isnan option_map] in *.

Lemma filter_present (l : list XR.t) :
  filter (fun x => negb (f_isnan x)) l = map Some (present l).
Proof.
  induction l as [|[r|] l IH]; simpl.
  - reflexivity.
  - f_equal. exact IH.
  - exact IH.
Qed.

Lemma insert_sorted_lift (x : R) (l : list R) :
  insert_sorted (Some x) (map Some l) = map Some (Rinsert x l).
Proof.
  induction l as [|y l IH]; simpl; [reflexivity|]. xsimp.
  destruct (Rle_dec x y); simpl; congruence.
Qed.

Lemma sort_lift (l : list R) : sort (map Some l) = map Some (Rsort l).
Proof.
  unfold sort, Rsort. induction l as [|x l IH]; simpl; [reflexivity|].
  rewrite IH. apply insert_sorted_lift.
Qed.

Lemma Rinsert_length (x : R) (l : list R) :
  length (Rinsert x l) = S (length l).
Proof.
  induction l as [|y l IH]; simpl; [reflexivity|].
  destruct (Rle_dec x y); simpl; congruence.
Qed.

Lemma Rsort_length (l : list R) : length (Rsort l) = length l.
Proof.
  unfold Rsort. induction l as [|x l IH]; simpl; [reflexivity|].
  rewrite Rinsert_length. congruence.
Qed.

Lemma nth_map_some (l : list R) (i : nat) :
  (i < length l)%nat -> nth i (map Some l) None = Some (nth i l 0).
Proof.
  revert i. induction l as [|x l IH]; intros [|i] Hi; simpl in *;
    try lia; auto. apply IH. lia.
Qed.

(** The two branches of numpy's [_lerp] are one formula. *)
Lemma lerp_exact (a b g : R) :
  lerp (Some a) (Some b) (Some g) = Some (a + g * (b - a)).
Proof.
  unfold lerp. xsimp. unfold XR.div.
  destruct (Req_dec_T (IZR 2) 0) as [H2|_]; [lra|]. xsimp.
  destruct (Rle_dec (1 / IZR 2) g); f_equal; lra.
Qed.

Lemma Int_part_nonneg (h : R) : 0 <= h -> (0 <= Int_part h)%Z.
Proof.
  intros Hh. destruct (base_Int_part h) as [_ Hlo].
  assert (IZR (-1) < IZR (Int_part h)) by (simpl; lra).
  apply lt_IZR in H. lia.
Qed.

Lemma Int_part_below (h : R) (m : Z) : h < IZR m -> (Int_part h < m)%Z.
Proof.
  intros Hh. destruct (base_Int_part h) as [Hup _].
  apply lt_IZR. lra.
Qed.

Lemma Int_part_IZR (m : Z) : Int_part (IZR m) = m.
Proof.
  destruct (base_Int_part (IZR m)) as [Hup Hlo].
  apply le_IZR in Hup.
  assert (IZR (m - 1) < IZR (Int_part (IZR m))) by (rewrite minus_IZR; lra).
  apply lt_IZR in H. lia.
Qed.

Lemma Rinsert_perm (x : R) (l : list R) : Permutation (x :: l) (Rinsert x l).
Proof.
  induction l as [|y l IH]; simpl; [apply Permutation_refl|].
  destruct (Rle_dec x y); [apply Permutation_refl|].
  eapply perm_trans; [apply perm_swap|]. now apply perm_skip.
Qed.

(** [Rsort] rearranges the values, *)
Lemma Rsort_perm (l : list R) : Permutation l (Rsort l).
Proof.
  unfold Rsort. induction l as [|x l IH]; simpl; [constructor|].
  eapply perm_trans; [apply perm_skip, IH|apply Rinsert_perm].
Qed.

Lemma Rinsert_sorted (x : R) (l : list R) :
  Sorted Rle l -> Sorted Rle (Rinsert x l).
Proof.
  induction 1 as [|y l Hs IH Hhd]; simpl.
  - repeat constructor.
  - destruct (Rle_dec x y) as [Hle|Hgt].
    + constructor; [constructor; assumption|]. now constructor.
    + constructor; [assumption|].
      destruct l as [|z l]; simpl in *.
      * constructor. lra.
      * destruct (Rle_dec x z); constructor; try lra.
        now inversion Hhd.
Qed.

(** into ascending order. *)
Lemma Rsort_sorted (l : list R) : Sorted Rle (Rsort l).
Proof.
  unfold Rsort. induction l as [|x l IH]; simpl; [constructor|].
  now apply Rinsert_sorted.
Qed.


(** numpy's quantile of the sorted values is the quantile by linear
    interpolation between order statistics. *)
Lemma quantile_sorted_exact (xs : list R) (q : R) :
  xs <> [] -> 0 <= q <= 1 ->
  quantile_sorted (map Some (Rsort xs)) (Some q)
  = Some (quantile_linear xs q).
Proof.
  intros Hne [Hq0 Hq1].
  unfold quantile_sorted, quantile_linear, order_stat.
  rewrite length_map, Rsort_length.
  set (n := length xs).
  assert (Hn : (1 <= n)%nat) by (subst n; destruct xs; simpl; [congruence|lia]).
  assert (HnR : INR n - 1 = IZR (Z.of_nat n - 1))
    by (rewrite minus_IZR, <- INR_IZR_INZ; reflexivity).
  rewrite HnR.
  set (m := (Z.of_nat n - 1)%Z) in *.
  assert (Hm : 0 <= IZR m) by (apply IZR_le; lia).
  xsimp.
  set (h := IZR m * q).
  assert (Hh0 : 0 <= h) by (apply Rmult_le_pos; assumption).
  assert (Hh1 : h <= IZR m).
  { unfold h. rewrite <- (Rmult_1_r (IZR m)) at 2.
    apply Rmult_le_compat_l; assumption. }
  destruct (Rle_dec (IZR m) h) as [Habove|Hbelow].
  - assert (Hh : h = IZR m) by lra.
    unfold py_nth. cbn [Z.ltb Z.compare]. rewrite length_map, Rsort_length.
    fold n. replace (Z.to_nat (Z.of_nat n + -1)) with (n - 1)%nat by lia.
    rewrite nth_map_some by (rewrite Rsort_length; fold n; lia).
    xsimp. rewrite lerp_exact. f_equal.
    rewrite Hh, Int_part_IZR.
    replace (Z.to_nat m) with (n - 1)%nat by lia. lra.
  - apply Rnot_le_lt in Hbelow.
    destruct (Rlt_dec h 0) as [Hneg|_]; [lra|].
    pose proof (Int_part_nonneg Hh0) as Hj0.
    pose proof (@Int_part_below h m Hbelow) as Hj1.
    set (jz := Int_part h) in *.
    unfold py_nth.
    rewrite (proj2 (Z.ltb_ge jz 0)) by lia.
    rewrite (proj2 (Z.ltb_ge (jz + 1) 0)) by lia.
    rewrite !nth_map_some by (rewrite Rsort_length; fold n; lia).
    xsimp. rewrite lerp_exact.
    replace (Z.to_nat (jz + 1)) with (S (Z.to_nat jz)) by lia.
    reflexivity.
Qed.

Lemma nanquantile_exact (rp : list XR.t) (q : R) :
  0 <= q <= 1 -> present rp <> [] ->
  nanquantile rp (Some q) = inr (Some (quantile_linear (present rp) q)).
Proof.
  intros [Hq0 Hq1] Hne. unfold nanquantile. xsimp.
  destruct (Rle_dec 0 q) as [_|Hbad]; [|lra].
  destruct (Rle_dec q 1) as [_|Hbad]; [|lra].
  cbn [andb negb]. rewrite filter_present.
  revert Hne. generalize (present rp). intros xs Hne.
  destruct xs as [|x xs]; [congruence|].
  change (map Some (x :: xs)) with (Some x :: map Some xs).
  cbv iota. change (Some x :: map Some xs) with (map Some (x :: xs)).
  rewrite sort_lift, quantile_sorted_exact by (auto; lra).
  reflexivity.
Qed.


Lemma get_indexer_defined (labels keys : list string) :
  (forall t, In t keys -> In t labels) ->
  exists idx, get_indexer String.eqb labels keys = inr idx.
Proof.
  induction keys as [|k ks IH]; intros Hin; simpl.
  - eauto.
  - pose proof (positions_present labels k 0 (Hin k (or_introl eq_refl)))
      as Hpos.
    destruct (positions String.eqb labels k 0) as [|p ps]; [congruence|].
    destruct IH as [idx Hidx]; [intros t Ht; apply Hin; now right|].
    rewrite Hidx. simpl. eauto.
Qed.


End Quantile.


(** C7, the sign of the result. Returns [-0.5] and [1.5] at confidence
    [0.5]: the median is [0.5], the series has the negative return [-0.5]
    below it, and [historical_var] is [-0.5], a negative number, where the
    docstring of the function calls the result a positive number. The
    same happens at the default confidence [0.95] for the returns
    [-1/128] and [1/2]. *)
Lemma historical_var_negative :
  portfolio_returns Examples.loss_then_gain ["A"%string] 1%Z 2%Z
    = inr [(1%Z, B64.mk (-1) (-1)); (2%Z, B64.mk 3 (-1))] /\
  nanquantile [B64.mk (-1) (-1); B64.mk 3 (-1)] (f_sub f_one (B64.mk 1 (-1)))
    = inr (B64.mk 1 (-1)) /\
  SFltb (B64.mk (-1) (-1)) B64.zero = true /\
  SFleb (B64.mk (-1) (-1)) (B64.mk 1 (-1)) = true /\
  historical_var Examples.loss_then_gain ["A"%string] 1%Z 2%Z (B64.mk 1 (-1))
    = inr (B64.mk (-1) (-1)) /\
  exists v,
    historical_var Examples.small_loss_then_gain ["A"%string] 1%Z 2%Z
      (B64.div (B64.of_Z 95) (B64.of_Z 100)) = inr v /\
    SFltb v B64.zero = true.
Proof.
  repeat split; try (vm_compute; reflexivity).
  eexists. split; vm_compute; reflexivity.
Qed.

(* ================================================================== *)
(** * The statements at concrete inputs *)

Section Witnesses.

Import Examples.
Open Scope string_scope.

Lemma NoDup_ABC : NoDup ["A"; "B"; "C"].
Proof.
  repeat constructor; simpl; intuition discriminate.
Defined.

Lemma NoDup_AB : NoDup ["A"; "B"].
Proof.
  repeat constructor; simpl; intuition discriminate.
Defined.

Lemma NoDup_A : NoDup ["A"].
Proof.
  repeat constructor; simpl; intuition discriminate.
Defined.

Lemma wf_cov_AB : wf_cov cov_AB.
Proof.
  repeat split; simpl; try exact NoDup_AB; repeat constructor.
Defined.

(** C1 at a concrete input. *)
Lemma sample_portfolio_with_asset_spec_witness :
  NoDup ["A"; "B"; "C"] /\ In "B" ["A"; "B"; "C"] /\
  (1 <= 2)%Z /\ (2 - 1 <= Z.of_nat (length ["A"; "B"; "C"]) - 1)%Z /\
  exists pick w',
    sample_portfolio_with_asset ["A"; "B"; "C"] "B" 2 0 empty_world
      = (inr (pick ++ ["B"])%list, w') /\
    Z.of_nat (length (pick ++ ["B"])%list) = 2%Z /\
    NoDup (pick ++ ["B"])%list.
Proof.
  assert (Hin : In "B" ["A"; "B"; "C"]) by (simpl; auto).
  assert (Hk1 : (1 <= 2)%Z) by lia.
  assert (Hk2 : (2 - 1 <= Z.of_nat (length ["A"; "B"; "C"]) - 1)%Z)
    by (simpl; lia).
  repeat (split; [assumption || exact NoDup_ABC|]).
  destruct (@sample_portfolio_with_asset_spec Z lcg ["A"; "B"; "C"] "B" 2 0
              empty_world NoDup_ABC Hin Hk1 Hk2)
    as (pick & w' & Hrun & Hlen & Hnd & _).
  exists pick, w'. auto.
Defined.

(** C5 at a concrete input. *)
Lemma sample_portfolio_with_asset_too_small_witness :
  (5 - 1 > Z.of_nat
             (length (filter (fun u => negb (String.eqb u "A")) ["A"; "B"])))%Z
  /\ sample_portfolio_with_asset ["A"; "B"] "A" 5 0 empty_world
     = (inl ValueError, empty_world).
Proof.
  assert (Hk : (5 - 1 > Z.of_nat
             (length (filter (fun u => negb (String.eqb u "A")) ["A"; "B"])))%Z)
    by (simpl; lia).
  split; [exact Hk|].
  exact (@sample_portfolio_with_asset_too_small Z lcg ["A"; "B"] "A" 5 0
           empty_world Hk).
Defined.

(** C8 at a concrete input. *)
Lemma subcov_restricts_in_order_witness :
  wf_cov cov_AB /\
  (exists m, subcov cov_AB ["B"; "A"] = inr m /\ length m = 2) /\
  subcov cov_AB ["B"; "Z"] = inl KeyError.
Proof.
  split; [exact wf_cov_AB|].
  destruct (subcov_restricts_in_order (F := B64.t) ["B"; "A"] wf_cov_AB)
    as [Hok _].
  destruct (subcov_restricts_in_order (F := B64.t) ["B"; "Z"] wf_cov_AB)
    as [_ Hfail].
  split.
  - destruct Hok as (m & Hm & Hlen & _).
    + simpl. intuition.
    + exists m. auto.
  - apply Hfail. exists "Z". simpl. split; [auto|].
    intuition discriminate.
Defined.

(** C4 at a concrete input. *)
Lemma mrc_for_asset_zero_sigma_returns_witness :
  length riskless_cov = 1 /\
  Forall (fun r => length r = 1) riskless_cov /\
  length ["A"] = 1 /\ In "A" ["A"] /\
  B64.is_zero (portfolio_sigma riskless_cov) = true /\
  mrc_for_asset riskless_cov ["A"] "A" = inr B64.nan.
Proof.
  assert (Hk : length riskless_cov = 1) by reflexivity.
  assert (Hrows : Forall (fun r => length r = 1) riskless_cov)
    by (repeat constructor).
  assert (Hlen : length ["A"] = 1) by reflexivity.
  assert (Hin : In "A" ["A"]) by (simpl; auto).
  assert (Hz : B64.is_zero (portfolio_sigma riskless_cov) = true)
    by (vm_compute; reflexivity).
  repeat (split; [assumption|]).
  destruct (@mrc_for_asset_zero_sigma_returns riskless_cov ["A"] "A" 1
              Hk Hrows Hlen Hin Hz)
    as (idx & x & v & Hidx & Hx & Hv & _ & _ & Hnan & _).
  rewrite Hv. f_equal. apply Hnan. left.
  vm_compute in Hidx. injection Hidx as <-.
  vm_compute in Hx. injection Hx as <-. reflexivity.
Defined.

(** C6 at a concrete input. *)
Lemma returns_after_zero_price_witness :
  Forall (fun r => length r = length (columns zero_then_five))
         (values zero_then_five) /\
  cell (values zero_then_five) 0 0 = Some B64.zero /\
  B64.is_zero B64.zero = true /\
  cell (values zero_then_five) 1 0 = Some (B64.of_Z 5) /\
  nth_error (index zero_then_five) 1 = Some 2%Z /\
  exists row,
    nth_error (values (pct_change NoFill zero_then_five)) 1 = Some row /\
    (exists s, nth_error row 0 = Some (S754_infinity s)) /\
    (existsb B64.isnan row = false ->
     In (2%Z, row)
        (combine (index (returns_from_prices NoFill zero_then_five))
                 (values (returns_from_prices NoFill zero_then_five)))).
Proof.
  assert (Hrect : Forall (fun r => length r = length (columns zero_then_five))
                         (values zero_then_five)) by (repeat constructor).
  assert (H0 : cell (values zero_then_five) 0 0 = Some B64.zero)
    by reflexivity.
  assert (Hz : B64.is_zero B64.zero = true) by reflexivity.
  assert (H1 : cell (values zero_then_five) 1 0 = Some (B64.of_Z 5))
    by reflexivity.
  assert (Hd : nth_error (index zero_then_five) 1 = Some 2%Z) by reflexivity.
  repeat (split; [assumption|]).
  destruct (returns_after_zero_price NoFill zero_then_five 0 0 Hrect H0 Hz H1
              Hd) as [Hinf _].
  apply Hinf; vm_compute; reflexivity.
Defined.

(** C2 at a concrete input. *)
Lemma risk_decomposition_witness :
  length cov_AB_exact = 2 /\
  Forall (fun r => length r = 2) cov_AB_exact /\
  length ["A"; "B"] = 2 /\ NoDup ["A"; "B"] /\
  (0 < portfolio_sigma cov_AB_exact)%R /\
  exists mrcs,
    rmap (mrc_for_asset cov_AB_exact ["A"; "B"]) ["A"; "B"] = inr mrcs /\
    dot (@equal_weights R _ 2) mrcs = portfolio_sigma cov_AB_exact.
Proof.
  assert (Hk : length cov_AB_exact = 2) by reflexivity.
  assert (Hrows : Forall (fun r => length r = 2) cov_AB_exact)
    by (repeat constructor).
  assert (Htk : length ["A"; "B"] = 2) by reflexivity.
  assert (Hpos : (0 < portfolio_sigma cov_AB_exact)%R).
  { unfold portfolio_sigma. cbn [f_sqrt exact_real]. apply sqrt_lt_R0.
    unfold dot, vecmat, equal_weights. simpl.
    cbn [f_zero f_one f_add f_mul f_div f_of_Z exact_real]. lra. }
  repeat (split; [assumption || exact NoDup_AB|]).
  exact (@risk_decomposition cov_AB_exact ["A"; "B"] 2 Hk Hrows Htk NoDup_AB
           Hpos).
Defined.

Lemma wf_panel_two_losses : wf_panel two_losses.
Proof.
  repeat split; simpl.
  - repeat constructor.
  - exact NoDup_A.
  - repeat constructor.
Defined.


End Witnesses.

(* ================================================================== *)
(** * Further properties: the returns panel *)

(** Whatever the prices, no row of the returns panel holds a missing
    value, its dates are dates of the price panel, its index and its rows
    stay aligned and its columns are those of the prices. *)
Theorem returns_from_prices_invariants {F} {SF : Scalar F}
  (fill : fill_method) (prices : DataFrame F date) :
  Forall (fun row => existsb f_isnan row = false)
         (values (returns_from_prices fill prices)) /\
  length (index (returns_from_prices fill prices))
    = length (values (returns_from_prices fill prices)) /\
  columns (returns_from_prices fill prices) = columns prices /\
  incl (index (returns_from_prices fill prices)) (index prices).
Proof.
  unfold returns_from_prices, dropna. cbn [index columns values].
  repeat split.
  - apply Forall_forall. intros row Hin.
    apply in_map_iff in Hin. destruct Hin as [[d r] [<- Hin]].
    apply filter_In in Hin. destruct Hin as [_ Hnan]. simpl in *.
    now apply negb_true_iff in Hnan.
  - now rewrite !length_map.
  - intros d Hin. apply in_map_iff in Hin. destruct Hin as [[d' r] [<- Hin]].
    apply filter_In in Hin. destruct Hin as [Hin _].
    apply in_combine_l in Hin. exact Hin.
Qed.

(* ================================================================== *)
(** * Further properties: marginal risk contribution *)

Lemma list_index_absent (l : list string) (a : string) :
  ~ In a l -> list_index l a = inl ValueError.
Proof.
  induction l as [|b l IH]; intros Hn; simpl; [reflexivity|].
  destruct (String.eqb_spec b a) as [->|Hne].
  - exfalso. apply Hn. now left.
  - rewrite IH; [reflexivity|]. intros Hin. apply Hn. now right.
Qed.

Lemma mrc_for_asset_defined {F} {AF : Arith F} (cov_P : list (list F))
  (tickers : list string) (asset : string) :
  is_square cov_P = true ->
  In asset tickers -> length tickers <= length cov_P ->
  exists v, mrc_for_asset cov_P tickers asset = inr v.
Proof.
  intros Hsq Hin Hlen. rewrite (@mrc_for_asset_square _ _ cov_P tickers asset Hsq).
  destruct (list_index_in _ _ Hin) as [i [Hi Hlt]]. rewrite Hi. cbn [rbind].
  destruct (nth_error _ i) as [v|] eqn:Hv; [eauto|].
  apply nth_error_None in Hv. unfold matvec in Hv.
  rewrite !length_map in Hv. exfalso. apply (Nat.lt_irrefl i).
  eapply Nat.lt_le_trans; [exact Hlt|].
  eapply Nat.le_trans; [exact Hlen|exact Hv].
Qed.

(** [mrc_for_asset] raises [ValueError] exactly when the matrix is not
    [k] by [k] (the products of numpy refuse it) or the asset is not one of
    the tickers. On a [k] by [k] matrix it returns a value for an asset of
    at most [k] tickers, and raises [IndexError] for an asset whose first
    position among the tickers is [k] or later. *)
Theorem mrc_for_asset_errors {F} {AF : Arith F} (cov_P : list (list F))
  (tickers : list string) (asset : string) :
  (mrc_for_asset cov_P tickers asset = inl ValueError <->
   ~ Forall (fun r => length r = length cov_P) cov_P \/
   ~ In asset tickers) /\
  (Forall (fun r => length r = length cov_P) cov_P ->
   In asset tickers -> length tickers <= length cov_P ->
   exists v, mrc_for_asset cov_P tickers asset = inr v) /\
  (Forall (fun r => length r = length cov_P) cov_P ->
   forall i, list_index tickers asset = inr i -> length cov_P <= i ->
   mrc_for_asset cov_P tickers asset = inl IndexError).
Proof.
  split; [split|split].
  - intros Herr. destruct (is_square cov_P) eqn:Hsq.
    + right. intros Hin. rewrite (@mrc_for_asset_square _ _ cov_P tickers asset Hsq) in Herr.
      destruct (list_index_in _ _ Hin) as [i [Hi _]]. rewrite Hi in Herr.
      cbn [rbind] in Herr. destruct (nth_error _ i); discriminate.
    + left. intros Hrows.
      rewrite (is_square_true eq_refl Hrows) in Hsq. discriminate.
  - intros [Hrows|Hn].
    + unfold mrc_for_asset. destruct (is_square cov_P) eqn:Hsq;
        [|reflexivity].
      exfalso. apply Hrows. now apply is_square_rows.
    + unfold mrc_for_asset. destruct (is_square cov_P); [|reflexivity].
      cbn [negb]. now rewrite list_index_absent.
  - intros Hrows. apply mrc_for_asset_defined.
    exact (is_square_true eq_refl Hrows).
  - intros Hrows i Hi Hle.
    rewrite (@mrc_for_asset_square _ _ cov_P tickers asset
               (is_square_true eq_refl Hrows)), Hi.
    cbn [rbind].
    destruct (nth_error _ i) as [v|] eqn:Hv; [|reflexivity].
    exfalso. apply (Nat.lt_irrefl i).
    eapply Nat.lt_le_trans; [|exact Hle].
    assert (Hlt : i < length
              (map (fun x : F => f_div x (portfolio_sigma cov_P))
                 (matvec cov_P (equal_weights (length cov_P)))))
      by (apply nth_error_Some; congruence).
    unfold matvec in Hlt. now rewrite !length_map in Hlt.
Qed.

(* ================================================================== *)
(** * Further properties: the sampler and the store *)

Section SamplerDomain.

Context {G : Type} {BG : BitGenerator G}.

Lemma choice_ok_bounds {A} (a : list A) (size : Z) :
  choice_ok a size = true <-> (0 <= size <= Z.of_nat (length a))%Z.
Proof.
  unfold choice_ok. rewrite !andb_true_iff, !negb_true_iff.
  rewrite !Z.ltb_ge. split.
  - intros [[_ H1] H2]. lia.
  - intros [H1 H2]. repeat split; try lia.
    destruct (length a) eqn:E; simpl; [|reflexivity].
    assert (size = 0)%Z by lia. subst. reflexivity.
Qed.

(** [sample_portfolio_with_asset] returns a portfolio exactly when
    [1 <= k] and [k - 1] is at most the number of symbols of the universe
    other than [asset], whether or not [asset] is in the universe; the
    portfolio is then [k - 1] of those symbols followed by [asset].
    Otherwise it raises [ValueError] and the generator is as it was. *)
Theorem sample_portfolio_with_asset_domain
  (universe : list string) (asset : string) (k : Z) (rng : ref)
  (w : World) :
  let others := filter (fun u => negb (String.eqb u asset)) universe in
  ((1 <= k /\ k - 1 <= Z.of_nat (length others))%Z ->
   exists pick w',
     sample_portfolio_with_asset universe asset k rng w
       = (inr (pick ++ [asset]), w') /\
     Z.of_nat (length pick) = (k - 1)%Z /\ incl pick others) /\
  (~ (1 <= k /\ k - 1 <= Z.of_nat (length others))%Z ->
   sample_portfolio_with_asset universe asset k rng w = (inl ValueError, w)).
Proof.
  intros others. rewrite sample_run. fold others. rewrite choice_cases.
  destruct (choice_ok others (k - 1)) eqn:Hok.
  - apply choice_ok_bounds in Hok. split; [intros _|intros Hn; lia].
    destruct (@draw_perm _ _ _ (Z.to_nat (k - 1)) others (gen_at w rng)
                ltac:(lia)) as [Hl [rest Hp]].
    destruct (draw _ others (gen_at w rng)) as [pick g']. simpl in *.
    exists pick. eexists. split; [reflexivity|]. split; [lia|].
    intros x Hx. eapply Permutation_in; [apply Permutation_sym, Hp|].
    apply in_or_app. now left.
  - split; [|reflexivity]. intros Hb.
    assert (Htrue : choice_ok others (k - 1) = true)
      by (apply choice_ok_bounds; lia).
    congruence.
Qed.

(** A call of the sampler advances the generator it is given and no
    other: every other object of the store, and the next free reference,
    are as before, whether the call returns or raises. *)
Theorem sample_portfolio_with_asset_frame
  (universe : list string) (asset : string) (k : Z) (rng : ref)
  (w : World) :
  fresh (snd (sample_portfolio_with_asset universe asset k rng w))
    = fresh w /\
  forall r, r <> rng ->
    gen_at (snd (sample_portfolio_with_asset universe asset k rng w)) r
      = gen_at w r.
Proof.
  rewrite sample_run.
  destruct (choice _ _ _) as [e|[pick g']]; simpl; split; auto.
  intros r Hr. unfold upd.
  destruct (Nat.eqb_spec r rng); [contradiction|reflexivity].
Qed.

End SamplerDomain.

(* ================================================================== *)
(** * Further properties: the estimators *)

Section EstimatorFacts.

Context {G : Type} {BG : BitGenerator G}.
Context {F : Type} {AF : Arith F}.

(** A loop of trials on the object [rng] writes to that object only. *)
Lemma trials_frame (stat : list string -> result F)
  (loop : nat -> M vec) universe asset k rng :
  (forall w, loop O w = ret [] w) ->
  (forall n w, loop (S n) w =
     (P <- sample_portfolio_with_asset universe asset k rng ;;
      v <- lift (stat P) ;;
      rest <- loop n ;;
      ret (v :: rest))%world w) ->
  forall n (w : World),
    fresh (snd (loop n w)) = fresh w /\
    forall r, r <> rng -> gen_at (snd (loop n w)) r = gen_at w r.
Proof.
  intros Hl0 HlS. induction n as [|n IH]; intros w.
  - rewrite Hl0. simpl. auto.
  - remember (snd (loop (S n) w)) as w' eqn:Hw'.
    rewrite HlS in Hw'. unfold bind at 1 in Hw'. rewrite sample_run in Hw'.
    destruct (choice _ _ _) as [e|[pick g']];
      [simpl in Hw'; subst w'; auto|].
    assert (Hupd : forall r, r <> rng ->
              upd (gen_at w) rng g' r = gen_at w r).
    { intros r Hr. unfold upd.
      destruct (Nat.eqb_spec r rng); [contradiction|reflexivity]. }
    unfold bind at 1, lift in Hw'.
    destruct (stat (pick ++ [asset])) as [e|v];
      [simpl in Hw'; subst w'; simpl; auto|].
    unfold bind, ret in Hw'.
    match type of Hw' with
    | context [loop n ?w0] =>
        destruct (IH w0) as [Hf Hg]; destruct (loop n w0) as [[e|rest] w2]
    end; simpl in *; subst w'; (split; [assumption|]);
      intros r Hr; rewrite Hg by assumption; now apply Hupd.
Qed.

Lemma sigma_trials_unfold universe (cov : DataFrame F string) asset k rng
  n (w : World) :
  sigma_trials universe cov asset k rng (S n) w =
  (P <- sample_portfolio_with_asset universe asset k rng ;;
   v <- lift (sigma_of cov P) ;;
   rest <- sigma_trials universe cov asset k rng n ;;
   ret (v :: rest))%world w.
Proof.
  simpl. unfold bind, lift, sigma_of.
  destruct (sample_portfolio_with_asset universe asset k rng w)
    as [[e|P] w1]; [reflexivity|].
  destruct (subcov cov P) as [e|cov_P]; reflexivity.
Qed.

Lemma mrc_trials_unfold universe (cov : DataFrame F string) asset k rng
  n (w : World) :
  mrc_trials universe cov asset k rng (S n) w =
  (P <- sample_portfolio_with_asset universe asset k rng ;;
   v <- lift (mrc_of cov asset P) ;;
   rest <- mrc_trials universe cov asset k rng n ;;
   ret (v :: rest))%world w.
Proof.
  simpl. unfold bind, lift, mrc_of.
  destruct (sample_portfolio_with_asset universe asset k rng w)
    as [[e|P] w1]; [reflexivity|].
  destruct (subcov cov P) as [e|cov_P]; [reflexivity|]. simpl.
  destruct (mrc_for_asset cov_P P asset) as [e|v]; reflexivity.
Qed.

(** The estimators work on a generator of their own: every generator
    object of the store other than the one a call allocates is, after the
    call, in the state it was in before, whether the call returns or
    raises. *)
Theorem estimators_leave_generators universe (cov : DataFrame F string)
  asset k num_sims seed (w : World) (r : ref) :
  r <> fresh w ->
  gen_at (snd (expected_sigma_and_se universe cov asset k num_sims seed w)) r
    = gen_at w r /\
  gen_at (snd (expected_mrc universe cov asset k num_sims seed w)) r
    = gen_at w r.
Proof.
  intros Hr.
  assert (Hupd : forall g, upd (gen_at w) (fresh w) g r = gen_at w r).
  { intros g. unfold upd.
    destruct (Nat.eqb_spec r (fresh w)); [contradiction|reflexivity]. }
  split.
  - unfold expected_sigma_and_se, bind at 1, default_rng.
    destruct (seed <? 0)%Z; [reflexivity|]. unfold bind.
    match goal with
    | |- context [sigma_trials _ _ _ _ ?rng ?n ?w0] =>
        destruct (trials_frame (sigma_of cov)
                    (sigma_trials universe cov asset k rng) universe asset k
                    rng (fun _ => eq_refl)
                    (sigma_trials_unfold universe cov asset k rng) n w0)
          as [_ Hg];
        destruct (sigma_trials universe cov asset k rng n w0)
          as [[e|sigmas] w2]
    end; simpl in *; rewrite Hg by assumption; apply Hupd.
  - unfold expected_mrc, bind at 1, default_rng.
    destruct (seed <? 0)%Z; [reflexivity|]. unfold bind.
    match goal with
    | |- context [mrc_trials _ _ _ _ ?rng ?n ?w0] =>
        destruct (trials_frame (mrc_of cov asset)
                    (mrc_trials universe cov asset k rng) universe asset k
                    rng (fun _ => eq_refl)
                    (mrc_trials_unfold universe cov asset k rng) n w0)
          as [_ Hg];
        destruct (mrc_trials universe cov asset k rng n w0)
          as [[e|vals] w2]
    end; simpl in *; rewrite Hg by assumption; apply Hupd.
Qed.

(** When the universe cannot supply [k - 1] symbols besides [asset] (or
    [k < 1]), both estimators raise [ValueError] at their first trial. *)
Theorem estimators_raise_without_sample universe
  (cov : DataFrame F string) asset k num_sims seed (w : World) :
  ~ (1 <= k /\
     k - 1 <= Z.of_nat
       (length (filter (fun u => negb (String.eqb u asset)) universe)))%Z ->
  1 <= num_sims -> (0 <= seed)%Z ->
  fst (expected_sigma_and_se universe cov asset k num_sims seed w)
    = inl ValueError /\
  fst (expected_mrc universe cov asset k num_sims seed w) = inl ValueError.
Proof.
  intros Hk Hn Hseed.
  assert (Hok : choice_ok
                  (filter (fun u => negb (String.eqb u asset)) universe)
                  (k - 1) = false).
  { destruct (choice_ok _ (k - 1)) eqn:E; [|reflexivity].
    apply choice_ok_bounds in E. exfalso. apply Hk. lia. }
  destruct num_sims as [|n]; [lia|].
  rewrite expected_sigma_and_se_run, expected_mrc_run. unfold seeded.
  rewrite (proj2 (Z.ltb_ge _ _)) by lia. cbn [rbind].
  rewrite (portfolios_raise universe asset k n (from_seed seed) Hok).
  split; reflexivity.
Qed.

End EstimatorFacts.

Section EstimatorResults.

Context {G : Type} {BG : BitGenerator G}.

Lemma subcov_rows {F} {AF : Arith F} (cov : DataFrame F string)
  (P : list string) :
  wf_cov cov -> (forall t, In t P -> In t (index cov)) ->
  exists cov_P, subcov cov P = inr cov_P /\ length cov_P = length P.
Proof.
  intros (Hnd & Hcols & Hlen & _) Hin. unfold subcov.
  destruct (get_indexer_present P Hnd Hin) as [idx [Hidx HF]].
  rewrite Hcols, Hidx. simpl. eexists. split; [reflexivity|].
  rewrite length_map.
  rewrite <- (Forall2_length_eq
                (take_nth_error (values cov)
                   (indexer_in_range (index cov) (values cov) Hlen HF))).
  symmetry. apply (Forall2_length_eq HF).
Qed.

Lemma rmap_length {A B} (f : A -> result B) (xs : list A) (ys : list B) :
  rmap f xs = inr ys -> length ys = length xs.
Proof.
  revert ys. induction xs as [|x xs IH]; intros ys; simpl.
  - intros Heq. inversion Heq. reflexivity.
  - destruct (f x) as [e|y]; [discriminate|]. simpl.
    destruct (rmap f xs) as [e|ys']; [discriminate|]. simpl.
    intros Heq. inversion Heq. simpl. f_equal. now apply IH.
Qed.

(** With no trial at all the estimators sample nothing and raise
    nothing, whatever the universe and [k]: the mean of an empty array is
    NaN, and so is its standard error. *)
Theorem estimators_without_trials universe (cov : DataFrame B64.t string)
  asset k seed (w : World) :
  (0 <= seed)%Z ->
  fst (expected_sigma_and_se universe cov asset k 0 seed w)
    = inr (B64.nan, B64.nan) /\
  fst (expected_mrc universe cov asset k 0 seed w) = inr B64.nan.
Proof.
  intros Hseed. rewrite expected_sigma_and_se_run, expected_mrc_run.
  unfold seeded. rewrite (proj2 (Z.ltb_ge _ _)) by lia.
  split; vm_compute; reflexivity.
Qed.

Lemma b64_sqrt_not_finite (x : B64.t) :
  B64.is_finite x = false -> B64.is_finite (B64.sqrt x) = false.
Proof.
  destruct x as [s|[|]| |s m e]; simpl; intros Hx;
    try discriminate; reflexivity.
Qed.

Lemma b64_div_not_finite (x y : B64.t) :
  B64.is_finite x = false ->
  (exists s m e, y = S754_finite s m e) ->
  B64.is_finite (B64.div x y) = false.
Proof.
  intros Hx (s & m & e & ->).
  destruct x; simpl in *; try discriminate; reflexivity.
Qed.

(** The standard deviation with [ddof = 1] of a single value divides by
    zero: it is NaN or an infinity. *)
Lemma b64_std_of_one (s : B64.t) :
  B64.is_finite (std 1 [s]) = false.
Proof.
  unfold std. cbn [length Nat.sub map].
  change (f_of_Z (Z.of_nat 0)) with B64.zero.
  cbn [f_sqrt f_div binary64_arith scalar_arith].
  apply b64_sqrt_not_finite, b64_div_zero_not_finite. reflexivity.
Qed.

(** With a single trial the standard error is never a finite number:
    whenever [expected_sigma_and_se] returns for [num_sims = 1], the
    second component of the pair is NaN or an infinity. *)
Theorem single_trial_standard_error universe (cov : DataFrame B64.t string)
  asset k seed (w : World) (m se : B64.t) :
  fst (expected_sigma_and_se universe cov asset k 1 seed w) = inr (m, se) ->
  B64.is_finite se = false.
Proof.
  rewrite expected_sigma_and_se_run.
  destruct (seeded seed) as [e|g]; [discriminate|]. cbn [rbind].
  destruct (portfolios universe asset k 1 g) as [e|Ps] eqn:HPs;
    [discriminate|]. cbn [rbind].
  destruct (portfolios_valid _ _ _ _ _ HPs) as [HlenPs _].
  destruct (rmap (sigma_of cov) Ps) as [e|sigmas] eqn:Hs;
    [discriminate|]. cbn [rbind].
  apply rmap_length in Hs. rewrite HlenPs in Hs.
  destruct sigmas as [|s [|s' sigmas]]; try discriminate.
  intros Heq. inversion Heq as [[Hm Hse]].
  apply b64_div_not_finite; [apply b64_std_of_one|].
  vm_compute. eauto.
Qed.

End EstimatorResults.

(* ================================================================== *)
(** * Further properties: the universe, in exact arithmetic *)

Section UniverseFacts.

Open Scope R_scope.

Lemma notna_sum (col : list XR.t) (a : R) :
  fold_left f_add
    (map (fun x : XR.t => if f_isnan x then f_zero else f_one) col) (Some a)
  = Some (a + INR (length (present col))).
Proof.
  revert a. induction col as [|[r|] col IH]; intros a;
    cbn [map fold_left f_isnan f_add f_zero f_one xreal xreal_arith
         scalar_arith XR.isnan XR.lift2].
  - simpl. f_equal. lra.
  - rewrite IH. f_equal.
    change (present (Some r :: col)) with (r :: present col).
    change (length (r :: present col)) with (S (length (present col))).
    rewrite S_INR. lra.
  - rewrite IH. f_equal.
    change (present (None :: col)) with (present col). lra.
Qed.

Lemma present_length_le (col : list XR.t) :
  (length (present col) <= length col)%nat.
Proof.
  induction col as [|[r|] col IH]; simpl; lia.
Qed.

Lemma present_all (col : list XR.t) :
  length (present col) = length col <->
  Forall (fun x => XR.isnan x = false) col.
Proof.
  induction col as [|[r|] col IH]; simpl.
  - split; [constructor|reflexivity].
  - split.
    + intros Hl. constructor; [reflexivity|]. apply IH. lia.
    + intros Hf. inversion Hf; subst. f_equal. now apply IH.
  - split.
    + intros Hl. pose proof (present_length_le col). lia.
    + intros Hf. inversion Hf; subst. discriminate.
Qed.

(** The mask [notna().mean() == 1.0] holds of a column exactly when the
    column has a cell and none of its cells is missing. *)
Lemma notna_mean_is_one (col : list XR.t) :
  f_eqb (notna_mean col) f_one = true <->
  col <> [] /\ Forall (fun x => XR.isnan x = false) col.
Proof.
  unfold notna_mean, mean, vsum. rewrite length_map.
  change (@f_zero XR.t _) with (Some 0). rewrite notna_sum.
  cbn [f_div f_of_Z f_one f_eqb xreal_arith xreal scalar_arith xreal_eq].
  unfold XR.div, xreal_eqb.
  pose proof (present_length_le col) as Hle.
  rewrite <- INR_IZR_INZ.
  destruct (Req_dec_T (INR (length col)) 0) as [Hz|Hnz].
  - split; [discriminate|]. intros [Hne _]. exfalso.
    apply Hne. destruct col; [reflexivity|].
    change (length (t :: col)) with (S (length col)) in Hz.
    rewrite S_INR in Hz. pose proof (pos_INR (length col)). lra.
  - destruct (Req_dec_T ((0 + INR (length (present col))) / INR (length col))
                        1) as [Heq|Hne].
    + split; [intros _|reflexivity]. split.
      * intros ->. apply Hnz. reflexivity.
      * apply present_all. apply INR_eq.
        apply (Rmult_eq_compat_r (INR (length col))) in Heq.
        unfold Rdiv in Heq. rewrite Rmult_assoc, Rinv_l in Heq by assumption.
        lra.
    + split; [discriminate|]. intros [_ Hall]. exfalso. apply Hne.
      apply present_all in Hall. rewrite Hall. field. assumption.
Qed.

Lemma in_combine_seq {A} (l : list A) (a j : nat) (x : A) :
  In (j, x) (combine (seq a (length l)) l) <->
  (a <= j)%nat /\ nth_error l (j - a) = Some x.
Proof.
  revert a. induction l as [|y l IH]; intros a; simpl.
  - split; [contradiction|]. intros [_ H]. destruct (j - a)%nat; discriminate.
  - rewrite IH. split.
    + intros [Heq|[Hle Hn]].
      * inversion Heq; subst. rewrite Nat.sub_diag. auto.
      * split; [lia|]. replace (j - a)%nat with (S (j - S a)) by lia.
        exact Hn.
    + intros [Hle Hn]. destruct (Nat.eq_dec j a) as [->|Hne].
      * rewrite Nat.sub_diag in Hn. left. simpl in Hn. congruence.
      * right. split; [lia|].
        replace (j - a)%nat with (S (j - S a)) in Hn by lia. exact Hn.
Qed.

(** [full_history_universe] keeps exactly the symbols whose column has a
    price on every date of a panel of at least one date, in exact
    arithmetic; a panel without dates has an empty universe. *)
Theorem full_history_universe_spec (prices : DataFrame XR.t date) :
  (forall s, In s (full_history_universe prices) <->
     exists j, nth_error (columns prices) j = Some s /\
               values prices <> [] /\
               forall row, In row (values prices) ->
                           exists x, nth_error row j = Some (Some x)) /\
  (values prices = [] -> full_history_universe prices = []).
Proof.
  assert (Hspec : forall s, In s (full_history_universe prices) <->
     exists j, nth_error (columns prices) j = Some s /\
               values prices <> [] /\
               forall row, In row (values prices) ->
                           exists x, nth_error row j = Some (Some x)).
  { intros s. unfold full_history_universe. rewrite in_map_iff. split.
    - intros [[j s'] [Hs Hin]]. simpl in Hs. subst s'.
      apply filter_In in Hin. destruct Hin as [Hin Hmask]. simpl in Hmask.
      apply in_combine_seq in Hin. destruct Hin as [_ Hj].
      rewrite Nat.sub_0_r in Hj.
      apply notna_mean_is_one in Hmask. destruct Hmask as [Hne Hall].
      exists j. split; [assumption|]. split.
      + intros Hnil. apply Hne. unfold column. now rewrite Hnil.
      + intros row Hrow. rewrite Forall_forall in Hall.
        assert (Hc : In (nth j row None) (column (values prices) j)).
        { unfold column. apply in_map_iff. exists row. auto. }
        specialize (Hall _ Hc).
        destruct (nth_error row j) as [x|] eqn:Hx.
        * rewrite (nth_error_nth _ _ _ Hx) in Hall.
          destruct x; [eauto|discriminate].
        * apply nth_error_None in Hx.
          rewrite nth_overflow in Hall by assumption. discriminate.
    - intros [j [Hj [Hne Hall]]]. exists (j, s). split; [reflexivity|].
      apply filter_In. split.
      + apply in_combine_seq. rewrite Nat.sub_0_r. split; [lia|assumption].
      + simpl. apply notna_mean_is_one. split.
        * unfold column. destruct (values prices); [congruence|discriminate].
        * apply Forall_forall. intros x Hx. unfold column in Hx.
          apply in_map_iff in Hx. destruct Hx as [row [<- Hrow]].
          destruct (Hall row Hrow) as [v Hv].
          now rewrite (nth_error_nth _ _ _ Hv). }
  split; [exact Hspec|].
  intros Hnil. destruct (full_history_universe prices) as [|s l] eqn:E;
    [reflexivity|].
  destruct (proj1 (Hspec s)) as [j [_ [Hne _]]]; [now left|congruence].
Qed.

End UniverseFacts.

(* ================================================================== *)
(** * Further properties: returns of a complete history *)

Lemma zip_with_removelast {A B C} (f : A -> B -> C) (a : list A) :
  forall (b : list B) (y : B),
    length b = length a ->
    zip_with f a (removelast (y :: b)) = zip_with f a (y :: b).
Proof.
  induction a as [|u a IH]; intros b y Hl.
  - reflexivity.
  - destruct b as [|v b]; [discriminate|].
    change (removelast (y :: v :: b)) with (y :: removelast (v :: b)).
    cbn [zip_with]. f_equal. apply IH. simpl in Hl. lia.
Qed.

Lemma filter_all {A} (p : A -> bool) (l : list A) :
  (forall x, In x l -> p x = true) -> filter p l = l.
Proof.
  induction l as [|x l IH]; intros Hall; simpl; [reflexivity|].
  rewrite (Hall x (or_introl eq_refl)). f_equal.
  apply IH. intros y Hy. apply Hall. now right.
Qed.

Lemma combine_fst {A B} (la : list A) (lb : list B) :
  length la = length lb -> map fst (combine la lb) = la.
Proof.
  revert lb. induction la as [|a la IH]; intros [|b lb] Hl; simpl in *;
    try discriminate; [reflexivity|]. f_equal. apply IH. lia.
Qed.

Lemma combine_snd {A B} (la : list A) (lb : list B) :
  length la = length lb -> map snd (combine la lb) = lb.
Proof.
  revert lb. induction la as [|a la IH]; intros [|b lb] Hl; simpl in *;
    try discriminate; [reflexivity|]. f_equal. apply IH. lia.
Qed.

Section CompleteHistory.

Open Scope R_scope.

Lemma ffill_row_present (prev : list XR.t) (r : list R) :
  length prev = length r ->
  zip_with (fun (p x : XR.t) => if f_isnan x then p else x) prev (map Some r)
  = map Some r.
Proof.
  revert prev. induction r as [|x r IH]; intros [|p prev] Hl; simpl in *;
    try discriminate; [reflexivity|]. f_equal. apply IH. lia.
Qed.

Lemma ffill_from_present (n : nat) (ps : list (list R)) (prev : list XR.t) :
  length prev = n -> Forall (fun r => length r = n) ps ->
  ffill_from prev (map (map Some) ps) = map (map Some) ps.
Proof.
  intros Hprev Hps. revert prev Hprev.
  induction Hps as [|r ps Hr _ IH]; intros prev Hprev; simpl;
    [reflexivity|].
  rewrite ffill_row_present by congruence. f_equal.
  apply IH. now rewrite length_map.
Qed.

Lemma ffill_present (n : nat) (ps : list (list R)) :
  Forall (fun r => length r = n) ps ->
  ffill (map (map Some) ps) = map (map Some) ps.
Proof.
  intros Hps. destruct ps as [|r ps]; [reflexivity|]. simpl.
  inversion Hps; subst. f_equal.
  apply (ffill_from_present (n := length r)); [apply length_map|assumption].
Qed.

(** The code's [price / previous - 1] is the simple return. *)
Lemma pct_row_present (a b : list R) :
  Forall (fun p => p <> 0) b ->
  zip_with (fun x p : XR.t => f_sub (f_div x p) f_one)
           (map Some a) (map Some b)
  = map Some (zip_with simple_return a b).
Proof.
  intros Hb. revert a. induction Hb as [|p b Hp _ IH]; intros [|x a]; simpl;
    try reflexivity.
  rewrite IH. f_equal. unfold XR.div.
  destruct (Req_dec_T p 0) as [Hz|_]; [contradiction|]. simpl. f_equal.
  unfold simple_return. field. assumption.
Qed.

Lemma pct_rows_present (a b : list (list R)) :
  Forall (Forall (fun p => p <> 0)) b ->
  zip_with (zip_with (fun x p : XR.t => f_sub (f_div x p) f_one))
           (map (map Some) a) (map (map Some) b)
  = map (map Some) (zip_with (zip_with simple_return) a b).
Proof.
  intros Hb. revert a. induction Hb as [|r b Hr _ IH]; intros [|x a]; simpl;
    try reflexivity.
  now rewrite IH, pct_row_present.
Qed.

Lemma pct_first_row (r : list R) :
  zip_with (fun x p : XR.t => f_sub (f_div x p) f_one)
           (map Some r) (map (fun _ : XR.t => @f_nan XR.t _) (map Some r))
  = map (fun _ => None) r.
Proof.
  induction r as [|x r IH]; cbn [map zip_with]; [reflexivity|].
  rewrite IH. reflexivity.
Qed.

(** For a price panel with at least one symbol, a price on every date
    for every symbol and no zero price, [returns_from_prices] drops the
    first date and nothing else; the cell of a later date holds the simple
    return [(price[t] - price[t-1]) / price[t-1]], in exact arithmetic,
    under either default of [fill_method]. *)
Theorem returns_of_complete_history (fill : fill_method)
  (dates : list date) (symbols : list string) (ps : list (list R)) :
  symbols <> [] ->
  length dates = length ps ->
  Forall (fun r => length r = length symbols) ps ->
  Forall (Forall (fun p => p <> 0)) ps ->
  returns_from_prices fill
    {| index := dates; columns := symbols; values := map (map Some) ps |}
  = {| index := tl dates;
       columns := symbols;
       values := map (map Some) (zip_with (zip_with simple_return) (tl ps) ps)
    |}.
Proof.
  intros Hsym Hlen Hrect Hnz.
  unfold returns_from_prices, pct_change, dropna. cbn [index columns values].
  assert (Hdata : match fill with
                  | Pad => ffill (map (map Some) ps)
                  | NoFill => map (map Some) ps
                  end = map (map Some) ps).
  { destruct fill; [|reflexivity].
    apply (ffill_present (n := length symbols)). assumption. }
  rewrite Hdata. clear Hdata.
  destruct ps as [|r0 ps]; [destruct dates; [reflexivity|discriminate]|].
  destruct dates as [|d0 dates]; [discriminate|].
  change (map (map Some) (r0 :: ps))
    with (map Some r0 :: map (map Some) ps).
  unfold shift1. cbn [zip_with tl].
  rewrite zip_with_removelast by reflexivity.
  change (map Some r0 :: map (map Some) ps)
    with (map (map Some) (r0 :: ps)).
  rewrite pct_rows_present by assumption. rewrite pct_first_row.
  cbn [combine filter snd].
  assert (Hfirst : existsb f_isnan (map (fun _ : R => @None R) r0) = true).
  { inversion Hrect; subst. destruct r0 as [|x r0]; [|reflexivity].
    destruct symbols; [congruence|discriminate]. }
  rewrite Hfirst. cbn [negb].
  set (good := zip_with (zip_with simple_return) ps (r0 :: ps)).
  assert (Hgood : length dates = length (map (map Some) good)).
  { rewrite length_map. unfold good. simpl in Hlen.
    clear -Hlen. injection Hlen as Hlen. rewrite Hlen. clear Hlen dates.
    generalize r0. induction ps as [|r ps IH]; intros r1; simpl;
      [reflexivity|]. f_equal. apply IH. }
  rewrite filter_all.
  - now rewrite combine_fst, combine_snd.
  - intros [d row] Hin. apply in_combine_r in Hin. simpl.
    apply in_map_iff in Hin. destruct Hin as [rr [<- _]].
    apply negb_true_iff. clear. induction rr; simpl; auto.
Qed.

End CompleteHistory.

(* ================================================================== *)
(** * Further properties: closed forms of the risk math *)

Section ClosedForms.

Open Scope R_scope.

Ltac rsimp :=
  cbn [f_zero f_one f_add f_sub f_mul f_div f_neg f_sqrt f_of_Z exact_real]
    in *.

Lemma equal_weights_repeat (k : nat) :
  @equal_weights R _ k = repeat (1 / INR k) k.
Proof.
  unfold equal_weights. rsimp. rewrite <- (INR_IZR_INZ k).
  exact (@map_repeat R R 1 k (fun x => x / INR k)).
Qed.

Lemma dot_repeat_r (c : R) (r : list R) :
  dot r (repeat c (length r)) = c * fold_right Rplus 0 r.
Proof.
  induction r as [|x r IH]; simpl.
  - rewrite dot_nil_l. lra.
  - rewrite dot_cons, IH. lra.
Qed.

Lemma dot_repeat_l (c : R) (v : list R) :
  dot (repeat c (length v)) v = c * fold_right Rplus 0 v.
Proof.
  induction v as [|x v IH]; simpl.
  - rewrite dot_nil_l. lra.
  - rewrite dot_cons, IH. lra.
Qed.

Lemma matvec_repeat (c : R) (k : nat) (m : list (list R)) :
  Forall (fun r => length r = k) m ->
  matvec m (repeat c k) = map (fun r => c * fold_right Rplus 0 r) m.
Proof.
  unfold matvec. induction 1 as [|r m Hr _ IH]; simpl; [reflexivity|].
  rewrite IH. f_equal. rewrite <- Hr. apply dot_repeat_r.
Qed.

Lemma sum_scaled_rows (c : R) (m : list (list R)) :
  fold_right Rplus 0 (map (fun r => c * fold_right Rplus 0 r) m)
  = c * total m.
Proof.
  unfold total. induction m as [|r m IH]; simpl; [lra|]. rewrite IH. lra.
Qed.

(** The quadratic form [w @ cov_P @ w] at equal weights. *)
Lemma equal_weight_variance (k : nat) (cov_P : list (list R)) :
  length cov_P = k -> Forall (fun r => length r = k) cov_P ->
  dot (vecmat (equal_weights k) cov_P) (equal_weights k)
  = total cov_P / (INR k * INR k).
Proof.
  intros Hk Hrows.
  rewrite (vecmat_dot (n := k)) by assumption.
  rewrite equal_weights_repeat, (matvec_repeat _ Hrows).
  set (c := 1 / INR k).
  replace (repeat c k)
    with (repeat c (length (map (fun r => c * fold_right Rplus 0 r) cov_P)))
    by (now rewrite length_map, Hk).
  rewrite dot_repeat_l, sum_scaled_rows. unfold c.
  destruct k as [|k].
  - destruct cov_P; [|discriminate]. unfold total. simpl.
    unfold Rdiv. lra.
  - field. apply not_0_INR. discriminate.
Qed.

(** The equal-weight volatility of a [k] by [k] matrix is the root of the
    mean of all its [k * k] entries, in exact arithmetic. *)
Theorem portfolio_sigma_closed_form (k : nat) (cov_P : list (list R)) :
  length cov_P = k -> Forall (fun r => length r = k) cov_P ->
  portfolio_sigma cov_P = sqrt (total cov_P / (INR k * INR k)).
Proof.
  intros Hk Hrows. unfold portfolio_sigma. rsimp. rewrite Hk.
  now rewrite equal_weight_variance.
Qed.

Lemma list_index_nth (tickers : list string) (i : nat) (a : string) :
  NoDup tickers -> nth_error tickers i = Some a ->
  list_index tickers a = inr i.
Proof.
  intros Hnd Hi. destruct (nth_error_split _ _ Hi) as (pre & post & -> & <-).
  apply list_index_app. apply NoDup_remove_2 in Hnd.
  intros Hin. apply Hnd, in_or_app. now left.
Qed.

(** The marginal risk contribution of the [i]-th of [k] distinct tickers
    is the mean of the [i]-th row of the matrix over the portfolio
    volatility, in exact arithmetic. *)
Theorem mrc_for_asset_closed_form (k : nat) (cov_P : list (list R))
  (tickers : list string) (i : nat) (asset : string) (row : list R) :
  length cov_P = k -> Forall (fun r => length r = k) cov_P ->
  NoDup tickers ->
  nth_error tickers i = Some asset -> nth_error cov_P i = Some row ->
  mrc_for_asset cov_P tickers asset
  = inr (fold_right Rplus 0 row / INR k / portfolio_sigma cov_P).
Proof.
  intros Hk Hrows Hnd Hi Hrow.
  rewrite (@mrc_for_asset_square _ _ cov_P tickers asset
             (is_square_true Hk Hrows)).
  rewrite (@list_index_nth tickers i asset Hnd Hi). cbn [rbind].
  rewrite Hk, equal_weights_repeat, (matvec_repeat _ Hrows).
  rewrite !nth_error_map, Hrow. cbn [option_map]. rsimp.
  do 2 f_equal. unfold Rdiv. ring.
Qed.

End ClosedForms.

(* ================================================================== *)
(** * The estimators in exact arithmetic *)

Lemma take_map {A B} (f : A -> B) (l : list A) (idx : list nat) :
  take (map f l) idx = map f (take l idx).
Proof.
  unfold take. induction idx as [|i idx IH]; simpl; [reflexivity|].
  rewrite map_app, IH, nth_error_map.
  destruct (nth_error l i); reflexivity.
Qed.

Lemma take_in {A} (l : list A) (idx : list nat) (x : A) :
  In x (take l idx) -> In x l.
Proof.
  unfold take. intros Hx. apply in_flat_map in Hx.
  destruct Hx as [i [_ Hx]].
  destruct (nth_error l i) eqn:Hn; simpl in Hx; [|contradiction].
  destruct Hx as [<-|[]]. eapply nth_error_In; eauto.
Qed.

(** The sub-matrix of a frame of exact reals is the same in either
    arithmetic. *)
Lemma subcov_exact_frame (cov : DataFrame R string) (P : list string) :
  subcov (exact_frame cov) P =
  match subcov cov P with
  | inl e => inl e
  | inr m => inr (map (map Some) m)
  end.
Proof.
  unfold subcov, exact_frame. cbn [index columns values].
  destruct (get_indexer String.eqb (index cov) P) as [e|ridx];
    [reflexivity|]. cbn [rbind].
  destruct (get_indexer String.eqb (columns cov) P) as [e|cidx];
    [reflexivity|]. cbn [rbind].
  rewrite take_map, !map_map. f_equal. apply map_ext.
  intros row. apply take_map.
Qed.

(** The sub-matrix for [|P|] symbols of a covariance matrix is [|P|] by
    [|P|]. *)
Lemma subcov_shape {F} {AF : Arith F} (cov : DataFrame F string)
  (P : list string) :
  wf_cov cov -> (forall t, In t P -> In t (index cov)) ->
  exists m, subcov cov P = inr m /\ length m = length P /\
            Forall (fun r => length r = length P) m.
Proof.
  intros (Hnd & Hcols & Hlen & Hrows) Hin. unfold subcov.
  destruct (get_indexer_present P Hnd Hin) as [idx [Hidx HF]].
  rewrite Hcols, Hidx. cbn [rbind].
  pose proof (take_nth_error (values cov)
                (indexer_in_range (index cov) (values cov) Hlen HF))
    as Hrowsel.
  eexists. split; [reflexivity|]. split.
  - rewrite length_map, <- (Forall2_length_eq Hrowsel).
    symmetry. apply (Forall2_length_eq HF).
  - apply Forall_forall. intros r Hr. apply in_map_iff in Hr.
    destruct Hr as [r0 [<- Hr0]]. apply take_in in Hr0.
    rewrite Forall_forall in Hrows. specialize (Hrows r0 Hr0).
    assert (Hsel : Forall2 (fun p x => nth_error r0 p = Some x) idx
                     (take r0 idx)).
    { apply take_nth_error.
      apply (@indexer_in_range _ (index cov) r0 P idx);
        [congruence|assumption]. }
    rewrite <- (Forall2_length_eq Hsel).
    symmetry. apply (Forall2_length_eq HF).
Qed.

(** Sums of entries that are not negative, or are positive. *)
Lemma total_nonneg (m : list (list R)) :
  Forall (Forall (fun x => 0 <= x)%R) m -> (0 <= total m)%R.
Proof.
  unfold total. induction 1 as [|r m Hr _ IH]; simpl; [lra|].
  assert (0 <= fold_right Rplus 0 r)%R
    by (induction Hr; simpl; lra).
  lra.
Qed.

Lemma total_pos (m : list (list R)) :
  m <> [] ->
  Forall (fun r => r <> [] /\ Forall (fun x => 0 < x)%R r) m ->
  (0 < total m)%R.
Proof.
  intros Hne Hall.
  assert (Hrow : forall r, r <> [] -> Forall (fun x => 0 < x)%R r ->
            (0 < fold_right Rplus 0 r)%R).
  { intros r Hr Hpos. destruct Hpos as [|x r Hx Hpos]; [congruence|].
    simpl. assert (0 <= fold_right Rplus 0 r)%R
      by (clear -Hpos; induction Hpos; simpl; lra).
    lra. }
  unfold total. destruct Hall as [|r m [Hr Hpos] Hall]; [congruence|].
  simpl. pose proof (Hrow r Hr Hpos).
  assert (0 <= fold_right Rplus 0 (map (fold_right Rplus 0) m))%R.
  { clear -Hall Hrow. induction Hall as [|r' m [Hr' Hp'] _ IH]; simpl; [lra|].
    pose proof (Hrow r' Hr' Hp'). lra. }
  lra.
Qed.

(** Every entry of a sub-matrix is an entry of the matrix. *)
Lemma subcov_cells {F} {AF : Arith F} (cov : DataFrame F string)
  (P : list string) (m : list (list F)) (Q : F -> Prop) :
  Forall (Forall Q) (values cov) ->
  subcov cov P = inr m -> Forall (Forall Q) m.
Proof.
  intros Hall. unfold subcov.
  destruct (get_indexer String.eqb (index cov) P) as [e|ridx];
    [discriminate|]. cbn [rbind].
  destruct (get_indexer String.eqb (columns cov) P) as [e|cidx];
    [discriminate|]. cbn [rbind].
  intros Heq. injection Heq as <-.
  rewrite Forall_forall in *. intros r Hr. apply in_map_iff in Hr.
  destruct Hr as [row [<- Hrow]]. apply take_in in Hrow.
  specialize (Hall row Hrow). rewrite Forall_forall in *.
  intros x Hx. apply Hall. eapply take_in; eauto.
Qed.

Lemma nonneg_cells_totals (cov : DataFrame R string) :
  Forall (Forall (fun x => 0 <= x)%R) (values cov) -> nonneg_totals cov.
Proof.
  intros Hall P m Hm. apply total_nonneg.
  exact (@subcov_cells R _ cov P m (fun x => (0 <= x)%R) Hall Hm).
Qed.

Lemma subcov_keys {F} {AF : Arith F} (cov : DataFrame F string)
  (P : list string) (m : list (list F)) :
  subcov cov P = inr m -> forall t, In t P -> In t (index cov).
Proof.
  intros Hm t Ht.
  destruct (in_dec string_dec t (index cov)) as [Hin|Hnot]; [assumption|].
  unfold subcov in Hm. rewrite (@get_indexer_absent _ _ t Ht Hnot) in Hm.
  discriminate.
Qed.

Lemma pos_cells_totals (cov : DataFrame R string) :
  wf_cov cov ->
  Forall (Forall (fun x => 0 < x)%R) (values cov) -> pos_totals cov.
Proof.
  intros Hwf Hall P m Hne Hm.
  destruct (@subcov_shape R _ cov P Hwf (@subcov_keys R _ cov P m Hm))
    as (m' & Hm' & Hlen & Hrows).
  rewrite Hm in Hm'. injection Hm' as <-.
  pose proof (@subcov_cells R _ cov P m (fun x => (0 < x)%R) Hall Hm)
    as Hcells.
  apply total_pos.
  - destruct m, P; simpl in *; congruence.
  - rewrite Forall_forall in *. intros r Hr. split; [|now apply Hcells].
    specialize (Hrows r Hr). destruct r, P; simpl in *; congruence.
Qed.

Section ExactArithmetic.

Open Scope R_scope.

Ltac xsimp :=
  cbn [f_zero f_one f_add f_sub f_mul f_div f_neg f_sqrt f_of_Z f_nan
       f_isnan f_leb f_ltb f_floor scalar_arith xreal xreal_arith
       exact_real XR.lift2 XR.leb XR.ltb XR.floor XR.isnan option_map] in *.

(** Sums and products of reals that are all present are present, and are
    those of the reals. *)
Lemma xr_dot_fold (u v : list R) (a : R) :
  fold_left (fun acc p => f_add acc (f_mul (fst p) (snd p)))
            (combine (map Some u) (map Some v)) (Some a)
  = Some (fold_left (fun acc p => f_add acc (f_mul (fst p) (snd p)))
                    (combine u v) a).
Proof.
  revert v a. induction u as [|x u IH]; intros [|y v] a; simpl;
    try reflexivity.
  xsimp. apply IH.
Qed.

Lemma xr_dot (u v : list R) :
  dot (map Some u) (map Some v) = Some (dot u v).
Proof. apply xr_dot_fold. Qed.

Lemma xr_matvec (m : list (list R)) (w : list R) :
  matvec (map (map Some) m) (map Some w) = map Some (matvec m w).
Proof.
  unfold matvec. rewrite !map_map. apply map_ext. intros row. apply xr_dot.
Qed.

Lemma xr_zip_add (x : R) (a r : list R) :
  zip_with f_add (map Some a) (map (f_mul (Some x)) (map Some r))
  = map Some (zip_with f_add a (map (f_mul x) r)).
Proof.
  revert r. induction a as [|y a IH]; intros [|z r]; simpl; try reflexivity.
  xsimp. f_equal. apply IH.
Qed.

Lemma xr_vecmat_fold (w : list R) (m : list (list R)) (acc : list R) :
  fold_left (fun acc p => zip_with f_add acc (map (f_mul (fst p)) (snd p)))
            (combine (map Some w) (map (map Some) m)) (map Some acc)
  = map Some
      (fold_left
         (fun acc p => zip_with f_add acc (map (f_mul (fst p)) (snd p)))
         (combine w m) acc).
Proof.
  revert m acc. induction w as [|x w IH]; intros [|r m] acc;
    cbn [map combine fold_left fst snd]; try reflexivity.
  rewrite xr_zip_add. apply IH.
Qed.

Lemma xr_vecmat (w : list R) (m : list (list R)) :
  vecmat (map Some w) (map (map Some) m) = map Some (vecmat w m).
Proof.
  unfold vecmat.
  replace (repeat f_zero (ncols (map (map Some) m)))
    with (map Some (repeat (f_zero (F := R)) (ncols m))).
  - apply xr_vecmat_fold.
  - destruct m as [|r m]; [reflexivity|]. simpl.
    rewrite length_map. apply map_repeat.
Qed.

Lemma xr_equal_weights (k : nat) :
  k <> 0%nat ->
  @equal_weights (option R) xreal_arith k = map Some (@equal_weights R _ k).
Proof.
  intros Hk. unfold equal_weights. xsimp.
  assert (Hc : IZR (Z.of_nat k) <> 0).
  { rewrite <- INR_IZR_INZ. now apply not_0_INR. }
  generalize k at 2 4. intros n.
  induction n as [|n IH]; simpl; [reflexivity|].
  rewrite IH. f_equal.
  destruct (Req_dec_T (IZR (Z.of_nat k)) 0); [contradiction|reflexivity].
Qed.

Lemma xr_is_square (m : list (list R)) :
  is_square (map (map Some) m) = is_square m.
Proof.
  unfold is_square. rewrite length_map.
  generalize (length m). intros n.
  induction m as [|r m IH]; simpl; [reflexivity|].
  now rewrite length_map, IH.
Qed.

Lemma xr_sum_fold (xs : list R) (a : R) :
  fold_left f_add (map Some xs) (Some a) = Some (a + Rsum xs).
Proof.
  revert a. induction xs as [|x xs IH]; intros a; simpl.
  - f_equal. lra.
  - xsimp. rewrite IH. f_equal. lra.
Qed.

Lemma xr_vsum (xs : list R) : vsum (map Some xs) = Some (Rsum xs).
Proof.
  unfold vsum. xsimp. rewrite xr_sum_fold. f_equal. lra.
Qed.

(** The mean of the code is the arithmetic mean. *)
Lemma xr_mean (xs : list R) :
  xs <> [] -> mean (map Some xs) = Some (sample_mean xs).
Proof.
  intros Hne. unfold mean, sample_mean. rewrite xr_vsum, length_map. xsimp.
  rewrite <- INR_IZR_INZ. unfold XR.div.
  destruct (Req_dec_T (INR (length xs)) 0) as [Hz|_]; [|reflexivity].
  exfalso. revert Hz. apply not_0_INR.
  destruct xs; [congruence|discriminate].
Qed.

Lemma Rsum_squares_nonneg (xs : list R) (c : R) :
  0 <= Rsum (map (fun x => (x - c) * (x - c)) xs).
Proof.
  induction xs as [|x xs IH]; simpl; [lra|].
  pose proof (Rle_0_sqr (x - c)) as Hsq. unfold Rsqr in Hsq. lra.
Qed.

(** The standard deviation of the code with [ddof = 1] is the sample
    standard deviation of two values or more, and is undefined for one. *)
Lemma xr_std (xs : list R) :
  std 1 (map Some xs) =
  match xs with
  | [] => None
  | [_] => None
  | _ => Some (sample_std xs)
  end.
Proof.
  destruct xs as [|x0 xs0]; [unfold std, mean; simpl; xsimp;
    destruct (Req_dec_T 0 0); [reflexivity|lra]|].
  set (xs := x0 :: xs0).
  assert (Hne : xs <> []) by discriminate.
  unfold std. rewrite (xr_mean Hne).
  rewrite !map_map. xsimp.
  replace (map (fun x : R => Some ((x - sample_mean xs) * (x - sample_mean xs)))
               xs)
    with (map Some
            (map (fun x => (x - sample_mean xs) * (x - sample_mean xs)) xs))
    by (now rewrite map_map).
  rewrite xr_vsum, length_map.
  unfold sample_std. set (ss := Rsum _).
  assert (Hss : 0 <= ss) by apply Rsum_squares_nonneg.
  destruct xs0 as [|x1 xs1].
  - simpl. destruct (Req_dec_T 0 0); [reflexivity|lra].
  - assert (Hn : INR (length xs) - 1 = IZR (Z.of_nat (length xs - 1))).
    { rewrite <- INR_IZR_INZ. unfold xs. simpl length.
      rewrite Nat.sub_succ, Nat.sub_0_r, S_INR. lra. }
    rewrite Hn.
    assert (Hpos : 0 < IZR (Z.of_nat (length xs - 1))).
    { apply IZR_lt. unfold xs. simpl. lia. }
    unfold XR.div.
    destruct (Req_dec_T (IZR (Z.of_nat (length xs - 1))) 0); [lra|].
    unfold XR.sqrt.
    destruct (Rlt_dec (ss / IZR (Z.of_nat (length xs - 1))) 0) as [Hneg|_];
      [|reflexivity].
    exfalso. apply (Rlt_not_le _ _ Hneg).
    apply Rmult_le_pos; [assumption|]. left. now apply Rinv_0_lt_compat.
Qed.

End ExactArithmetic.

Section ExactRisk.

Open Scope R_scope.

Ltac xsimp :=
  cbn [f_zero f_one f_add f_sub f_mul f_div f_neg f_sqrt f_of_Z f_nan
       f_isnan f_leb f_ltb f_floor scalar_arith xreal xreal_arith
       exact_real XR.lift2 XR.leb XR.ltb XR.floor XR.isnan option_map] in *.

Lemma mean_entry_nonneg (m : list (list R)) :
  m <> [] -> 0 <= total m ->
  0 <= total m / (INR (length m) * INR (length m)).
Proof.
  intros Hne Htot.
  assert (Hk : 0 < INR (length m)).
  { apply lt_0_INR. destruct m; [congruence|simpl; lia]. }
  apply Rmult_le_pos; [assumption|].
  left. apply Rinv_0_lt_compat. now apply Rmult_lt_0_compat.
Qed.

(** The volatility the code computes for a [k] by [k] matrix of exact
    reals is the root of the mean of its entries. *)
Lemma xr_portfolio_sigma (m : list (list R)) :
  m <> [] -> Forall (fun r => length r = length m) m -> 0 <= total m ->
  portfolio_sigma (map (map Some) m) = Some (equal_weight_sigma m).
Proof.
  intros Hne Hrows Htot. unfold portfolio_sigma. rewrite length_map.
  assert (Hk : length m <> 0%nat) by (destruct m; [congruence|discriminate]).
  rewrite (xr_equal_weights Hk), xr_vecmat, xr_dot.
  rewrite (equal_weight_variance eq_refl Hrows).
  unfold equal_weight_sigma. xsimp. unfold XR.sqrt.
  destruct (Rlt_dec _ 0) as [Hneg|_]; [|reflexivity].
  exfalso. apply (Rlt_not_le _ _ Hneg). now apply mean_entry_nonneg.
Qed.

Lemma equal_weight_sigma_pos (m : list (list R)) :
  m <> [] -> 0 < total m -> 0 < equal_weight_sigma m.
Proof.
  intros Hne Htot. unfold equal_weight_sigma. apply sqrt_lt_R0.
  assert (Hk : 0 < INR (length m)).
  { apply lt_0_INR. destruct m; [congruence|simpl; lia]. }
  apply Rmult_lt_0_compat; [assumption|].
  apply Rinv_0_lt_compat. now apply Rmult_lt_0_compat.
Qed.

(** The marginal risk contribution the code computes for the last of the
    tickers is the mean of the last row over the volatility. *)
Lemma xr_mrc_for_asset (m : list (list R)) (pick : list string)
  (asset : string) :
  length m = S (length pick) ->
  Forall (fun r => length r = length m) m ->
  0 < total m -> ~ In asset pick ->
  mrc_for_asset (map (map Some) m) (pick ++ [asset]) asset
  = inr (Some (equal_weight_mrc m (length pick))).
Proof.
  intros Hlen Hrows Htot Hnotin.
  assert (Hne : m <> []) by (destruct m; [discriminate|congruence]).
  assert (Hk : length m <> 0%nat) by lia.
  rewrite (@mrc_for_asset_square (option R) xreal_arith (map (map Some) m) _ asset)
    by (rewrite xr_is_square; exact (is_square_true eq_refl Hrows)).
  rewrite (@list_index_app pick [] asset Hnotin). cbn [rbind].
  rewrite (xr_portfolio_sigma Hne Hrows) by lra.
  rewrite length_map, (xr_equal_weights Hk), xr_matvec.
  pose proof (equal_weight_sigma_pos Hne Htot) as Hs.
  set (s := equal_weight_sigma m) in *.
  rewrite !nth_error_map.
  assert (Hrow : nth_error m (length pick) = Some (nth (length pick) m [])).
  { apply nth_error_nth'. lia. }
  set (row := nth (length pick) m []) in *.
  assert (Hent : nth_error (matvec m (equal_weights (length m))) (length pick)
                 = Some (dot row (equal_weights (length m))))
    by exact (map_nth_error (fun r => dot r (equal_weights (length m)))
                (length pick) m Hrow).
  rewrite Hent. cbn [option_map]. xsimp.
  unfold XR.div. destruct (Req_dec_T s 0) as [Hz|_]; [lra|].
  do 2 f_equal. unfold equal_weight_mrc. fold s. fold row.
  assert (Hrl : length row = length m).
  { rewrite Forall_forall in Hrows. apply Hrows. unfold row.
    apply nth_In. lia. }
  rewrite equal_weights_repeat, <- Hrl, dot_repeat_r, Hrl.
  unfold Rsum, Rdiv. ring.
Qed.

End ExactRisk.

Section ExactEstimators.

Context {G : Type} {BG : BitGenerator G}.

Open Scope R_scope.

Ltac xsimp :=
  cbn [f_zero f_one f_add f_sub f_mul f_div f_neg f_sqrt f_of_Z f_nan
       f_isnan f_leb f_ltb f_floor scalar_arith xreal xreal_arith
       exact_real XR.lift2 XR.leb XR.ltb XR.floor XR.isnan option_map] in *.

(** On valid arguments every trial draws a portfolio: [k - 1] other
    symbols of the universe, then the asset. *)
Lemma portfolios_drawn universe asset k n (g : G) :
  NoDup universe -> In asset universe ->
  (1 <= k)%Z -> (k - 1 <= Z.of_nat (length universe) - 1)%Z ->
  exists Ps,
    portfolios universe asset k n g = inr Ps /\
    length Ps = n /\
    Forall (fun P => exists pick,
              P = (pick ++ [asset])%list /\
              Z.of_nat (length pick) = (k - 1)%Z /\
              forall x, In x pick -> In x universe /\ x <> asset) Ps.
Proof.
  intros Hnd Hin Hk1 Hk2.
  pose proof (others_length asset Hnd Hin) as Hlen.
  assert (Hok : choice_ok
                  (filter (fun u => negb (String.eqb u asset)) universe)
                  (k - 1) = true) by (apply choice_ok_bounds; lia).
  destruct (portfolios_defined universe asset k n g Hok) as [Ps [HPs HlenPs]].
  destruct (portfolios_valid _ _ _ _ _ HPs) as [_ Hvalid].
  exists Ps. auto.
Qed.

Lemma sigma_trials_exact (cov : DataFrame R string) (Ps : list (list string)) :
  wf_cov cov -> nonneg_totals cov ->
  Forall (fun P => P <> [] /\ forall t, In t P -> In t (index cov)) Ps ->
  exists covs,
    Forall2 (fun P cov_P => subcov cov P = inr cov_P) Ps covs /\
    Forall (fun cov_P => portfolio_sigma (map (map Some) cov_P)
                         = Some (equal_weight_sigma cov_P)) covs /\
    rmap (sigma_of (exact_frame cov)) Ps
    = inr (map Some (map equal_weight_sigma covs)).
Proof.
  intros Hwf Hpsd. induction 1 as [|P Ps [Hne Hin] _ (covs & HF2 & Hsig & Hr)].
  - exists []. repeat split; constructor.
  - destruct (@subcov_shape R _ cov P Hwf Hin) as (m & Hm & Hlen & Hrows).
    assert (Hmne : m <> []) by (destruct m, P; simpl in *; congruence).
    assert (Hsq : Forall (fun r => length r = length m) m)
      by (now rewrite Hlen).
    pose proof (xr_portfolio_sigma Hmne Hsq (Hpsd P m Hm)) as Hs.
    exists (m :: covs). split; [|split].
    + constructor; assumption.
    + constructor; assumption.
    + cbn [rmap map]. unfold sigma_of at 1.
      rewrite subcov_exact_frame, Hm. cbn [rbind]. unfold XR.t in *.
      rewrite Hs, Hr. reflexivity.
Qed.

Lemma mrc_trials_exact (cov : DataFrame R string) (asset : string) (n : nat)
  (Ps : list (list string)) :
  wf_cov cov -> pos_totals cov ->
  Forall (fun P => exists pick,
            P = (pick ++ [asset])%list /\ length pick = n /\
            ~ In asset pick /\
            forall t, In t P -> In t (index cov)) Ps ->
  exists covs,
    Forall2 (fun P cov_P => subcov cov P = inr cov_P) Ps covs /\
    Forall2 (fun P cov_P =>
               mrc_for_asset (map (map Some) cov_P) P asset
               = inr (Some (equal_weight_mrc cov_P n))) Ps covs /\
    rmap (mrc_of (exact_frame cov) asset) Ps
    = inr (map Some (map (fun cov_P => equal_weight_mrc cov_P n) covs)).
Proof.
  intros Hwf Hpd.
  induction 1 as [|P Ps (pick & -> & Hn & Hnotin & Hin) _
                   (covs & HF2 & Hmrc & Hr)].
  - exists []. repeat split; constructor.
  - destruct (@subcov_shape R _ cov (pick ++ [asset]) Hwf Hin)
      as (m & Hm & Hlen & Hrows).
    rewrite length_app, Nat.add_comm in Hlen. simpl in Hlen.
    assert (Hsq : Forall (fun r => length r = length m) m).
    { rewrite Hlen. rewrite <- (Nat.add_1_r (length pick)).
      rewrite length_app in Hrows. exact Hrows. }
    assert (Htot : 0 < total m).
    { apply (Hpd (pick ++ [asset])%list m); [|exact Hm].
      destruct pick; discriminate. }
    pose proof (@xr_mrc_for_asset m pick asset Hlen Hsq Htot Hnotin) as Hv.
    rewrite Hn in Hv.
    exists (m :: covs). split; [|split].
    + constructor; assumption.
    + constructor; assumption.
    + cbn [rmap map]. unfold mrc_of at 1.
      rewrite subcov_exact_frame, Hm. cbn [rbind]. unfold XR.t in *.
      rewrite Hv, Hr. reflexivity.
Qed.

(** The standard error the code computes from [n] values. *)
Lemma xr_standard_error (xs : list R) :
  xs <> [] ->
  f_div (std 1 (map Some xs))
        (f_sqrt (f_of_Z (F := option R) (Z.of_nat (length xs))))
  = if Nat.eqb (length xs) 1 then None
    else Some (sample_std xs / sqrt (INR (length xs))).
Proof.
  intros Hne. rewrite xr_std.
  destruct xs as [|x0 [|x1 xs]]; [congruence|reflexivity|].
  set (l := x0 :: x1 :: xs).
  replace (Nat.eqb (length l) 1) with false by reflexivity.
  xsimp. rewrite <- INR_IZR_INZ.
  assert (Hn : 0 < INR (length l)) by (apply lt_0_INR; simpl; lia).
  unfold XR.sqrt. destruct (Rlt_dec (INR (length l)) 0) as [Hneg|_]; [lra|].
  unfold XR.div.
  destruct (Req_dec_T (sqrt (INR (length l))) 0) as [Hz|_]; [|reflexivity].
  exfalso. pose proof (sqrt_lt_R0 _ Hn). lra.
Qed.

(** C9. On valid arguments, in exact arithmetic, [expected_sigma_and_se]
    raises nothing and returns the arithmetic mean of the [num_sims]
    volatilities and their sample standard deviation ([n - 1] in the
    denominator) over the root of [num_sims], which is undefined (NaN)
    for a single trial. Each volatility is [portfolio_sigma] of the
    sub-covariance of one sampled portfolio of [k] symbols of the
    universe, [asset] among them: the root of the mean of the entries of
    that sub-matrix. *)
Theorem expected_sigma_and_se_spec universe (cov : DataFrame R string)
  asset k num_sims seed (w : World) :
  wf_cov cov -> nonneg_totals cov ->
  NoDup universe ->
  (forall t, In t universe -> In t (index cov)) ->
  In asset universe ->
  (1 <= k)%Z -> (k - 1 <= Z.of_nat (length universe) - 1)%Z ->
  (1 <= num_sims)%nat ->
  (0 <= seed)%Z ->
  exists Ps covs,
    portfolios universe asset k num_sims (from_seed seed) = inr Ps /\
    length Ps = num_sims /\
    Forall (fun P => In asset P /\ Z.of_nat (length P) = k /\
                     incl P universe) Ps /\
    Forall2 (fun P cov_P => subcov cov P = inr cov_P) Ps covs /\
    Forall (fun cov_P => portfolio_sigma (map (map Some) cov_P)
                         = Some (equal_weight_sigma cov_P)) covs /\
    let sigmas := map equal_weight_sigma covs in
    fst (expected_sigma_and_se universe (exact_frame cov) asset k num_sims
           seed w) =
    inr (Some (sample_mean sigmas),
         if Nat.eqb num_sims 1 then None
         else Some (sample_std sigmas / sqrt (INR num_sims))).
Proof.
  intros Hwf Hpsd Hnd Hsub Hin Hk1 Hk2 Hn Hseed.
  destruct (@portfolios_drawn universe asset k num_sims (from_seed seed)
              Hnd Hin Hk1 Hk2)
    as (Ps & HPs & HlenPs & Hvalid).
  assert (Hshape : Forall (fun P => In asset P /\ Z.of_nat (length P) = k /\
                                    incl P universe) Ps).
  { eapply Forall_impl; [|exact Hvalid].
    intros P [pick [-> [Hl Hp]]]. split; [|split].
    - apply in_or_app. right. now left.
    - rewrite length_app. simpl. lia.
    - intros x Hx. apply in_app_or in Hx.
      destruct Hx as [Hx|[<-|[]]]; [apply (Hp x Hx)|assumption]. }
  assert (Hkeys : Forall (fun P => P <> [] /\
                                   forall t, In t P -> In t (index cov)) Ps).
  { eapply Forall_impl; [|exact Hshape].
    intros P (Ha & _ & Hincl). split.
    - destruct P; [contradiction|discriminate].
    - intros t Ht. apply Hsub, Hincl, Ht. }
  destruct (sigma_trials_exact Hwf Hpsd Hkeys) as (covs & HF2 & Hsig & Hr).
  exists Ps, covs. repeat (split; [assumption|]).
  cbv zeta. rewrite expected_sigma_and_se_run. unfold seeded.
  rewrite (proj2 (Z.ltb_ge _ _)) by lia. cbn [rbind].
  rewrite HPs. cbn [rbind]. rewrite Hr. cbn [rbind].
  set (sigmas := map equal_weight_sigma covs).
  assert (Hlen : length sigmas = num_sims).
  { unfold sigmas. rewrite length_map.
    transitivity (length Ps); [|exact HlenPs].
    symmetry. exact (Forall2_length_eq HF2). }
  assert (Hne : sigmas <> []) by (destruct sigmas; simpl in *; [lia|discriminate]).
  unfold XR.t in *. rewrite (xr_mean Hne).
  rewrite <- Hlen. rewrite (xr_standard_error Hne). reflexivity.
Qed.

(** On valid arguments, in exact arithmetic and for a covariance matrix
    under which no portfolio is riskless, [expected_mrc] raises nothing
    and returns the arithmetic mean of the [num_sims] marginal risk
    contributions of [asset], one for each portfolio drawn in turn from
    the generator seeded with [seed]: the mean of the asset's row of the
    sub-covariance matrix over the volatility of the portfolio. *)
Theorem expected_mrc_spec universe (cov : DataFrame R string)
  asset k num_sims seed (w : World) :
  wf_cov cov -> pos_totals cov ->
  NoDup universe ->
  (forall t, In t universe -> In t (index cov)) ->
  In asset universe ->
  (1 <= k)%Z -> (k - 1 <= Z.of_nat (length universe) - 1)%Z ->
  (1 <= num_sims)%nat ->
  (0 <= seed)%Z ->
  exists Ps covs,
    portfolios universe asset k num_sims (from_seed seed) = inr Ps /\
    length Ps = num_sims /\
    Forall2 (fun P cov_P => subcov cov P = inr cov_P) Ps covs /\
    let i := Z.to_nat (k - 1) in
    Forall2 (fun P cov_P =>
               nth_error P i = Some asset /\
               mrc_for_asset (map (map Some) cov_P) P asset
               = inr (Some (equal_weight_mrc cov_P i))) Ps covs /\
    fst (expected_mrc universe (exact_frame cov) asset k num_sims seed w)
    = inr (Some (sample_mean
                   (map (fun cov_P => equal_weight_mrc cov_P i) covs))).
Proof.
  intros Hwf Hpd Hnd Hsub Hin Hk1 Hk2 Hn Hseed.
  destruct (@portfolios_drawn universe asset k num_sims (from_seed seed)
              Hnd Hin Hk1 Hk2)
    as (Ps & HPs & HlenPs & Hvalid).
  assert (Hkeys : Forall (fun P => exists pick,
                    P = (pick ++ [asset])%list /\
                    length pick = Z.to_nat (k - 1) /\
                    ~ In asset pick /\
                    forall t, In t P -> In t (index cov)) Ps).
  { eapply Forall_impl; [|exact Hvalid].
    intros P [pick [-> [Hl Hp]]]. exists pick.
    split; [reflexivity|]. split; [lia|]. split.
    - intros Ha. now destruct (Hp asset Ha).
    - intros t Ht. apply Hsub. apply in_app_or in Ht.
      destruct Ht as [Ht|[<-|[]]]; [apply (Hp t Ht)|assumption]. }
  destruct (@mrc_trials_exact cov asset (Z.to_nat (k - 1)) Ps Hwf Hpd Hkeys)
    as (covs & HF2 & Hmrc & Hr).
  exists Ps, covs. repeat (split; [assumption|]).
  cbv zeta. split.
  - clear -Hkeys Hmrc. revert Hkeys.
    induction Hmrc as [|P m Ps covs Hv _ IH]; intros Hkeys; constructor.
    + split; [|exact Hv].
      inversion Hkeys as [|? ? (pick & -> & Hl & _) _]; subst.
      rewrite <- Hl, nth_error_app2, Nat.sub_diag by lia. reflexivity.
    + apply IH. now inversion Hkeys.
  - rewrite expected_mrc_run. unfold seeded.
    rewrite (proj2 (Z.ltb_ge _ _)) by lia. cbn [rbind].
    rewrite HPs. cbn [rbind]. rewrite Hr. cbn [rbind].
    set (vals := map (fun cov_P : list (list R) =>
                        equal_weight_mrc cov_P (Z.to_nat (k - 1))) covs).
    assert (Hne : vals <> []).
    { assert (Hlen : length vals = num_sims).
      { unfold vals. rewrite length_map.
        transitivity (length Ps); [|exact HlenPs].
        symmetry. exact (Forall2_length_eq HF2). }
      destruct vals; simpl in *; [lia|discriminate]. }
    unfold XR.t in *. now rewrite (xr_mean Hne).
Qed.

End ExactEstimators.

(* ================================================================== *)
(** * Further properties: portfolio returns and the edges of VaR *)

Lemma filter_combine_fst {A B} (f : A -> bool) (la : list A) (lb : list B) :
  length la = length lb ->
  map fst (filter (fun p => f (fst p)) (combine la lb)) = filter f la.
Proof.
  revert lb. induction la as [|a la IH]; intros [|b lb] Hl; simpl in *;
    try discriminate; [reflexivity|].
  destruct (f a); simpl; rewrite IH by lia; reflexivity.
Qed.

Lemma filter_none {A} (p : A -> bool) (l : list A) :
  (forall x, In x l -> p x = false) -> filter p l = [].
Proof.
  induction l as [|x l IH]; intros Hall; simpl; [reflexivity|].
  rewrite (Hall x (or_introl eq_refl)). apply IH.
  intros y Hy. apply Hall. now right.
Qed.

Lemma filter_strongly_sorted {A} (R : A -> A -> Prop) (f : A -> bool)
  (l : list A) :
  StronglySorted R l -> StronglySorted R (filter f l).
Proof.
  induction 1 as [|x l Hs IH Hall]; simpl; [constructor|].
  destruct (f x); [|assumption]. constructor; [assumption|].
  rewrite Forall_forall in *. intros y Hy. apply Hall.
  apply filter_In in Hy. tauto.
Qed.

(** On a returns panel of ascending dates and distinct symbols,
    [portfolio_returns] raises [KeyError] when a symbol of the portfolio
    is not a column of the panel, whatever the window; otherwise it
    returns a series whose dates ascend and are exactly the dates of the
    panel within [[start, end]], each once. *)
Theorem portfolio_returns_keys_and_dates {F} {SF : Scalar F}
  (returns : DataFrame F date) (P : list string) (start end_ : date) :
  wf_panel returns ->
  ((exists s, In s P /\ ~ In s (columns returns)) ->
   portfolio_returns returns P start end_ = inl KeyError) /\
  ((forall s, In s P -> In s (columns returns)) ->
   exists series,
     portfolio_returns returns P start end_ = inr series /\
     StronglySorted Z.lt (map fst series) /\
     NoDup (map fst series) /\
     forall d, In d (map fst series) <->
               In d (index returns) /\ (start <= d <= end_)%Z).
Proof.
  intros (Hsorted & _ & Hlen & _). unfold portfolio_returns. split.
  - intros [s [Hin Hnot]].
    now rewrite (@get_indexer_absent _ _ s Hin Hnot).
  - intros Hin.
    destruct (get_indexer_defined (columns returns) P Hin) as [cidx Hidx].
    rewrite Hidx. cbn [rbind]. eexists. split; [reflexivity|].
    rewrite map_map. cbn [fst].
    change (fun x : Z * list F => fst x) with (@fst Z (list F)).
    pose proof (filter_combine_fst
                  (fun d => (start <=? d)%Z && (d <=? end_)%Z)
                  (index returns) (values returns) Hlen) as Hdates.
    cbv beta in Hdates. unfold date in *. rewrite Hdates. clear Hdates.
    assert (Hs : StronglySorted Z.lt
              (filter (fun d => (start <=? d)%Z && (d <=? end_)%Z)
                      (index returns)))
      by (apply filter_strongly_sorted; exact Hsorted).
    split; [exact Hs|]. split.
    + clear -Hs. induction Hs as [|x l _ IH Hall]; constructor; auto.
      intros Hx. rewrite Forall_forall in Hall.
      specialize (Hall x Hx). lia.
    + intros d. rewrite filter_In, andb_true_iff, !Z.leb_le. tauto.
Qed.

Section VarEdges.

Open Scope R_scope.

Ltac xsimp :=
  cbn [f_zero f_one f_add f_sub f_mul f_div f_neg f_sqrt f_of_Z f_nan
       f_isnan f_leb f_ltb f_floor scalar_arith xreal xreal_arith
       XR.lift2 XR.leb XR.ltb XR.floor XR.isnan option_map] in *.

(** [historical_var] on a returns panel of ascending dates and distinct
    symbols and a portfolio of symbols of the panel: a confidence
    outside [[0, 1]], or one that is missing, raises [ValueError]
    (numpy's check of the quantile); a window holding no date of the panel
    raises nothing and gives NaN. *)
Theorem historical_var_edges (returns : DataFrame XR.t date)
  (P : list string) (start end_ : date) :
  wf_panel returns ->
  (forall s, In s P -> In s (columns returns)) ->
  (forall c, c < 0 \/ 1 < c ->
     historical_var returns P start end_ (Some c) = inl ValueError) /\
  historical_var returns P start end_ None = inl ValueError /\
  (forall c, 0 <= c <= 1 ->
     (forall d, In d (index returns) -> ~ (start <= d <= end_)%Z) ->
     historical_var returns P start end_ (Some c) = inr None).
Proof.
  intros _ Hin.
  destruct (get_indexer_defined (columns returns) P Hin) as [cidx Hidx].
  unfold historical_var, portfolio_returns. rewrite Hidx. cbn [rbind].
  unfold nanquantile. xsimp. repeat split.
  - intros c Hc.
    destruct (Rle_dec 0 (1 - c)); [|reflexivity].
    destruct (Rle_dec (1 - c) 1); [lra|reflexivity].
  - intros c [Hc0 Hc1] Hout.
    destruct (Rle_dec 0 (1 - c)) as [_|Hbad]; [|lra].
    destruct (Rle_dec (1 - c) 1) as [_|Hbad]; [|lra].
    cbn [andb negb].
    rewrite (filter_none
               (fun p : Z * list XR.t =>
                  (start <=? fst p)%Z && (fst p <=? end_)%Z)).
    + reflexivity.
    + intros [d row] Hd. apply in_combine_l in Hd. specialize (Hout d Hd).
      cbn [fst].
      destruct (Z.leb_spec start d); destruct (Z.leb_spec d end_); simpl;
        auto; lia.
Qed.

Lemma sorted_nth_le (l : list R) :
  Sorted Rle l ->
  forall i j, (i <= j < length l)%nat -> nth i l 0 <= nth j l 0.
Proof.
  intros Hs. apply Sorted_StronglySorted in Hs;
    [|intros x y z; apply Rle_trans].
  induction Hs as [|x l Hs IH Hall]; intros i j Hij; simpl in *; [lia|].
  destruct i as [|i]; destruct j as [|j]; try lia.
  - lra.
  - rewrite Forall_forall in Hall. apply Hall. apply nth_In. lia.
  - apply IH. lia.
Qed.

Lemma order_stat_in (xs : list R) (i : nat) :
  (i < length xs)%nat -> In (order_stat xs i) xs.
Proof.
  intros Hi. unfold order_stat.
  eapply Permutation_in; [apply Permutation_sym, Rsort_perm|].
  apply nth_In. now rewrite Rsort_length.
Qed.

Lemma order_stat_extremes (xs : list R) (x : R) :
  In x xs ->
  order_stat xs 0 <= x <= order_stat xs (length xs - 1).
Proof.
  intros Hx. apply (Permutation_in _ (Rsort_perm xs)) in Hx.
  destruct (In_nth _ _ 0 Hx) as [i [Hi <-]].
  rewrite Rsort_length in Hi. unfold order_stat.
  split; apply sorted_nth_le; try apply Rsort_sorted;
    rewrite Rsort_length; lia.
Qed.

(** The interpolated quantile lies between the least and the greatest
    value. *)
Lemma quantile_linear_bounds (xs : list R) (q : R) :
  xs <> [] -> 0 <= q <= 1 ->
  order_stat xs 0 <= quantile_linear xs q <= order_stat xs (length xs - 1).
Proof.
  intros Hne [Hq0 Hq1]. unfold quantile_linear.
  set (n := length xs).
  assert (Hn : (1 <= n)%nat) by (subst n; destruct xs; simpl; [congruence|lia]).
  assert (HnR : INR n - 1 = IZR (Z.of_nat n - 1))
    by (rewrite minus_IZR, <- INR_IZR_INZ; reflexivity).
  rewrite HnR. set (m := (Z.of_nat n - 1)%Z) in *.
  assert (Hm : 0 <= IZR m) by (apply IZR_le; lia).
  set (h := IZR m * q).
  assert (Hh0 : 0 <= h) by (apply Rmult_le_pos; assumption).
  assert (Hh1 : h <= IZR m).
  { unfold h. rewrite <- (Rmult_1_r (IZR m)) at 2.
    apply Rmult_le_compat_l; assumption. }
  destruct (base_Int_part h) as [Hlo Hup].
  pose proof (Int_part_nonneg Hh0) as Hj0.
  assert (Hj1 : (Int_part h <= m)%Z) by (apply le_IZR; lra).
  set (jz := Int_part h) in *. set (g := h - IZR jz).
  assert (Hg : 0 <= g < 1) by (unfold g; lra).
  assert (Hsorted : forall i j, (i <= j < n)%nat ->
            order_stat xs i <= order_stat xs j).
  { intros i j Hij. unfold order_stat. apply sorted_nth_le;
      [apply Rsort_sorted|]. rewrite Rsort_length. exact Hij. }
  destruct (Z.eq_dec jz m) as [Hlast|Hmid].
  - assert (HI : IZR jz = IZR m) by (now rewrite Hlast).
    assert (Hg0 : g = 0) by (unfold g; lra).
    rewrite Hg0. replace (Z.to_nat jz) with (n - 1)%nat by lia.
    rewrite Rmult_0_l, Rplus_0_r. split; [apply Hsorted; lia|lra].
  - set (j := Z.to_nat jz).
    assert (Hj : (S j < n)%nat) by (unfold j; lia).
    pose proof (Hsorted 0%nat j ltac:(lia)) as H0j.
    pose proof (Hsorted j (S j) ltac:(lia)) as Hjj.
    pose proof (Hsorted (S j) (n - 1)%nat ltac:(lia)) as Hjn.
    set (a := order_stat xs j) in *. set (b := order_stat xs (S j)) in *.
    assert (0 <= g * (b - a) <= b - a).
    { split; [apply Rmult_le_pos; lra|].
      rewrite <- (Rmult_1_l (b - a)) at 2.
      apply Rmult_le_compat_r; lra. }
    lra.
Qed.

(** Historical VaR is bounded by the observed returns: it is at most the
    largest loss of the window (the negated least return) and at least
    the negated greatest return. *)
Theorem historical_var_bounds (returns : DataFrame XR.t date)
  (P : list string) (start end_ : date) (c : R)
  (series : list (date * XR.t)) :
  portfolio_returns returns P start end_ = inr series ->
  0 <= c <= 1 ->
  present (map snd series) <> [] ->
  exists v lo hi,
    historical_var returns P start end_ (Some c) = inr (Some v) /\
    In lo (present (map snd series)) /\
    In hi (present (map snd series)) /\
    (forall x, In x (present (map snd series)) -> lo <= x <= hi) /\
    - hi <= v <= - lo.
Proof.
  intros Hseries Hc Hne.
  set (xs := present (map snd series)) in *.
  assert (Hn : (1 <= length xs)%nat)
    by (destruct xs; simpl; [congruence|lia]).
  exists (- quantile_linear xs (1 - c)), (order_stat xs 0),
         (order_stat xs (length xs - 1)).
  split; [|split; [|split; [|split]]].
  - unfold historical_var. rewrite Hseries. cbn [rbind]. xsimp.
    rewrite nanquantile_exact by (try lra; exact Hne). reflexivity.
  - apply order_stat_in. lia.
  - apply order_stat_in. lia.
  - intros x Hx. now apply order_stat_extremes.
  - destruct (quantile_linear_bounds (q := 1 - c) Hne) as [H1 H2];
      [lra|]. lra.
Qed.

End VarEdges.

(* ================================================================== *)
(** * Further properties: sub-covariance *)

Lemma get_indexer_self (pre post : list string) :
  NoDup (pre ++ post) ->
  get_indexer String.eqb (pre ++ post) post
  = inr (seq (length pre) (length post)).
Proof.
  revert pre. induction post as [|k post IH]; intros pre Hnd;
    [reflexivity|].
  cbn [get_indexer].
  assert (Hk : nth_error (pre ++ k :: post) (length pre) = Some k)
    by (rewrite nth_error_app2, Nat.sub_diag by lia; reflexivity).
  rewrite (positions_unique 0 (length pre) Hnd Hk).
  specialize (IH (pre ++ [k])). rewrite <- app_assoc in IH.
  cbn [app] in IH. rewrite (IH Hnd). cbn [rbind].
  rewrite length_app. cbn [length]. rewrite Nat.add_1_r. reflexivity.
Qed.

Lemma take_seq {X} (pre post : list X) :
  take (pre ++ post) (seq (length pre) (length post)) = post.
Proof.
  revert pre. induction post as [|x post IH]; intros pre; [reflexivity|].
  cbn [length seq]. unfold take. cbn [flat_map].
  rewrite nth_error_app2, Nat.sub_diag by lia. cbn [nth_error app].
  f_equal. specialize (IH (pre ++ [x])).
  rewrite <- app_assoc, length_app in IH. cbn [app length] in IH.
  rewrite Nat.add_1_r in IH. exact IH.
Qed.

(** Asking a covariance matrix for all its symbols, in its own order,
    gives the matrix back. *)
Theorem subcov_of_all_symbols {F} {AF : Arith F}
  (cov : DataFrame F string) :
  wf_cov cov -> subcov cov (index cov) = inr (values cov).
Proof.
  intros (Hnd & Hcols & Hlen & Hrows). unfold subcov. rewrite Hcols.
  pose proof (get_indexer_self [] (index cov) Hnd) as Hself.
  cbn [app length] in Hself. rewrite Hself. cbn [rbind]. f_equal.
  assert (Hsel : take (values cov) (seq 0 (length (index cov)))
                 = values cov)
    by (rewrite <- Hlen; exact (take_seq [] (values cov))).
  rewrite Hsel.
  transitivity (map (fun row : list F => row) (values cov));
    [|apply map_id].
  apply map_ext_in. intros row Hrow. rewrite Forall_forall in Hrows.
  replace (length (index cov)) with (length row)
    by (rewrite (Hrows row Hrow), Hcols; reflexivity).
  exact (take_seq [] row).
Qed.

Lemma nth_error_take {X} (items : list X) (idx : list nat) (i : nat) :
  Forall (fun p => p < length items) idx ->
  nth_error (take items idx) i =
  match nth_error idx i with
  | Some p => nth_error items p
  | None => None
  end.
Proof.
  intros Hidx. pose proof (take_nth_error items Hidx) as HF.
  destruct (nth_error idx i) as [p|] eqn:Hp.
  - destruct (Forall2_nth_error_l _ HF Hp) as [x [Hx Hsrc]]. congruence.
  - apply nth_error_None. rewrite <- (Forall2_length_eq HF).
    now apply nth_error_None.
Qed.

(** The cell of the selection, for positions that fit the frame. *)
Lemma cell_take {F} (rows : list (list F)) (idx : list nat) (i j : nat) :
  Forall (fun p => p < length rows) idx ->
  Forall (fun r => Forall (fun p => p < length r) idx) rows ->
  cell (map (fun row => take row idx) (take rows idx)) i j =
  match nth_error idx i, nth_error idx j with
  | Some pi, Some pj => cell rows pi pj
  | _, _ => None
  end.
Proof.
  intros Hr Hc. unfold cell. rewrite nth_error_map, nth_error_take by exact Hr.
  destruct (nth_error idx i) as [pi|]; [|reflexivity].
  destruct (nth_error rows pi) as [row|] eqn:Hrow; cbn [option_map].
  - rewrite Forall_forall in Hc.
    rewrite nth_error_take by (apply Hc; eapply nth_error_In; eauto).
    destruct (nth_error idx j); reflexivity.
  - destruct (nth_error idx j); reflexivity.
Qed.

(** The sub-covariance of a symmetric covariance matrix is symmetric. *)
Theorem subcov_symmetric {F} {AF : Arith F} (cov : DataFrame F string)
  (tickers : list string) :
  wf_cov cov -> symmetric (values cov) ->
  (forall t, In t tickers -> In t (index cov)) ->
  exists m, subcov cov tickers = inr m /\ symmetric m.
Proof.
  intros (Hnd & Hcols & Hlen & Hrows) Hsym Hin. unfold subcov.
  destruct (get_indexer_present tickers Hnd Hin) as [idx [Hidx HF]].
  rewrite Hcols, Hidx. cbn [rbind]. eexists. split; [reflexivity|].
  assert (Hr : Forall (fun p => p < length (values cov)) idx)
    by (exact (indexer_in_range (index cov) (values cov) Hlen HF)).
  assert (Hc : Forall (fun r => Forall (fun p => p < length r) idx)
                      (values cov)).
  { apply Forall_forall. intros r Hrin. rewrite Forall_forall in Hrows.
    apply (@indexer_in_range _ (index cov) r tickers idx); [|assumption].
    rewrite (Hrows r Hrin). now rewrite Hcols. }
  intros i j. rewrite !cell_take by assumption.
  destruct (nth_error idx i) as [pi|], (nth_error idx j) as [pj|];
    try reflexivity. apply Hsym.
Qed.


(* ================================================================== *)
(** * Further properties: the first date, and VaR against confidence *)

Lemma b64_pct_first_row (r : list B64.t) :
  zip_with (fun x p : B64.t => f_sub (f_div x p) f_one) r
           (map (fun _ : B64.t => @f_nan B64.t _) r)
  = map (fun _ => B64.nan) r.
Proof.
  induction r as [|x r IH]; cbn [map zip_with]; [reflexivity|].
  rewrite IH. f_equal. destruct x; reflexivity.
Qed.

Lemma ffill_head {F} {SF : Scalar F} (r : list F) (rows : list (list F)) :
  exists rest, ffill (r :: rows) = r :: rest.
Proof.
  simpl. eauto.
Qed.

(** [returns_from_prices] never keeps the first date: for a price panel
    with at least one symbol, every date of the returns panel is one of
    the dates after the first, and there are fewer dates than prices had,
    whatever the prices and under either default of [fill_method]. *)
Theorem returns_drop_first_date (fill : fill_method)
  (prices : DataFrame B64.t date) :
  columns prices <> [] ->
  rectangular prices ->
  length (index prices) = length (values prices) ->
  incl (index (returns_from_prices fill prices)) (tl (index prices)) /\
  length (index (returns_from_prices fill prices))
    <= length (index prices) - 1.
Proof.
  intros Hcols Hrect Hlen.
  unfold returns_from_prices, pct_change, dropna. cbn [index columns values].
  destruct (values prices) as [|r0 rows] eqn:Hv.
  - destruct (index prices); [|discriminate].
    destruct fill; simpl; split; auto; intros d [].
  - destruct (index prices) as [|d0 ds]; [discriminate|].
    assert (Hdata : exists rest,
              match fill with
              | Pad => ffill (r0 :: rows)
              | NoFill => r0 :: rows
              end = r0 :: rest).
    { destruct fill; [apply ffill_head|eauto]. }
    destruct Hdata as [rest ->].
    unfold shift1. cbn [zip_with]. rewrite b64_pct_first_row.
    cbn [combine filter snd].
    assert (Hfirst : existsb f_isnan (map (fun _ : B64.t => B64.nan) r0)
                     = true).
    { unfold rectangular in Hrect. rewrite Hv in Hrect.
      inversion Hrect; subst. destruct r0 as [|x r0]; [|reflexivity].
      destruct (columns prices); [congruence|discriminate]. }
    rewrite Hfirst. cbn [negb tl length]. split.
    + intros d Hd. apply in_map_iff in Hd. destruct Hd as [[d' row] [<- Hd]].
      apply filter_In in Hd. destruct Hd as [Hd _].
      apply in_combine_l in Hd. exact Hd.
    + rewrite length_map. eapply Nat.le_trans; [apply filter_length_le|].
      rewrite length_combine. lia.
Qed.

Section VarMonotone.

Open Scope R_scope.

(** The interpolated quantile does not decrease with [q]. *)
Lemma quantile_linear_monotone (xs : list R) (q1 q2 : R) :
  xs <> [] -> 0 <= q1 -> q1 <= q2 -> q2 <= 1 ->
  quantile_linear xs q1 <= quantile_linear xs q2.
Proof.
  intros Hne Hq0 Hq12 Hq1. unfold quantile_linear.
  set (n := length xs).
  assert (Hn : (1 <= n)%nat) by (subst n; destruct xs; simpl; [congruence|lia]).
  assert (HnR : INR n - 1 = IZR (Z.of_nat n - 1))
    by (rewrite minus_IZR, <- INR_IZR_INZ; reflexivity).
  rewrite HnR. set (m := (Z.of_nat n - 1)%Z) in *.
  assert (Hm : 0 <= IZR m) by (apply IZR_le; lia).
  set (h1 := IZR m * q1). set (h2 := IZR m * q2).
  assert (Hh0 : 0 <= h1) by (apply Rmult_le_pos; assumption).
  assert (Hh12 : h1 <= h2) by (apply Rmult_le_compat_l; assumption).
  assert (Hh1 : h2 <= IZR m).
  { unfold h2. rewrite <- (Rmult_1_r (IZR m)) at 2.
    apply Rmult_le_compat_l; assumption. }
  destruct (base_Int_part h1) as [Hlo1 Hup1].
  destruct (base_Int_part h2) as [Hlo2 Hup2].
  pose proof (Int_part_nonneg Hh0) as Hj0.
  assert (Hj2m : (Int_part h2 <= m)%Z) by (apply le_IZR; lra).
  assert (Hj12 : (Int_part h1 <= Int_part h2)%Z).
  { assert (IZR (Int_part h1) < IZR (Int_part h2 + 1))
      by (rewrite plus_IZR; lra).
    apply lt_IZR in H. lia. }
  set (jz1 := Int_part h1) in *. set (jz2 := Int_part h2) in *.
  set (g1 := h1 - IZR jz1). set (g2 := h2 - IZR jz2).
  assert (Hg1 : 0 <= g1 < 1) by (unfold g1; lra).
  assert (Hg2 : 0 <= g2 < 1) by (unfold g2; lra).
  assert (Hsorted : forall i j, (i <= j < n)%nat ->
            order_stat xs i <= order_stat xs j).
  { intros i j Hij. unfold order_stat. apply sorted_nth_le;
      [apply Rsort_sorted|]. rewrite Rsort_length. exact Hij. }
  assert (Hlast : forall jz h, (jz = m)%Z -> IZR jz <= h -> h <= IZR m ->
            h - IZR jz = 0).
  { intros jz h -> Ha Hb. lra. }
  assert (Hbr : forall jz g, (0 <= jz < m)%Z -> 0 <= g < 1 ->
            order_stat xs (Z.to_nat jz)
            <= order_stat xs (Z.to_nat jz)
               + g * (order_stat xs (S (Z.to_nat jz))
                      - order_stat xs (Z.to_nat jz))
            <= order_stat xs (S (Z.to_nat jz))).
  { intros jz g Hjz Hg.
    pose proof (Hsorted (Z.to_nat jz) (S (Z.to_nat jz)) ltac:(lia)) as Hab.
    set (a := order_stat xs (Z.to_nat jz)) in *.
    set (b := order_stat xs (S (Z.to_nat jz))) in *.
    assert (0 <= g * (b - a) <= b - a).
    { split; [apply Rmult_le_pos; lra|].
      rewrite <- (Rmult_1_l (b - a)) at 2.
      apply Rmult_le_compat_r; lra. }
    lra. }
  destruct (Z.eq_dec jz1 jz2) as [Heq|Hneq].
  - assert (Hg12 : g1 <= g2).
    { unfold g1, g2. assert (IZR jz1 = IZR jz2) by (now rewrite Heq). lra. }
    rewrite <- Heq.
    destruct (Z.eq_dec jz1 m) as [Hm1|Hm1].
    + assert (Hz1 : g1 = 0) by (apply Hlast; [assumption|lra|lra]).
      assert (Hz2 : g2 = 0) by (apply Hlast; [lia|lra|lra]).
      rewrite Hz1, Hz2. lra.
    + pose proof (Hsorted (Z.to_nat jz1) (S (Z.to_nat jz1)) ltac:(lia))
        as Hab.
      apply Rplus_le_compat_l, Rmult_le_compat_r; lra.
  - assert (Hlt : (jz1 < jz2)%Z) by lia.
    destruct (Hbr jz1 g1 ltac:(lia) Hg1) as [_ Hup].
    pose proof (Hsorted (S (Z.to_nat jz1)) (Z.to_nat jz2) ltac:(lia)) as Hmid.
    destruct (Z.eq_dec jz2 m) as [Hm2|Hm2].
    + assert (Hz : g2 = 0) by (apply Hlast; [assumption|lra|lra]).
      rewrite Hz. lra.
    + destruct (Hbr jz2 g2 ltac:(lia) Hg2) as [Hlow _]. lra.
Qed.

Ltac xsimp :=
  cbn [f_zero f_one f_add f_sub f_mul f_div f_neg f_sqrt f_of_Z f_nan
       f_isnan f_leb f_ltb f_floor scalar_arith xreal xreal_arith
       XR.lift2 XR.leb XR.ltb XR.floor XR.isnan option_map] in *.

(** A higher confidence never gives a smaller VaR: over one window with
    at least one non-missing portfolio return, [historical_var] does not
    decrease as the confidence grows within [[0, 1]]. *)
Theorem historical_var_monotone (returns : DataFrame XR.t date)
  (P : list string) (start end_ : date) (c1 c2 : R)
  (series : list (date * XR.t)) :
  portfolio_returns returns P start end_ = inr series ->
  present (map snd series) <> [] ->
  0 <= c1 -> c1 <= c2 -> c2 <= 1 ->
  exists v1 v2,
    historical_var returns P start end_ (Some c1) = inr (Some v1) /\
    historical_var returns P start end_ (Some c2) = inr (Some v2) /\
    v1 <= v2.
Proof.
  intros Hseries Hne Hc0 Hc12 Hc1.
  exists (- quantile_linear (present (map snd series)) (1 - c1)),
         (- quantile_linear (present (map snd series)) (1 - c2)).
  unfold historical_var. rewrite Hseries. cbn [rbind]. xsimp.
  rewrite !nanquantile_exact by (try lra; exact Hne).
  repeat split.
  apply Ropp_le_contravar.
  apply quantile_linear_monotone; try assumption; lra.
Qed.

End VarMonotone.

(* ================================================================== *)
(** * The further properties at concrete inputs *)

Section MoreWitnesses.

Import Examples MoreExamples.
Open Scope string_scope.

Example full_history_universe_late_listing :
  full_history_universe late_listing = ["A"].
Proof. vm_compute. reflexivity. Qed.

(** [estimators_leave_generators] at a concrete input. *)
Lemma estimators_leave_generators_witness :
  1 <> fresh empty_world /\
  gen_at (snd (expected_sigma_and_se ["A"; "B"] cov_AB "A" 2 3 42
                 empty_world)) 1
    = gen_at empty_world 1 /\
  gen_at (snd (expected_mrc ["A"; "B"] cov_AB "A" 2 3 42 empty_world)) 1
    = gen_at empty_world 1.
Proof.
  assert (Hr : 1 <> fresh empty_world) by (simpl; lia).
  split; [exact Hr|].
  exact (@estimators_leave_generators Z lcg B64.t _ ["A"; "B"] cov_AB "A" 2 3
           42 empty_world 1 Hr).
Defined.

(** [estimators_raise_without_sample] at a concrete input. *)
Lemma estimators_raise_without_sample_witness :
  ~ (1 <= 3 /\
     3 - 1 <= Z.of_nat
       (length (filter (fun u => negb (String.eqb u "A")) ["A"; "B"])))%Z /\
  1 <= 2 /\ (0 <= 42)%Z /\
  fst (expected_sigma_and_se ["A"; "B"] cov_AB "A" 3 2 42 empty_world)
    = inl ValueError /\
  fst (expected_mrc ["A"; "B"] cov_AB "A" 3 2 42 empty_world)
    = inl ValueError.
Proof.
  assert (Hk : ~ (1 <= 3 /\
     3 - 1 <= Z.of_nat
       (length (filter (fun u => negb (String.eqb u "A")) ["A"; "B"])))%Z)
    by (simpl; lia).
  assert (Hn : 1 <= 2) by lia.
  assert (Hseed : (0 <= 42)%Z) by lia.
  repeat (split; [assumption|]).
  exact (@estimators_raise_without_sample Z lcg B64.t _ ["A"; "B"] cov_AB "A"
           3 2 42 empty_world Hk Hn Hseed).
Defined.

(** [estimators_without_trials] at a concrete input. *)
Lemma estimators_without_trials_witness :
  (0 <= 42)%Z /\
  fst (expected_sigma_and_se ["A"] cov_AB "Q" 7 0 42 empty_world)
    = inr (B64.nan, B64.nan) /\
  fst (expected_mrc ["A"] cov_AB "Q" 7 0 42 empty_world) = inr B64.nan.
Proof.
  assert (Hseed : (0 <= 42)%Z) by lia.
  split; [exact Hseed|].
  exact (@estimators_without_trials Z lcg ["A"] cov_AB "Q" 7 42 empty_world
           Hseed).
Defined.

(** [single_trial_standard_error] at a concrete input. *)
Lemma single_trial_standard_error_witness :
  fst (expected_sigma_and_se ["A"; "B"] cov_AB "A" 2 1 42 empty_world)
    = inr (B64.sqrt (B64.mk 15 (-2)), B64.nan) /\
  B64.is_finite B64.nan = false.
Proof.
  assert (Hrun :
    fst (expected_sigma_and_se ["A"; "B"] cov_AB "A" 2 1 42 empty_world)
    = inr (B64.sqrt (B64.mk 15 (-2)), B64.nan))
    by (vm_compute; reflexivity).
  split; [exact Hrun|].
  exact (@single_trial_standard_error Z lcg ["A"; "B"] cov_AB "A" 2 42
           empty_world _ _ Hrun).
Defined.

(** [returns_of_complete_history] at a concrete input. *)
Lemma returns_of_complete_history_witness :
  ["A"] <> [] /\ length [1; 2; 3]%Z = length doubling /\
  Forall (fun r => length r = length ["A"]) doubling /\
  Forall (Forall (fun p => p <> 0%R)) doubling /\
  returns_from_prices NoFill
    {| index := [1; 2; 3]%Z; columns := ["A"];
       values := map (map Some) doubling |}
  = {| index := [2; 3]%Z;
       columns := ["A"];
       values := [[Some (simple_return 2 1)]; [Some (simple_return 4 2)]] |}.
Proof.
  assert (Hsym : ["A"] <> []) by discriminate.
  assert (Hlen : length [1; 2; 3]%Z = length doubling) by reflexivity.
  assert (Hrect : Forall (fun r => length r = length ["A"]) doubling)
    by (repeat constructor).
  assert (Hnz : Forall (Forall (fun p => p <> 0%R)) doubling)
    by (repeat constructor; lra).
  repeat (split; [assumption|]).
  exact (@returns_of_complete_history NoFill [1; 2; 3]%Z ["A"] doubling Hsym
           Hlen Hrect Hnz).
Defined.

(** [portfolio_sigma_closed_form] at a concrete input. *)
Lemma portfolio_sigma_closed_form_witness :
  length cov_AB_exact = 2 /\
  Forall (fun r => length r = 2) cov_AB_exact /\
  portfolio_sigma cov_AB_exact
  = sqrt (total cov_AB_exact / (INR 2 * INR 2)).
Proof.
  assert (Hk : length cov_AB_exact = 2) by reflexivity.
  assert (Hrows : Forall (fun r => length r = 2) cov_AB_exact)
    by (repeat constructor).
  repeat (split; [assumption|]).
  exact (@portfolio_sigma_closed_form 2 cov_AB_exact Hk Hrows).
Defined.

(** [mrc_for_asset_closed_form] at a concrete input. *)
Lemma mrc_for_asset_closed_form_witness :
  length cov_AB_exact = 2 /\
  Forall (fun r => length r = 2) cov_AB_exact /\
  NoDup ["A"; "B"] /\
  nth_error ["A"; "B"] 1 = Some "B" /\
  nth_error cov_AB_exact 1 = Some [1; 9]%R /\
  mrc_for_asset cov_AB_exact ["A"; "B"] "B"
  = inr (fold_right Rplus 0 [1; 9] / INR 2 / portfolio_sigma cov_AB_exact)%R.
Proof.
  assert (Hk : length cov_AB_exact = 2) by reflexivity.
  assert (Hrows : Forall (fun r => length r = 2) cov_AB_exact)
    by (repeat constructor).
  assert (Hi : nth_error ["A"; "B"] 1 = Some "B") by reflexivity.
  assert (Hrow : nth_error cov_AB_exact 1 = Some [1; 9]%R) by reflexivity.
  repeat (split; [assumption || exact NoDup_AB|]).
  exact (@mrc_for_asset_closed_form 2 cov_AB_exact ["A"; "B"] 1 "B" [1; 9]%R
           Hk Hrows NoDup_AB Hi Hrow).
Defined.

(** [historical_var_edges] at a concrete input. *)
Lemma historical_var_edges_witness :
  wf_panel two_losses /\
  (forall s, In s ["A"] -> In s (columns two_losses)) /\
  historical_var two_losses ["A"] 1%Z 2%Z (Some 2%R) = inl ValueError /\
  historical_var two_losses ["A"] 5%Z 9%Z (Some (1 / 2)%R) = inr None.
Proof.
  assert (Hin : forall s, In s ["A"] -> In s (columns two_losses))
    by (simpl; auto).
  split; [exact wf_panel_two_losses|]. split; [exact Hin|].
  destruct (@historical_var_edges two_losses ["A"] 1%Z 2%Z
              wf_panel_two_losses Hin)
    as (Hbad & _ & _).
  destruct (@historical_var_edges two_losses ["A"] 5%Z 9%Z
              wf_panel_two_losses Hin)
    as (_ & _ & Hempty).
  split.
  - apply Hbad. right. lra.
  - apply Hempty; [lra|]. simpl. intros d [<-|[<-|[]]]; lia.
Defined.

Lemma two_losses_series :
  portfolio_returns two_losses ["A"] 1%Z 2%Z
  = inr [(1%Z, Some (0 + - (1 / 2) * (1 / 1))%R);
         (2%Z, Some (0 + - (1 / 4) * (1 / 1))%R)].
Proof.
  assert (Hdot : forall x : R,
            dot [Some x] (@equal_weights XR.t _ 1) = Some (0 + x * (1 / 1))%R).
  { intros x. unfold dot, equal_weights. simpl. unfold XR.div.
    destruct (Req_dec_T 1 0) as [Hbad|_]; [lra|]. reflexivity. }
  unfold portfolio_returns. simpl. now rewrite !Hdot.
Defined.

(** [historical_var_bounds] at a concrete input. *)
Lemma historical_var_bounds_witness :
  (0 <= 1 / 2 <= 1)%R /\
  exists v lo hi,
    historical_var two_losses ["A"] 1%Z 2%Z (Some (1 / 2)%R)
      = inr (Some v) /\
    (lo <= hi)%R /\ (- hi <= v <= - lo)%R.
Proof.
  assert (Hc : (0 <= 1 / 2 <= 1)%R) by lra.
  split; [exact Hc|].
  destruct (@historical_var_bounds two_losses ["A"] 1%Z 2%Z (1 / 2)%R _
              two_losses_series Hc)
    as (v & lo & hi & Hv & Hlo & _ & Hall & Hb).
  - simpl. discriminate.
  - exists v, lo, hi. split; [exact Hv|]. split; [|exact Hb].
    apply (Hall lo Hlo).
Defined.

(** [subcov_of_all_symbols] at a concrete input. *)
Lemma subcov_of_all_symbols_witness :
  wf_cov cov_AB /\ subcov cov_AB (index cov_AB) = inr (values cov_AB).
Proof.
  split; [exact wf_cov_AB|].
  exact (@subcov_of_all_symbols B64.t _ cov_AB wf_cov_AB).
Defined.

Lemma symmetric_cov_AB : symmetric (values cov_AB).
Proof.
  intros i j.
  destruct i as [|[|[|i]]], j as [|[|[|j]]]; reflexivity.
Defined.

(** [subcov_symmetric] at a concrete input. *)
Lemma subcov_symmetric_witness :
  wf_cov cov_AB /\ symmetric (values cov_AB) /\
  (forall t, In t ["B"; "A"] -> In t (index cov_AB)) /\
  exists m, subcov cov_AB ["B"; "A"] = inr m /\ symmetric m.
Proof.
  assert (Hin : forall t, In t ["B"; "A"] -> In t (index cov_AB))
    by (simpl; intuition).
  repeat (split; [assumption || exact wf_cov_AB || exact symmetric_cov_AB|]).
  exact (@subcov_symmetric B64.t _ cov_AB ["B"; "A"] wf_cov_AB
           symmetric_cov_AB Hin).
Defined.

(** [returns_drop_first_date] at a concrete input. *)
Lemma returns_drop_first_date_witness :
  columns zero_then_five <> [] /\ rectangular zero_then_five /\
  length (index zero_then_five) = length (values zero_then_five) /\
  incl (index (returns_from_prices NoFill zero_then_five)) [2%Z] /\
  length (index (returns_from_prices NoFill zero_then_five)) <= 1.
Proof.
  assert (Hcols : columns zero_then_five <> []) by discriminate.
  assert (Hrect : rectangular zero_then_five) by (repeat constructor).
  assert (Hlen : length (index zero_then_five)
                 = length (values zero_then_five)) by reflexivity.
  repeat (split; [assumption|]).
  exact (@returns_drop_first_date NoFill zero_then_five Hcols Hrect Hlen).
Defined.

(** [historical_var_monotone] at a concrete input. *)
Lemma historical_var_monotone_witness :
  (0 <= 1 / 4)%R /\ (1 / 4 <= 3 / 4)%R /\ (3 / 4 <= 1)%R /\
  exists v1 v2,
    historical_var two_losses ["A"] 1%Z 2%Z (Some (1 / 4)%R)
      = inr (Some v1) /\
    historical_var two_losses ["A"] 1%Z 2%Z (Some (3 / 4)%R)
      = inr (Some v2) /\
    (v1 <= v2)%R.
Proof.
  assert (H0 : (0 <= 1 / 4)%R) by lra.
  assert (H12 : (1 / 4 <= 3 / 4)%R) by lra.
  assert (H1 : (3 / 4 <= 1)%R) by lra.
  repeat (split; [assumption|]).
  apply (@historical_var_monotone two_losses ["A"] 1%Z 2%Z (1 / 4)%R
           (3 / 4)%R _ two_losses_series); try assumption.
  simpl. discriminate.
Defined.

(** [mrc_for_asset_errors] at a concrete input. *)
Lemma mrc_for_asset_errors_witness :
  mrc_for_asset riskless_cov ["A"] "Z" = inl ValueError /\
  mrc_for_asset [[B64.zero; B64.zero]] ["A"] "A" = inl ValueError /\
  (exists v, mrc_for_asset riskless_cov ["A"] "A" = inr v) /\
  mrc_for_asset riskless_cov ["Z"; "A"] "A" = inl IndexError.
Proof.
  destruct (@mrc_for_asset_errors B64.t _ riskless_cov ["A"] "Z")
    as [[_ Habsent] _].
  destruct (@mrc_for_asset_errors B64.t _ [[B64.zero; B64.zero]] ["A"] "A")
    as [[_ Hshape] _].
  destruct (@mrc_for_asset_errors B64.t _ riskless_cov ["A"] "A")
    as (_ & Hret & _).
  destruct (@mrc_for_asset_errors B64.t _ riskless_cov ["Z"; "A"] "A")
    as (_ & _ & Hlate).
  assert (Hrows : Forall (fun r : list B64.t => length r = length riskless_cov)
                         riskless_cov) by (repeat constructor).
  split; [|split; [|split]].
  - apply Habsent. right. simpl. intuition discriminate.
  - apply Hshape. left. intros Hbad. inversion Hbad as [|r l Hr Hl].
    simpl in Hr. discriminate.
  - apply Hret; simpl; auto.
  - apply (Hlate Hrows 1); [reflexivity|simpl; lia].
Defined.

(** [sample_portfolio_with_asset_domain] at a concrete input. *)
Lemma sample_portfolio_with_asset_domain_witness :
  (exists pick w',
     sample_portfolio_with_asset ["A"; "B"] "Q" 3 0 empty_world
       = (inr (pick ++ ["Q"])%list, w') /\
     Z.of_nat (length pick) = 2%Z) /\
  sample_portfolio_with_asset ["A"; "B"] "Q" 0 0 empty_world
    = (inl ValueError, empty_world).
Proof.
  destruct (@sample_portfolio_with_asset_domain Z lcg ["A"; "B"] "Q" 3 0
              empty_world) as [Hret _].
  destruct (@sample_portfolio_with_asset_domain Z lcg ["A"; "B"] "Q" 0 0
              empty_world) as [_ Hraise].
  split.
  - destruct Hret as (pick & w' & Hrun & Hlen & _); [simpl; lia|].
    exists pick, w'. auto.
  - apply Hraise. simpl. lia.
Defined.

Lemma wf_panel_loss_then_gain : wf_panel loss_then_gain.
Proof.
  repeat split; simpl.
  - repeat constructor.
  - exact NoDup_A.
  - repeat constructor.
Defined.

(** [portfolio_returns_keys_and_dates] at a concrete input. *)
Lemma portfolio_returns_keys_and_dates_witness :
  wf_panel loss_then_gain /\
  portfolio_returns loss_then_gain ["Z"] 1%Z 2%Z = inl KeyError /\
  exists series,
    portfolio_returns loss_then_gain ["A"] 2%Z 9%Z = inr series /\
    In 2%Z (map fst series) /\ ~ In 1%Z (map fst series).
Proof.
  split; [exact wf_panel_loss_then_gain|].
  destruct (@portfolio_returns_keys_and_dates B64.t _ loss_then_gain ["Z"]
              1%Z 2%Z wf_panel_loss_then_gain) as [Hraise _].
  destruct (@portfolio_returns_keys_and_dates B64.t _ loss_then_gain ["A"]
              2%Z 9%Z wf_panel_loss_then_gain) as [_ Hret].
  split.
  - apply Hraise. exists "Z". simpl. intuition discriminate.
  - destruct Hret as (series & Hrun & _ & _ & Hdates); [simpl; auto|].
    exists series. split; [exact Hrun|]. split.
    + apply Hdates. simpl. split; [auto|lia].
    + intros Hin. apply Hdates in Hin. lia.
Defined.

(** [full_history_universe_spec] at a concrete input. *)
Lemma full_history_universe_spec_witness :
  In "A" (full_history_universe late_listing_exact) /\
  ~ In "B" (full_history_universe late_listing_exact).
Proof.
  destruct (full_history_universe_spec late_listing_exact) as [Hspec _].
  split.
  - apply Hspec. exists 0. split; [reflexivity|]. split; [discriminate|].
    simpl. intros row [<-|[<-|[]]]; simpl; eauto.
  - intros Hin. apply Hspec in Hin.
    destruct Hin as (j & Hj & _ & Hall).
    destruct j as [|[|j]]; simpl in Hj; try discriminate.
    + destruct (Hall [Some 1%R; None]) as [x Hx]; [simpl; auto|].
      simpl in Hx. discriminate.
    + destruct j; discriminate.
Defined.

(** [sample_portfolio_with_asset_frame] at a concrete input. *)
Lemma sample_portfolio_with_asset_frame_witness :
  1 <> 0 /\
  gen_at (snd (sample_portfolio_with_asset ["A"; "B"; "C"] "B" 2 0
                 empty_world)) 1
    = gen_at empty_world 1.
Proof.
  assert (Hr : 1 <> 0) by lia.
  split; [exact Hr|].
  destruct (@sample_portfolio_with_asset_frame Z lcg ["A"; "B"; "C"] "B" 2 0
              empty_world) as [_ Hgen].
  exact (Hgen 1 Hr).
Defined.

Lemma wf_cov_AB_frame : wf_cov cov_AB_frame.
Proof.
  repeat split; simpl; try exact NoDup_AB; repeat constructor.
Defined.

Lemma nonneg_totals_AB : nonneg_totals cov_AB_frame.
Proof.
  apply nonneg_cells_totals. simpl. unfold cov_AB_exact.
  repeat constructor; lra.
Defined.

Lemma pos_totals_AB : pos_totals cov_AB_frame.
Proof.
  apply pos_cells_totals; [exact wf_cov_AB_frame|].
  simpl. unfold cov_AB_exact. repeat constructor; lra.
Defined.

(** C9 at a concrete input. *)
Lemma expected_sigma_and_se_spec_witness :
  wf_cov cov_AB_frame /\ nonneg_totals cov_AB_frame /\ NoDup ["A"; "B"] /\
  (forall t, In t ["A"; "B"] -> In t (index cov_AB_frame)) /\
  In "A" ["A"; "B"] /\ (1 <= 2)%Z /\
  (2 - 1 <= Z.of_nat (length ["A"; "B"]) - 1)%Z /\ 1 <= 3 /\
  (0 <= 42)%Z /\
  exists Ps covs,
    portfolios (G := Z) ["A"; "B"] "A" 2 3 (from_seed 42) = inr Ps /\
    Forall2 (fun P cov_P => subcov cov_AB_frame P = inr cov_P) Ps covs /\
    fst (expected_sigma_and_se ["A"; "B"] (exact_frame cov_AB_frame) "A" 2 3
           42 empty_world) =
    inr (Some (sample_mean (map equal_weight_sigma covs)),
         Some (sample_std (map equal_weight_sigma covs) / sqrt (INR 3))%R).
Proof.
  assert (Hsub : forall t, In t ["A"; "B"] -> In t (index cov_AB_frame))
    by (simpl; auto).
  assert (Hin : In "A" ["A"; "B"]) by (simpl; auto).
  assert (Hk1 : (1 <= 2)%Z) by lia.
  assert (Hk2 : (2 - 1 <= Z.of_nat (length ["A"; "B"]) - 1)%Z) by (simpl; lia).
  assert (Hn : 1 <= 3) by lia.
  assert (Hseed : (0 <= 42)%Z) by lia.
  repeat (split; [assumption || exact wf_cov_AB_frame
                  || exact nonneg_totals_AB || exact NoDup_AB|]).
  destruct (@expected_sigma_and_se_spec Z lcg ["A"; "B"] cov_AB_frame "A" 2
              3 42 empty_world wf_cov_AB_frame nonneg_totals_AB NoDup_AB
              Hsub Hin Hk1 Hk2 Hn Hseed)
    as (Ps & covs & HPs & _ & _ & Hcov & _ & Hres).
  exists Ps, covs. auto.
Defined.

(** [expected_mrc_spec] at a concrete input. *)
Lemma expected_mrc_spec_witness :
  wf_cov cov_AB_frame /\ pos_totals cov_AB_frame /\ NoDup ["A"; "B"] /\
  (forall t, In t ["A"; "B"] -> In t (index cov_AB_frame)) /\
  In "A" ["A"; "B"] /\ (1 <= 2)%Z /\
  (2 - 1 <= Z.of_nat (length ["A"; "B"]) - 1)%Z /\ 1 <= 3 /\
  (0 <= 42)%Z /\
  exists Ps covs,
    portfolios (G := Z) ["A"; "B"] "A" 2 3 (from_seed 42) = inr Ps /\
    Forall2 (fun P cov_P => subcov cov_AB_frame P = inr cov_P) Ps covs /\
    fst (expected_mrc ["A"; "B"] (exact_frame cov_AB_frame) "A" 2 3 42
           empty_world) =
    inr (Some (sample_mean
                 (map (fun cov_P => equal_weight_mrc cov_P 1) covs))).
Proof.
  assert (Hsub : forall t, In t ["A"; "B"] -> In t (index cov_AB_frame))
    by (simpl; auto).
  assert (Hin : In "A" ["A"; "B"]) by (simpl; auto).
  assert (Hk1 : (1 <= 2)%Z) by lia.
  assert (Hk2 : (2 - 1 <= Z.of_nat (length ["A"; "B"]) - 1)%Z) by (simpl; lia).
  assert (Hn : 1 <= 3) by lia.
  assert (Hseed : (0 <= 42)%Z) by lia.
  repeat (split; [assumption || exact wf_cov_AB_frame
                  || exact pos_totals_AB || exact NoDup_AB|]).
  destruct (@expected_mrc_spec Z lcg ["A"; "B"] cov_AB_frame "A" 2
              3 42 empty_world wf_cov_AB_frame pos_totals_AB NoDup_AB
              Hsub Hin Hk1 Hk2 Hn Hseed)
    as (Ps & covs & HPs & _ & Hcov & _ & Hres).
  exists Ps, covs. auto.
Defined.

End MoreWitnesses.
